(** * The Function component of sst (internal/components/src/components/function.ts)

    A shallow embedding of the deploy pipeline of [Function]'s constructor:
    [calculateHash], [wrapHandler], [zipBundleFolder], [createBucketObject],
    [createFunction] and [updateFunctionCode].  The bundle directory is an
    explicit tree, the three asynchronous callbacks interleave at the await
    where the wrapper is written, and each deferred value resolves or
    rejects on its own. *)

From Stdlib Require Import ZArith List Ascii String Bool Lia OrdersEx Sorted Permutation.
From stdpp Require Import base option gmap strings.

Import ListNotations.
Local Open Scope string_scope.
Local Open Scope list_scope.

(** ** Byte strings

    A Node [Buffer] and a JS string of one-byte characters are both a
    [string] here: a Rocq [ascii] is exactly one byte. *)

Definition bytes := string.

Definition byte_values (s : bytes) : list Z :=
  List.map (fun c => Z.of_N (N_of_ascii c)) (list_ascii_of_string s).

(** ** The digest: [crypto.createHash("sha256")]

    SHA-256 (FIPS 180-4) over a list of byte values, on 32-bit words held
    in [Z] with the wrap-around written out. *)

Module Sha256.

Local Open Scope Z_scope.

Definition wmask : Z := 4294967295.
Definition w32 (x : Z) : Z := Z.land x wmask.
Definition add32 (x y : Z) : Z := w32 (x + y).
Definition rotr (n x : Z) : Z :=
  Z.lor (Z.shiftr x n) (w32 (Z.shiftl x (32 - n))).
Definition shr (n x : Z) : Z := Z.shiftr x n.
Definition not32 (x : Z) : Z := Z.lxor x wmask.

Definition Ch (x y z : Z) : Z := Z.lxor (Z.land x y) (Z.land (not32 x) z).
Definition Maj (x y z : Z) : Z :=
  Z.lxor (Z.lxor (Z.land x y) (Z.land x z)) (Z.land y z).
Definition Sigma0 (x : Z) : Z := Z.lxor (Z.lxor (rotr 2 x) (rotr 13 x)) (rotr 22 x).
Definition Sigma1 (x : Z) : Z := Z.lxor (Z.lxor (rotr 6 x) (rotr 11 x)) (rotr 25 x).
Definition sigma0 (x : Z) : Z := Z.lxor (Z.lxor (rotr 7 x) (rotr 18 x)) (shr 3 x).
Definition sigma1 (x : Z) : Z := Z.lxor (Z.lxor (rotr 17 x) (rotr 19 x)) (shr 10 x).

(** The constants are derived as FIPS 180-4 defines them: the first 32
    bits of the fractional parts of the cube roots (round constants) and
    of the square roots (initial hash value) of the first primes. *)
Definition is_prime (n : nat) : bool :=
  List.forallb (fun d => negb (n mod d =? 0)%nat) (List.seq 2 (n - 2)).

Definition primes (count : nat) : list Z :=
  List.map Z.of_nat (List.firstn count (List.filter is_prime (List.seq 2 400))).

(** The integer cube root, one bit at a time from the top. *)
Fixpoint cube_root (bits : nat) (n r : Z) : Z :=
  match bits with
  | O => r
  | S b =>
      let r' := r + Z.shiftl 1 (Z.of_nat b) in
      if r' * r' * r' <=? n then cube_root b n r' else cube_root b n r
  end.

Definition K : list Z :=
  Eval vm_compute in
    List.map (fun p => w32 (cube_root 40 (Z.shiftl p 96) 0)) (primes 64).

Definition H0 : list Z :=
  Eval vm_compute in
    List.map (fun p => w32 (Z.sqrt (Z.shiftl p 64))) (primes 8).

(** Big-endian bytes of a [k]-byte quantity. *)
Fixpoint be_bytes (k : nat) (x : Z) : list Z :=
  match k with
  | O => []
  | S k' => Z.land (Z.shiftr x (8 * Z.of_nat k')) 255 :: be_bytes k' x
  end.

(** Padding: a single 1 bit, zeros up to 56 mod 64, the bit length on
    eight bytes. *)
Definition pad (msg : list Z) : list Z :=
  let len := Z.of_nat (List.length msg) in
  let zeros := Z.to_nat ((55 - len) mod 64) in
  msg ++ [128] ++ List.repeat 0 zeros ++ be_bytes 8 (8 * len).

Fixpoint words (bs : list Z) : list Z :=
  match bs with
  | a :: b :: c :: d :: rest =>
      (Z.shiftl a 24 + Z.shiftl b 16 + Z.shiftl c 8 + d) :: words rest
  | _ => []
  end.

Fixpoint chunks (n : nat) (fuel : nat) (ws : list Z) : list (list Z) :=
  match fuel with
  | O => []
  | S fuel' =>
      match ws with
      | [] => []
      | _ => List.firstn n ws :: chunks n fuel' (List.skipn n ws)
      end
  end.

(** The message schedule, newest word first: [rev_w] holds W(t-1), W(t-2), ... *)
Fixpoint schedule (fuel : nat) (rev_w : list Z) : list Z :=
  match fuel with
  | O => rev_w
  | S fuel' =>
      let w := add32 (add32 (sigma1 (List.nth 1 rev_w 0)) (List.nth 6 rev_w 0))
                     (add32 (sigma0 (List.nth 14 rev_w 0)) (List.nth 15 rev_w 0)) in
      schedule fuel' (w :: rev_w)
  end.

Record regs := Regs { ra : Z; rb : Z; rc : Z; rd : Z; re : Z; rf : Z; rg : Z; rh : Z }.

Definition round (r : regs) (kw : Z * Z) : regs :=
  let '(k, w) := kw in
  let t1 := add32 (add32 (add32 (add32 (rh r) (Sigma1 (re r))) (Ch (re r) (rf r) (rg r))) k) w in
  let t2 := add32 (Sigma0 (ra r)) (Maj (ra r) (rb r) (rc r)) in
  Regs (add32 t1 t2) (ra r) (rb r) (rc r) (add32 (rd r) t1) (re r) (rf r) (rg r).

Definition regs_of (h : list Z) : regs :=
  Regs (List.nth 0 h 0) (List.nth 1 h 0) (List.nth 2 h 0) (List.nth 3 h 0)
       (List.nth 4 h 0) (List.nth 5 h 0) (List.nth 6 h 0) (List.nth 7 h 0).

Definition list_of (r : regs) : list Z :=
  [ra r; rb r; rc r; rd r; re r; rf r; rg r; rh r].

Definition compress (h : list Z) (block : list Z) : list Z :=
  let w := List.rev (schedule 48 (List.rev block)) in
  let r := List.fold_left round (List.combine K w) (regs_of h) in
  List.map (fun p => add32 (fst p) (snd p)) (List.combine h (list_of r)).

Definition digest (msg : list Z) : list Z :=
  let ws := words (pad msg) in
  let h := List.fold_left compress (chunks 16 (List.length ws) ws) H0 in
  List.concat (List.map (be_bytes 4) h).

End Sha256.

(** [digest("hex")]: two lower-case hexadecimal digits per byte. *)
Definition hex_digit (n : Z) : ascii :=
  List.nth (Z.to_nat n)
    (list_ascii_of_string "0123456789abcdef") "0"%char.

Fixpoint hex (bs : list Z) : string :=
  match bs with
  | [] => ""
  | b :: rest =>
      String (hex_digit (Z.shiftr b 4)) (String (hex_digit (Z.land b 15)) (hex rest))
  end.

Definition sha256_hex (msg : bytes) : string :=
  hex (Sha256.digest (byte_values msg)).

(** ** The bundle directory

    The tree below the bundle path.  A directory holds named entries; the
    order of the list carries no meaning and may be read as the order of
    creation: the order in which entries are listed is [readdir]'s, below.
    A symbolic link carries the node it resolves to, or nothing when its
    target is missing together with the target's directory.  The target of
    a link is held by value: the tree describes bundles in which no link
    leads to a file that the deploy writes.  Every directory is writable
    by the deploying user. *)

#[local] Set Warnings "-register-all".

Inductive node : Type :=
| File (content : bytes)
| Dir (entries : list (string * node))
| Symlink (target : option node).

Definition relpath := list string.

(** A relative path as [glob] prints it. *)
Definition show_path (p : relpath) : string := String.concat "/" p.

Section node_induction.
Variable P : node -> Prop.
Hypothesis HFile : forall c, P (File c).
Hypothesis HDir : forall es, Forall (fun e => P (snd e)) es -> P (Dir es).
Hypothesis HDangling : P (Symlink None).
Hypothesis HLink : forall t, P t -> P (Symlink (Some t)).

Fixpoint node_induction (n : node) : P n :=
  match n with
  | File c => HFile c
  | Dir es =>
      HDir es
        ((fix go (es : list (string * node)) : Forall (fun e => P (snd e)) es :=
            match es with
            | [] => @List.Forall_nil _ _
            | e :: es' => @List.Forall_cons _ _ e es' (node_induction (snd e)) (go es')
            end) es)
  | Symlink None => HDangling
  | Symlink (Some t) => HLink t (node_induction t)
  end.
End node_induction.

(** The node a chain of links ends in. *)
Fixpoint realnode (n : node) : option node :=
  match n with
  | Symlink None => None
  | Symlink (Some t) => realnode t
  | _ => Some n
  end.

Definition lookup_entry (s : string) (es : list (string * node)) : option node :=
  match List.find (fun e => String.eqb (fst e) s) es with
  | Some e => Some (snd e)
  | None => None
  end.

(** Path resolution as [open(2)] does it: links are followed at every
    component, the last one included. *)
Fixpoint resolve (n : node) (p : relpath) {struct n} : option node :=
  match n with
  | File c => match p with [] => Some n | _ => None end
  | Symlink None => None
  | Symlink (Some t) => resolve t p
  | Dir es =>
      match p with
      | [] => Some n
      | s :: rest =>
          (fix find (es : list (string * node)) : option node :=
             match es with
             | [] => None
             | e :: es' =>
                 if String.eqb (fst e) s then resolve (snd e) rest else find es'
             end) es
      end
  end.

(** The error codes of the file-system calls, and an error as Node
    reports it: the code and the path the call was given. *)
Inductive ErrorCode : Type := ENOENT | ENOTDIR | EISDIR.

Record IOError := {
  err_code : ErrorCode;
  err_path : string
}.

(** Why a path does not resolve: a regular file in the place of a
    directory is [ENOTDIR], a missing entry or target is [ENOENT]. *)
Fixpoint resolve_error (n : node) (p : relpath) {struct n} : ErrorCode :=
  match n with
  | File _ => ENOTDIR
  | Symlink None => ENOENT
  | Symlink (Some t) => resolve_error t p
  | Dir es =>
      match p with
      | [] => ENOENT
      | s :: rest =>
          (fix find (es : list (string * node)) : ErrorCode :=
             match es with
             | [] => ENOENT
             | e :: es' =>
                 if String.eqb (fst e) s then resolve_error (snd e) rest else find es'
             end) es
      end
  end.

(** [fs.promises.readFile] of the file at [p] below the bundle. *)
Definition readFile (bundle : node) (p : relpath) : ErrorCode + bytes :=
  match resolve bundle p with
  | Some (File c) => inr c
  | Some _ => inl EISDIR
  | None => inl (resolve_error bundle p)
  end.

(** [fs.promises.writeFile] of the file at [p] below the bundle: the file
    is replaced when it exists and created in its directory otherwise,
    links followed.  Nothing is created but the file itself: a missing
    directory, a file in the place of a directory, a directory at the
    path, and a link whose target's directory is missing are errors. *)
Fixpoint write_node (n : node) (p : relpath) (data : bytes) {struct n} : option node :=
  match n with
  | File _ => match p with [] => Some (File data) | _ => None end
  | Symlink None => None
  | Symlink (Some t) =>
      match write_node t p data with
      | Some t' => Some (Symlink (Some t'))
      | None => None
      end
  | Dir es =>
      match p with
      | [] => None
      | s :: rest =>
          match
            (fix upd (es : list (string * node)) : option (list (string * node)) :=
               match es with
               | [] => match rest with
                       | [] => Some [(s, File data)]
                       | _ => None
                       end
               | e :: es' =>
                   if String.eqb (fst e) s
                   then match write_node (snd e) rest data with
                        | Some c' => Some ((fst e, c') :: es')
                        | None => None
                        end
                   else match upd es' with
                        | Some es'' => Some (e :: es'')
                        | None => None
                        end
               end) es
          with
          | Some es' => Some (Dir es')
          | None => None
          end
      end
  end.

(** A directory's entries with the first one named [s] replaced. *)
Fixpoint update_entry (s : string) (c : node) (es : list (string * node))
  : list (string * node) :=
  match es with
  | [] => []
  | e :: es' =>
      if String.eqb (fst e) s then (fst e, c) :: es' else e :: update_entry s c es'
  end.

(** The code of a write that fails. *)
Fixpoint write_error (n : node) (p : relpath) {struct n} : ErrorCode :=
  match n with
  | File _ => ENOTDIR
  | Symlink None => ENOENT
  | Symlink (Some t) => write_error t p
  | Dir es =>
      match p with
      | [] => EISDIR
      | s :: rest =>
          (fix find (es : list (string * node)) : ErrorCode :=
             match es with
             | [] => ENOENT
             | e :: es' =>
                 if String.eqb (fst e) s then write_error (snd e) rest else find es'
             end) es
      end
  end.

(** ** Directory listings

    [fs.readdir] lists a directory by name, in the byte order of the
    names: there is one listing per set of names, whatever the order in
    which the entries were created. *)

Fixpoint insert_by_name {A : Type} (e : string * A) (l : list (string * A))
  : list (string * A) :=
  match l with
  | [] => [e]
  | x :: l' =>
      if String.leb (fst e) (fst x) then e :: x :: l' else x :: insert_by_name e l'
  end.

Fixpoint sort_by_name {A : Type} (l : list (string * A)) : list (string * A) :=
  match l with
  | [] => []
  | e :: l' => insert_by_name e (sort_by_name l')
  end.

(** An entry whose name comes no later than another's. *)
Definition name_le {A : Type} (x y : string * A) : Prop :=
  String.leb (fst x) (fst y) = true.

(** The entries of a directory as [readdir] gives them. *)
Definition readdir {A : Type} (entries : list (string * A)) : list (string * A) :=
  sort_by_name entries.

(** ** [glob]

    The walk behind [globSync("**", options)] of the glob package, for the
    options the component passes: [ignore] (the directory names [N] of
    patterns [**/N/**]), [dot], [nodir] and [follow].  The package keeps
    the children of a directory in the reverse of the order [readdir]
    gave them (each child is put in front of the ones read before); the
    matches of a directory come in that order, before the matches of its
    subdirectories, which are walked in that order too. *)

Record GlobOptions := {
  ignore : list string;
  dot : bool;
  nodir : bool;
  follow : bool
}.

Definition is_dotfile (name : string) : bool :=
  match name with
  | String "."%char _ => true
  | _ => false
  end.

Definition visible (o : GlobOptions) (name : string) : bool :=
  negb (existsb (String.eqb name) (ignore o)) && (dot o || negb (is_dotfile name)).

(** What [nodir] removes: directories, and with [follow] the links to them. *)
Definition is_directory (o : GlobOptions) (n : node) : bool :=
  match n with
  | Dir _ => true
  | File _ => false
  | Symlink _ =>
      follow o && match realnode n with Some (Dir _) => true | _ => false end
  end.

Definition matched (o : GlobOptions) (prefix : relpath) (e : string * node)
  : list relpath :=
  if visible o (fst e) && negb (nodir o && is_directory o (snd e))
  then [prefix ++ [fst e]] else [].

Definition children {A : Type} (entries : list (string * A)) : list (string * A) :=
  List.rev (readdir entries).

(** Each entry of a directory gives a row: its name, its own match, and
    the matches below it; the rows are then put in the order of
    [children]. *)
Fixpoint glob_walk (o : GlobOptions) (prefix : relpath) (n : node) {struct n}
  : list relpath :=
  match n with
  | File _ => []
  | Symlink None => []
  | Symlink (Some t) => if follow o then glob_walk o prefix t else []
  | Dir es =>
      let rows :=
        List.map
          (fun e =>
             (fst e,
              (matched o prefix e,
               if visible o (fst e)
               then glob_walk o (prefix ++ [fst e]) (snd e) else [])))
          es in
      List.flat_map (fun r => fst (snd r)) (children rows)
      ++ List.flat_map (fun r => snd (snd r)) (children rows)
  end.

Definition globSync (o : GlobOptions) (cwd : node) : list relpath :=
  glob_walk o [] cwd.

(** ** Archives

    [archive.glob("**", { cwd, dot: true })] of the archiver package walks
    the directory with readdir-glob: the entries of a directory in
    [readdir] order, each one before what lies below it, dotfiles
    included, nothing ignored.  Links are not followed: a link is
    appended as a link. *)

Inductive ZipEntry : Type :=
| ZipFile (content : bytes)
| ZipDirectory
| ZipSymlink.

Definition Archive := list (relpath * ZipEntry).

Definition zip_entry (n : node) : ZipEntry :=
  match n with
  | File c => ZipFile c
  | Dir _ => ZipDirectory
  | Symlink _ => ZipSymlink
  end.

Fixpoint archive_walk (prefix : relpath) (n : node) {struct n} : Archive :=
  match n with
  | Dir es =>
      List.flat_map snd
        (readdir
           (List.map
              (fun e =>
                 (fst e,
                  (prefix ++ [fst e], zip_entry (snd e))
                  :: archive_walk (prefix ++ [fst e]) (snd e)))
              es))
  | _ => []
  end.

(** The archive of a bundle; the directory at [cwd] may itself be reached
    through a link. *)
Definition archive_of (b : node) : Archive :=
  match realnode b with
  | Some r => archive_walk [] r
  | None => []
  end.

(** ** [path.posix]

    [parse] is Node's scan from the right end of the string, index by
    index; [normalize] and [join] work on the components between
    slashes. *)

Module Posix.

Local Open Scope Z_scope.

Record ParsedPath := {
  root : string;
  dir : string;
  base : string;
  ext : string;
  name : string
}.

Record scan := {
  startDot : Z;
  startPart : Z;
  end_ : Z;
  matchedSlash : bool;
  preDotState : Z
}.

Definition is_slash (c : ascii) : bool := Ascii.eqb c "/"%char.
Definition is_dot (c : ascii) : bool := Ascii.eqb c "."%char.

Fixpoint indexed (i : Z) (cs : list ascii) : list (Z * ascii) :=
  match cs with
  | [] => []
  | c :: cs' => (i, c) :: indexed (i + 1) cs'
  end.

(** The characters at [path.length - 1] down to [start], with their index. *)
Definition chars_desc (path : string) (start : Z) : list (Z * ascii) :=
  List.rev (List.skipn (Z.to_nat start) (indexed 0 (list_ascii_of_string path))).

(** The [for (; i >= start; --i)] loop; the [break] ends the recursion. *)
Fixpoint parse_loop (cs : list (Z * ascii)) (st : scan) : scan :=
  match cs with
  | [] => st
  | (i, code) :: rest =>
      if is_slash code then
        if negb (matchedSlash st)
        then {| startDot := startDot st; startPart := i + 1; end_ := end_ st;
                matchedSlash := matchedSlash st; preDotState := preDotState st |}
        else parse_loop rest st
      else
        let st1 :=
          if end_ st =? -1
          then {| startDot := startDot st; startPart := startPart st; end_ := i + 1;
                  matchedSlash := false; preDotState := preDotState st |}
          else st in
        let st2 :=
          if is_dot code then
            if startDot st1 =? -1
            then {| startDot := i; startPart := startPart st1; end_ := end_ st1;
                    matchedSlash := matchedSlash st1; preDotState := preDotState st1 |}
            else if negb (preDotState st1 =? 1)
            then {| startDot := startDot st1; startPart := startPart st1; end_ := end_ st1;
                    matchedSlash := matchedSlash st1; preDotState := 1 |}
            else st1
          else if negb (startDot st1 =? -1)
          then {| startDot := startDot st1; startPart := startPart st1; end_ := end_ st1;
                  matchedSlash := matchedSlash st1; preDotState := -1 |}
          else st1 in
        parse_loop rest st2
  end.

(** [String.prototype.slice(from, to)] for [0 <= from <= to]. *)
Definition slice (s : string) (from to : Z) : string :=
  String.substring (Z.to_nat from) (Z.to_nat (to - from)) s.

Definition strlen (s : string) : Z := Z.of_nat (String.length s).

Definition parse (path : string) : ParsedPath :=
  if strlen path =? 0
  then {| root := ""; dir := ""; base := ""; ext := ""; name := "" |}
  else
    let isAbsolute :=
      match path with String c _ => is_slash c | EmptyString => false end in
    let start := if isAbsolute then 1 else 0 in
    let st := parse_loop (chars_desc path start)
                {| startDot := -1; startPart := 0; end_ := -1;
                   matchedSlash := true; preDotState := 0 |} in
    let from := if (startPart st =? 0) && isAbsolute then 1 else startPart st in
    let no_ext :=
      (startDot st =? -1) || (preDotState st =? 0) ||
      ((preDotState st =? 1) && (startDot st =? end_ st - 1)
         && (startDot st =? startPart st + 1)) in
    let dir_ :=
      if 0 <? startPart st then slice path 0 (startPart st - 1)
      else if isAbsolute then "/" else "" in
    if end_ st =? -1
    then {| root := if isAbsolute then "/" else ""; dir := dir_;
            base := ""; ext := ""; name := "" |}
    else if no_ext
    then {| root := if isAbsolute then "/" else ""; dir := dir_;
            base := slice path from (end_ st); ext := "";
            name := slice path from (end_ st) |}
    else {| root := if isAbsolute then "/" else ""; dir := dir_;
            base := slice path from (end_ st);
            ext := slice path (startDot st) (end_ st);
            name := slice path from (startDot st) |}.

(** The components of a path, the empty ones between doubled slashes
    included. *)
Fixpoint split_acc (cur : string) (s : string) : list string :=
  match s with
  | EmptyString => [cur]
  | String c s' =>
      if is_slash c then cur :: split_acc "" s'
      else split_acc (cur ++ String c "")%string s'
  end.

Definition split (s : string) : list string := split_acc "" s.

(** [normalizeString]: [.] and empty components go, [..] removes the
    component before it, or stays when there is none and the path is
    relative.  [res] is the result so far, last component first. *)
Fixpoint normalize_segments (allowAboveRoot : bool) (segs res : list string)
  : list string :=
  match segs with
  | [] => List.rev res
  | s :: rest =>
      if String.eqb s "" || String.eqb s "." then
        normalize_segments allowAboveRoot rest res
      else if String.eqb s ".." then
        match res with
        | top :: res' =>
            if String.eqb top ".."
            then normalize_segments allowAboveRoot rest
                   (if allowAboveRoot then ".." :: res else res)
            else normalize_segments allowAboveRoot rest res'
        | [] =>
            normalize_segments allowAboveRoot rest
              (if allowAboveRoot then [".."] else [])
        end
      else normalize_segments allowAboveRoot rest (s :: res)
  end.

Definition ends_with_slash (s : string) : bool :=
  match List.rev (list_ascii_of_string s) with
  | c :: _ => is_slash c
  | [] => false
  end.

Definition normalize (path : string) : string :=
  if strlen path =? 0 then "." else
  let isAbsolute :=
    match path with String c _ => is_slash c | EmptyString => false end in
  let trailingSeparator := ends_with_slash path in
  let p := String.concat "/"
             (normalize_segments (negb isAbsolute) (split path) []) in
  if strlen p =? 0 then
    if isAbsolute then "/" else if trailingSeparator then "./" else "."
  else
    let p' := if trailingSeparator then (p ++ "/")%string else p in
    if isAbsolute then ("/" ++ p')%string else p'.

(** [join(...args)]: the non-empty arguments joined by a slash, then
    normalised. *)
Definition join (args : list string) : string :=
  match List.filter (fun a => negb (strlen a =? 0)) args with
  | [] => "."
  | parts => normalize (String.concat "/" parts)
  end.

(** [dirname(path)]: the scan from the right end, down to index 1, for
    the last slash that follows a character that is none. *)
Fixpoint dirname_loop (cs : list (Z * ascii)) (matchedSlash : bool) : Z :=
  match cs with
  | [] => -1
  | (i, code) :: rest =>
      if is_slash code then
        if negb matchedSlash then i else dirname_loop rest matchedSlash
      else dirname_loop rest false
  end.

Definition dirname (path : string) : string :=
  if strlen path =? 0 then "." else
  let hasRoot :=
    match path with String c _ => is_slash c | EmptyString => false end in
  let end_ := dirname_loop (chars_desc path 1) true in
  if end_ =? -1 then (if hasRoot then "/" else ".")
  else if hasRoot && (end_ =? 1) then "//"
  else slice path 0 end_.

End Posix.

Module PosixResolve.
Import Posix.
Local Open Scope Z_scope.

Definition is_absolute (p : string) : bool :=
  match p with String c _ => is_slash c | EmptyString => false end.

(** [path.resolve]: arguments are taken from the right until an absolute
    one is met, the working directory being the last resort. *)
Fixpoint resolve_acc (rev_args : list string) (resolved : string) : string * bool :=
  match rev_args with
  | [] => (resolved, false)
  | p :: rest =>
      if strlen p =? 0 then resolve_acc rest resolved
      else
        let resolved' := (p ++ "/" ++ resolved)%string in
        if is_absolute p then (resolved', true) else resolve_acc rest resolved'
  end.

Definition resolve (cwd : string) (args : list string) : string :=
  let '(r, abs) := resolve_acc (List.rev args) "" in
  let '(r, abs) := if abs then (r, true)
                   else ((cwd ++ "/" ++ r)%string, is_absolute cwd) in
  let p := String.concat "/" (normalize_segments (negb abs) (split r) []) in
  if abs then ("/" ++ p)%string
  else if 0 <? strlen p then p else ".".
End PosixResolve.

(** ** Where a path given to the file system lies

    The components of the absolute form of a path, for a process whose
    working directory is [cwd], and the place of a path below the bundle
    directory when it lies below it. *)

Definition segments (cwd path : string) : list string :=
  Posix.normalize_segments false
    (Posix.split
       (if PosixResolve.is_absolute path then path else cwd +:+ "/" +:+ path))
    [].

Fixpoint strip_prefix (root target : list string) : option (list string) :=
  match root, target with
  | [], _ => Some target
  | r :: root', t :: target' =>
      if String.eqb r t then strip_prefix root' target' else None
  | _ :: _, [] => None
  end.

Definition locate (cwd bundle path : string) : option (list string) :=
  strip_prefix (segments cwd bundle) (segments cwd path).

(** ** The hash object of [crypto]

    [update] appends to the data to be hashed, [digest] hashes all of it. *)

Record Hash := { absorbed : bytes }.

Definition createHash : Hash := {| absorbed := "" |}.
Definition update (h : Hash) (data : bytes) : Hash :=
  {| absorbed := absorbed h +:+ data |}.
Definition digest (h : Hash) : string := sha256_hex (absorbed h).

(** ** The world the constructor runs in

    The bundle tree, the files written below [app.paths.temp], and the
    file-system calls made so far, oldest first. *)

Inductive Event : Type :=
| EvGlobSync
| EvReadFile (p : relpath)
| EvWriteFile (path : string)
| EvMkdir (path : string)
| EvArchiveFile (p : relpath)
| EvArchive (zipPath : string).

Record World := {
  bundleDir : node;
  tempFiles : list (string * Archive);
  events : list Event
}.

(** The ambient [app] object, the bootstrap lookup, and the outputs the
    engine resolves for a resource: the physical name of a function
    ([fn.name]) and the ARN of a role ([role.arn]).  [cwd] is the working
    directory of the process. *)
Record App := {
  cwd : string;
  paths_temp : string;
  aws_region : string;
  bootstrap_forRegion : string -> string;
  physical_name : string -> string;
  role_arn : string -> string
}.

(** ** Deferred values

    [pulumi.all(inputs).apply(f)] runs [f] once its inputs are known, and
    gives an output that resolves to what [f] returns or rejects with
    what it throws.  A callback is a computation on the world that may
    reject with an I/O error. *)

Definition Output (A : Type) : Type := IOError + A.

Definition M (A : Type) : Type := World -> Output A * World.

Definition ret {A} (a : A) : M A := fun w => (inr a, w).

Definition bind {A B} (m : M A) (k : A -> M B) : M B :=
  fun w =>
    match m w with
    | (inl e, w') => (inl e, w')
    | (inr a, w') => k a w'
    end.

Definition reject {A} (e : IOError) : M A := fun w => (inl e, w).

Notation "x <- c1 ;; c2" := (bind c1 (fun x => c2))
  (at level 100, c1 at next level, right associativity).
Notation "c1 ;;; c2" := (bind c1 (fun _ => c2))
  (at level 100, right associativity).

Definition get_bundle : M node := fun w => (inr (bundleDir w), w).

(** A world with more calls recorded, or with another bundle tree. *)
Definition add_events (w : World) (es : list Event) : World :=
  {| bundleDir := bundleDir w; tempFiles := tempFiles w; events := events w ++ es |}.

Definition set_bundle (w : World) (b : node) : World :=
  {| bundleDir := b; tempFiles := tempFiles w; events := events w |}.

Definition emit (e : Event) : M unit :=
  fun w => (inr tt, add_events w [e]).

(** [fs.promises.readFile(path)], where [path] is the absolute form of
    the place [p] below the bundle. *)
Definition fs_readFile (path : string) (p : relpath) : M bytes :=
  emit (EvReadFile p) ;;;
  b <- get_bundle ;;
  match readFile b p with
  | inr data => ret data
  | inl c => reject {| err_code := c; err_path := path |}
  end.

(** The place of [path.join(bundle, dir, file)] below the bundle, when it
    is below the bundle. *)
Definition below_bundle (cwd bundle dir file : string) : option relpath :=
  locate cwd bundle (Posix.join [bundle; dir; file]).

(** [fs.promises.writeFile(path, data)], the tree of the world being the
    directory at [bundle].  A path that lies outside the bundle is no
    part of the world: the call is recorded and the bundle is left as it
    is. *)
Definition fs_writeFile (cwd bundle path : string) (data : bytes) : M unit :=
  emit (EvWriteFile path) ;;;
  match locate cwd bundle path with
  | None => ret tt
  | Some p =>
      fun w =>
        match write_node (bundleDir w) p data with
        | Some b' => (inr tt, set_bundle w b')
        | None =>
            (inl {| err_code := write_error (bundleDir w) p; err_path := path |}, w)
        end
  end.

(** [fs.promises.mkdir(path, { recursive: true })] below [app.paths.temp]. *)
Definition fs_mkdir (path : string) : M unit := emit (EvMkdir path).

(** The files the archiver streams from the bundle, in the order of the
    archive. *)
Definition archive_reads (a : Archive) : list Event :=
  List.flat_map
    (fun e => match snd e with ZipFile _ => [EvArchiveFile (fst e)] | _ => [] end) a.

(** The archive piped into [fs.createWriteStream(zipPath)], up to the
    close of the stream. *)
Definition fs_writeZip (zipPath : string) (a : Archive) : M unit :=
  fun w => (inr tt, {| bundleDir := bundleDir w;
                       tempFiles := (zipPath, a) :: tempFiles w;
                       events := events w ++ archive_reads a ++ [EvArchive zipPath] |}).

Definition find_temp (zipPath : string) (w : World) : option Archive :=
  match List.find (fun e => String.eqb (fst e) zipPath) (tempFiles w) with
  | Some e => Some (snd e)
  | None => None
  end.

(** The calls [calculateHash] makes. *)
Definition is_hash_read (e : Event) : bool :=
  match e with
  | EvGlobSync | EvReadFile _ => true
  | _ => false
  end.

(** ** [FunctionArgs] and the resources the constructor declares *)

(** [FunctionArgs] omits [code], [s3Bucket], [s3Key] and [role] from the
    Lambda arguments: the settings that pass through [...args] cannot name
    the code. *)
Record FunctionArgs := {
  bundle : string;
  bundleHash : option string;
  handler : string;
  environment : option (list (string * string));
  policies : list string;
  streaming : option bool;
  injections : option (list string);
  region : option string;
  runtimeConfig : list (string * string)
}.

Record Provider := {
  provider_name : string;
  provider_region : string
}.

Record Role := {
  role_name : string;
  role_service : string;
  role_inlinePolicies : list string;
  role_managedPolicyArns : list string
}.

Record BucketObject := {
  object_name : string;
  object_provider : string;
  object_key : string;
  object_bucket : string;
  object_source : string
}.

Inductive Asset : Type :=
| StringAsset (text : string).

(** What a function's [code] can point at: inline assets, or an object in
    a bucket. *)
Inductive Code : Type :=
| AssetArchive (assets : list (string * Asset))
| S3Object (s3Bucket s3Key : string).

Record LambdaFunction := {
  fn_name : string;
  fn_provider : string;
  fn_code : option Code;
  fn_role : string;
  fn_handler : string;
  fn_environment : list (string * string);
  fn_config : list (string * string)
}.

Record FunctionCodeUpdaterArgs := {
  updater_name : string;
  updater_functionName : string;
  updater_s3Bucket : string;
  updater_s3Key : string;
  updater_region : option string
}.

Record Deployed := {
  d_provider : Provider;
  d_bundleHash : string;
  d_newHandler : string;
  d_role : Role;
  d_zipFile : string;
  d_file : BucketObject;
  d_fn : LambdaFunction;
  d_updater : FunctionCodeUpdaterArgs
}.

Definition newline : string := String "010"%char "".
Definition dquote : string := String "034"%char "".

(** [s.replace(/^\./, "")]. *)
Definition strip_leading_dot (s : string) : string :=
  match s with
  | String "."%char s' => s'
  | _ => s
  end.

(** JS [a || b] on an optional string: the empty string is falsy. *)
Definition or_else (a : option string) (b : string) : string :=
  match a with
  | Some s => if (String.length s =? 0)%nat then b else s
  | None => b
  end.

Definition hash_glob_options : GlobOptions :=
  {| ignore := ["node_modules"]; dot := true; nodir := true; follow := true |}.

(** What the constructor declares: the provider and the role, whose
    arguments are plain values, and the deferred values with the
    resources that wait for them.  A resource is registered once every
    output among its arguments has resolved. *)
Record Declared := {
  c_provider : Provider;
  c_role : Role;
  c_bundleHash : Output string;
  c_newHandler : Output string;
  c_zipFile : Output string;
  c_file : Output BucketObject;
  c_fn : Output LambdaFunction;
  c_updater : Output FunctionCodeUpdaterArgs
}.

Section Constructor.

Variable app : App.
Variable name : string.
Variable args : FunctionArgs.

(** The destructuring with defaults of lines 142-156. *)
Definition args_environment : list (string * string) :=
  match environment args with Some e => e | None => [] end.
Definition args_streaming : bool :=
  match streaming args with Some s => s | None => false end.
Definition args_injections : list string :=
  match injections args with Some i => i | None => [] end.

Definition provider : Provider :=
  {| provider_name := name +:+ "-provider";
     provider_region := or_else (region args) (aws_region app) |}.

(** The [for ... of filePaths] loop of [calculateHash]. *)
Fixpoint hash_files (hash : Hash) (filePaths : list relpath) : M Hash :=
  match filePaths with
  | [] => ret hash
  | filePath :: rest =>
      data <- fs_readFile
                (PosixResolve.resolve (cwd app) [bundle args; show_path filePath])
                filePath ;;
      hash_files (update hash data) rest
  end.

Definition calculateHash : M string :=
  let hash := createHash in
  b <- get_bundle ;;
  emit EvGlobSync ;;;
  let filePaths := globSync hash_glob_options b in
  hash' <- hash_files hash filePaths ;;
  ret (digest hash').

(** [calculateHash] cut at an await of its loop: what has run when [n]
    files are read, and what runs from there. *)
Definition calculateHash_upto (n : nat) : M (Hash * list relpath) :=
  let hash := createHash in
  b <- get_bundle ;;
  emit EvGlobSync ;;;
  let filePaths := globSync hash_glob_options b in
  hash' <- hash_files hash (List.firstn n filePaths) ;;
  ret (hash', List.skipn n filePaths).

Definition calculateHash_from (st : Hash * list relpath) : M string :=
  hash' <- hash_files (fst st) (snd st) ;;
  ret (digest hash').

Definition newHandlerName : string := "server-index".
Definition newHandlerFunction : string := "handler".

(** The text of the generated module, line by line. *)
Definition wrapper_lines (streaming : bool) (injections : list string)
    (oldHandlerFunction oldHandlerName : string) : list string :=
  if streaming
  then
    [ "export const " +:+ newHandlerFunction
        +:+ " = awslambda.streamifyResponse(async (event, context) => {" ]
    ++ injections ++
    [ "  const { " +:+ oldHandlerFunction +:+ ": rawHandler} = await import("
        +:+ dquote +:+ "./" +:+ oldHandlerName +:+ ".mjs" +:+ dquote +:+ ");";
      "  return rawHandler(event, context);";
      "});" ]
  else
    [ "export const " +:+ newHandlerFunction +:+ " = async (event, context) => {" ]
    ++ injections ++
    [ "  const { " +:+ oldHandlerFunction +:+ ": rawHandler} = await import("
        +:+ dquote +:+ "./" +:+ oldHandlerName +:+ ".mjs" +:+ dquote +:+ ");";
      "  return rawHandler(event, context);";
      "};" ].

Definition wrapHandler : M string :=
  let handler := handler args in
  let injections := args_injections in
  if (List.length injections =? 0)%nat then ret handler else
  let parsed := Posix.parse handler in
  let handlerDir := Posix.dir parsed in
  let oldHandlerName := Posix.name parsed in
  let oldHandlerExt := Posix.ext parsed in
  let oldHandlerFunction := strip_leading_dot oldHandlerExt in
  fs_writeFile (cwd app) (bundle args)
    (Posix.join [bundle args; handlerDir; newHandlerName +:+ ".mjs"])
    (String.concat newline
       (wrapper_lines args_streaming injections oldHandlerFunction oldHandlerName)) ;;;
  ret (Posix.join [handlerDir; newHandlerName +:+ "." +:+ newHandlerFunction]).

Definition createRole : Role :=
  {| role_name := name +:+ "-role";
     role_service := "lambda.amazonaws.com";
     role_inlinePolicies := policies args;
     role_managedPolicyArns :=
       ["arn:aws:iam::aws:policy/service-role/AWSLambdaBasicExecutionRole"] |}.

Definition zipBundleFolder : M string :=
  let zipPath :=
    PosixResolve.resolve (cwd app) [paths_temp app; name; "code.zip"] in
  fs_mkdir (Posix.dirname zipPath) ;;;
  b <- get_bundle ;;
  fs_writeZip zipPath (archive_of b) ;;;
  ret zipPath.

Definition createBucketObject (bundleHash zipFile : string) : BucketObject :=
  {| object_name := name +:+ "-code";
     object_provider := provider_name provider;
     object_key := name +:+ "-code-" +:+ bundleHash +:+ ".zip";
     object_bucket := bootstrap_forRegion app (or_else (region args) (aws_region app));
     object_source := zipFile |}.

Definition placeholder : Code :=
  AssetArchive [("index", StringAsset "exports.handler = () => {}")].

Definition createFunction (role : Role) (newHandler : string) : LambdaFunction :=
  {| fn_name := name +:+ "-function";
     fn_provider := provider_name provider;
     fn_code := Some placeholder;
     fn_role := role_arn app (role_name role);
     fn_config := runtimeConfig args;
     fn_handler := newHandler;
     fn_environment := args_environment |}.

Definition updateFunctionCode (fn : LambdaFunction) (file : BucketObject)
  : FunctionCodeUpdaterArgs :=
  {| updater_name := name +:+ "-code-updater";
     updater_functionName := physical_name app (fn_name fn);
     updater_s3Bucket := object_bucket file;
     updater_s3Key := object_key file;
     updater_region := region args |}.

(** The resources of lines 168-172, each waiting for its own inputs: the
    bucket object for the hash and the zip file, the function for the new
    handler, the updater for the function and the bucket object. *)
Definition declare (bundleHash newHandler zipFile : Output string) : Declared :=
  let role := createRole in
  let file :=
    match bundleHash, zipFile with
    | inr h, inr z => inr (createBucketObject h z)
    | inl e, _ => inl e
    | _, inl e => inl e
    end in
  let fn :=
    match newHandler with
    | inr nh => inr (createFunction role nh)
    | inl e => inl e
    end in
  let updater :=
    match fn, file with
    | inr f, inr o => inr (updateFunctionCode f o)
    | inl e, _ => inl e
    | _, inl e => inl e
    end in
  {| c_provider := provider; c_role := role;
     c_bundleHash := bundleHash; c_newHandler := newHandler; c_zipFile := zipFile;
     c_file := file; c_fn := fn; c_updater := updater |}.

(** Lines 166-172 of the constructor.  The three callbacks start in the
    order the constructor creates them and run up to their first await:
    [globSync] has listed the bundle before [writeFile] is called, and
    [mkdir] is called after it.  The source does not decide which reads
    of [calculateHash] come before the write: [landed] is the number of
    files read when the write lands.  The archive is read once [mkdir] is
    done and the archiver has walked the directory, the write having
    landed.  A callback that rejects stops nothing but its own output. *)
Definition Function_constructor (landed : nat) : World -> Declared * World :=
  fun w0 =>
    let '(hashing, w1) :=
      match bundleHash args with
      | Some h => (inr (inl h), w0)
      | None =>
          match calculateHash_upto landed w0 with
          | (inr st, w) => (inr (inr st), w)
          | (inl e, w) => (inl e, w)
          end
      end in
    let '(newHandler, w2) := wrapHandler w1 in
    let '(bundleHash, w3) :=
      match hashing with
      | inl e => (inl e, w2)
      | inr (inl h) => (inr h, w2)
      | inr (inr st) => calculateHash_from st w2
      end in
    let '(zipFile, w4) := zipBundleFolder w3 in
    (declare bundleHash newHandler zipFile, w4).

End Constructor.

(** What the constructor declares, given the three values its deferred
    steps produce. *)
Definition deployed_of (app : App) (name : string) (args : FunctionArgs)
    (bundleHash newHandler zipFile : string) : Deployed :=
  let role := createRole name args in
  let file := createBucketObject app name args bundleHash zipFile in
  let fn := createFunction app name args role newHandler in
  {| d_provider := provider app name args; d_bundleHash := bundleHash;
     d_newHandler := newHandler; d_role := role; d_zipFile := zipFile;
     d_file := file; d_fn := fn;
     d_updater := updateFunctionCode app name args fn file |}.

(** The deploy in which every output has resolved. *)
Definition deployed (c : Declared) : Output Deployed :=
  match c_bundleHash c, c_newHandler c, c_zipFile c, c_file c, c_fn c, c_updater c with
  | inr h, inr nh, inr z, inr file, inr fn, inr u =>
      inr {| d_provider := c_provider c; d_bundleHash := h; d_newHandler := nh;
             d_role := c_role c; d_zipFile := z; d_file := file; d_fn := fn;
             d_updater := u |}
  | inl e, _, _, _, _, _ => inl e
  | _, inl e, _, _, _, _ => inl e
  | _, _, inl e, _, _, _ => inl e
  | _, _, _, inl e, _, _ => inl e
  | _, _, _, _, inl e, _ => inl e
  | _, _, _, _, _, inl e => inl e
  end.

(** A world holding only the bundle. *)
Definition fresh_world (b : node) : World :=
  {| bundleDir := b; tempFiles := []; events := [] |}.

(** ** What the hash covers *)

(** [calculateHash] run on a bundle. *)
Definition hash_of (app : App) (args : FunctionArgs) (b : node) : Output string :=
  fst (calculateHash app args (fresh_world b)).

(** The hash when the bundle is [b] while [globSync] lists it and the
    first [n] files are read, and [b'] from then on. *)
Definition hash_mixed (app : App) (args : FunctionArgs) (n : nat) (b b' : node)
  : Output string :=
  let filePaths := globSync hash_glob_options b in
  match fst (hash_files app args createHash (List.firstn n filePaths) (fresh_world b)) with
  | inl e => inl e
  | inr hash =>
      match fst (hash_files app args hash (List.skipn n filePaths) (fresh_world b')) with
      | inl e => inl e
      | inr hash' => inr (digest hash')
      end
  end.

(** The bytes [hash.update] receives when the files at [paths] are read
    one after the other, when every read succeeds. *)
Fixpoint contents (b : node) (paths : list relpath) : option bytes :=
  match paths with
  | [] => Some ""
  | p :: rest =>
      match readFile b p, contents b rest with
      | inr c, Some s => Some (c +:+ s)
      | _, _ => None
      end
  end.

Definition hashed_bytes (b : node) : option bytes :=
  contents b (globSync hash_glob_options b).

(** The (relative path, content) pairs of the files [calculateHash]
    reads, in the order it reads them. *)
Definition bundle_pairs (b : node) : list (relpath * bytes) :=
  List.flat_map
    (fun p => match readFile b p with inr c => [(p, c)] | inl _ => [] end)
    (globSync hash_glob_options b).

(** Entry names are unique within a directory. *)
Fixpoint unique_names (n : node) {struct n} : bool :=
  match n with
  | File _ => true
  | Symlink None => true
  | Symlink (Some t) => unique_names t
  | Dir es =>
      bool_decide (NoDup (List.map fst es))
      && List.forallb (fun e => unique_names (snd e)) es
  end.

(** The same tree with the entries of every directory in name order:
    two trees with the same entries, created in whatever order, have the
    same one. *)
Fixpoint in_name_order (n : node) {struct n} : node :=
  match n with
  | File c => File c
  | Symlink None => Symlink None
  | Symlink (Some t) => Symlink (Some (in_name_order t))
  | Dir es =>
      Dir (sort_by_name (List.map (fun e => (fst e, in_name_order (snd e))) es))
  end.

(** The generated module and its place below the bundle, as
    [wrapHandler] computes them. *)
Definition wrapper_module (args : FunctionArgs) : bytes :=
  let parsed := Posix.parse (handler args) in
  String.concat newline
    (wrapper_lines (args_streaming args) (args_injections args)
       (strip_leading_dot (Posix.ext parsed)) (Posix.name parsed)).

Definition wrapper_file (args : FunctionArgs) : string :=
  Posix.join [bundle args; Posix.dir (Posix.parse (handler args));
              newHandlerName +:+ ".mjs"].

Definition wrapper_path (app : App) (args : FunctionArgs) : option relpath :=
  locate (cwd app) (bundle args) (wrapper_file args).

Definition wrapper_entry (args : FunctionArgs) : string :=
  Posix.join [Posix.dir (Posix.parse (handler args));
              newHandlerName +:+ "." +:+ newHandlerFunction].

(** The bundle once [wrapHandler] has run on it, and the place of the
    archive. *)
Definition wrapped (app : App) (args : FunctionArgs) (b : node) : node :=
  bundleDir (snd (wrapHandler app args (fresh_world b))).

Definition zip_path (app : App) (name : string) : string :=
  PosixResolve.resolve (cwd app) [paths_temp app; name; "code.zip"].

(** A place for a file: real directories all the way, and at the end no
    entry yet or a regular file. *)
Fixpoint plain_slot (n : node) (p : relpath) {struct p} : bool :=
  match p with
  | [] => false
  | s :: rest =>
      match n with
      | Dir es =>
          match lookup_entry s es, rest with
          | None, [] => true
          | Some (File _), [] => true
          | Some c, _ :: _ => plain_slot c rest
          | _, _ => false
          end
      | _ => false
      end
  end.

(** ** [HandlerSpec]

    The handler as the specification describes it: a directory, a module
    name and an exported symbol, written [dir/module.symbol] in
    [FunctionArgs]. *)

Record HandlerSpec := {
  entry_directory : string;
  module_name : string;
  exported_symbol : string;
  spec_streaming : bool;
  spec_injections : list string
}.

Definition is_empty (s : string) : bool :=
  match s with EmptyString => true | String _ _ => false end.

Definition entry_prefix (dir : string) : string :=
  if is_empty dir then "" else dir +:+ "/".

Definition entry_reference (s : HandlerSpec) : string :=
  entry_prefix (entry_directory s) +:+ module_name s +:+ "." +:+ exported_symbol s.

Definition free_of (c : ascii) (s : string) : bool :=
  List.forallb (fun x => negb (Ascii.eqb x c)) (list_ascii_of_string s).

(** A module name is one path component, a symbol is an identifier. *)
Definition well_formed (s : HandlerSpec) : bool :=
  negb (is_empty (module_name s)) && free_of "/" (module_name s)
  && negb (is_empty (exported_symbol s)) && free_of "/" (exported_symbol s)
  && free_of "." (exported_symbol s).

Definition args_of (bundle : string) (s : HandlerSpec) : FunctionArgs :=
  {| bundle := bundle; bundleHash := None; handler := entry_reference s;
     environment := None; policies := []; streaming := Some (spec_streaming s);
     injections := Some (spec_injections s); region := None; runtimeConfig := [] |}.

(** A character that is neither a slash nor a dot. *)
Definition plain_char (c : ascii) : Prop :=
  Posix.is_slash c = false /\ Posix.is_dot c = false.

(** The two shapes of the generated module. *)
Definition wrapper_header (streaming : bool) : string :=
  if streaming
  then "export const handler = awslambda.streamifyResponse(async (event, context) => {"
  else "export const handler = async (event, context) => {".

Definition wrapper_footer (streaming : bool) : string :=
  if streaming then "});" else "};".

Definition wrapper_import (symbol module : string) : string :=
  "  const { " +:+ symbol +:+ ": rawHandler} = await import("
    +:+ dquote +:+ "./" +:+ module +:+ ".mjs" +:+ dquote +:+ ");".

Definition wrapper_return : string := "  return rawHandler(event, context);".

(** ** The Artifact Publisher *)

Record ArtifactLocation := {
  loc_bucket : string;
  loc_key : string
}.

Definition artifact_location (file : BucketObject) : ArtifactLocation :=
  {| loc_bucket := object_bucket file; loc_key := object_key file |}.

(** Modelled from the spec: the bucket the declarative engine uploads to,
    which is not part of the component's source; the objects by bucket and
    key, and the number of uploads made. *)
Record ObjectStore := {
  objects : gmap (string * string) string;
  uploads : nat
}.

(** Modelled from the spec: the upload of a declared bucket object, done
    by the declarative engine and not by the component's source.
    Section 4.4: the publisher computes the key, checks whether an object
    already exists at that key, uploads when there is none, and returns
    the location. *)
Definition publish (file : BucketObject) (s : ObjectStore)
  : ArtifactLocation * ObjectStore :=
  let loc := artifact_location file in
  match objects s !! (loc_bucket loc, loc_key loc) with
  | Some _ => (loc, s)
  | None =>
      (loc, {| objects := <[(loc_bucket loc, loc_key loc) := object_source file]> (objects s);
               uploads := S (uploads s) |})
  end.

(** ** The life of a function resource *)

(** Modelled from the spec: what can happen to a function resource after
    its creation (sections 3 and 4.6); neither the engine's updates nor
    the code push are part of the given source. *)
Inductive LifecycleStep : Type :=
| DeclarativeUpdate (handler : string) (environment config : list (string * string))
| CodeUpdate (loc : ArtifactLocation).

(** Modelled from the spec: the declarative engine's update and the code
    push of [FunctionCodeUpdater] (function-code-updater.js, not part of
    the given source).  Sections 3 and 4.6: a declarative update applies
    the metadata fields and leaves the code reference out of the
    comparison; the code reference is overwritten only by the Code Update
    Controller, with the artifact location. *)
Definition lifecycle_step (fn : LambdaFunction) (s : LifecycleStep) : LambdaFunction :=
  match s with
  | DeclarativeUpdate h e c =>
      {| fn_name := fn_name fn; fn_provider := fn_provider fn;
         fn_code := fn_code fn; fn_role := fn_role fn;
         fn_handler := h; fn_environment := e; fn_config := c |}
  | CodeUpdate loc =>
      {| fn_name := fn_name fn; fn_provider := fn_provider fn;
         fn_code := Some (S3Object (loc_bucket loc) (loc_key loc));
         fn_role := fn_role fn; fn_handler := fn_handler fn;
         fn_environment := fn_environment fn; fn_config := fn_config fn |}
  end.

Definition lifecycle (fn : LambdaFunction) (steps : list LifecycleStep) : LambdaFunction :=
  List.fold_left lifecycle_step steps fn.

(** ** The Code Update Controller

    [FunctionCodeUpdater] lives in function-code-updater.js, which is not
    part of the given source: the controller below follows sections 3,
    4.7, 5 and 6 of the specification.  Waiting times and back-off delays
    are not represented; an interleaving is a list of calls. *)

(** Modelled from the spec: the two kinds of failure of section 7. *)
Inductive Failure : Type := retryable | fatal.

(** Modelled from the spec: the states of a job (function-code-updater.js
    is missing), sections 3 and 4.7:
    [Pending -> AwaitingResourceActive -> Applying -> Verifying -> Done | Failed]. *)
Inductive JobStatus : Type :=
| Pending
| AwaitingResourceActive
| Applying
| Verifying
| Done
| Failed (f : Failure).

(** Modelled from the spec: the job record of section 3 (function name,
    artifact location, region, status, attempt count, last-applied hash),
    with the hash of the artifact it pushes. *)
Record CodeUpdateJob := {
  job_functionName : string;
  job_location : ArtifactLocation;
  job_region : option string;
  job_hash : string;
  job_lastApplied : option string;
  job_status : JobStatus;
  job_attempts : nat
}.

(** Modelled from the spec: a change of status; [Done] records the
    applied hash as the job's result (section 4.7). *)
Definition set_status (j : CodeUpdateJob) (s : JobStatus) (attempts : nat) : CodeUpdateJob :=
  {| job_functionName := job_functionName j; job_location := job_location j;
     job_region := job_region j; job_hash := job_hash j;
     job_lastApplied := match s with Done => Some (job_hash j) | _ => job_lastApplied j end;
     job_status := s; job_attempts := attempts |}.

(** Modelled from the spec: the provider's view of a function resource
    (section 6): initialising or active, an update in progress or not. *)
Inductive ResourceState : Type := Initializing | Active.
Inductive LastUpdateStatus : Type := InProgress | Successful.

Record FunctionResource := {
  res_fn : LambdaFunction;
  res_state : ResourceState;
  res_lastUpdate : LastUpdateStatus
}.

(** Modelled from the spec: the controller's world (sections 3 and 5):
    the provider's resources by function name, the jobs, the named locks
    keyed by function name with the job that holds each, and the fixed
    maximum of attempts. *)
Record Controller := {
  cloud : gmap string FunctionResource;
  jobs : list CodeUpdateJob;
  locks : gmap string nat;
  maxAttempts : nat
}.

Definition with_cloud (c : Controller) (cl : gmap string FunctionResource) : Controller :=
  {| cloud := cl; jobs := jobs c; locks := locks c; maxAttempts := maxAttempts c |}.

Definition with_job (c : Controller) (i : nat) (j : CodeUpdateJob) : Controller :=
  {| cloud := cloud c; jobs := <[i := j]> (jobs c); locks := locks c;
     maxAttempts := maxAttempts c |}.

Definition acquire (c : Controller) (f : string) (i : nat) : Controller :=
  {| cloud := cloud c; jobs := jobs c; locks := <[f := i]> (locks c);
     maxAttempts := maxAttempts c |}.

Definition release (c : Controller) (f : string) : Controller :=
  {| cloud := cloud c; jobs := jobs c; locks := delete f (locks c);
     maxAttempts := maxAttempts c |}.

(** Modelled from the spec: the provider call "point code at artifact
    location" (section 6), rejected while the resource is not active or
    another update is applying. *)
Definition update_function_code (r : FunctionResource) (loc : ArtifactLocation)
  : option FunctionResource :=
  match res_state r, res_lastUpdate r with
  | Active, Successful =>
      Some {| res_fn := lifecycle_step (res_fn r) (CodeUpdate loc);
              res_state := Active; res_lastUpdate := InProgress |}
  | _, _ => None
  end.

(** Modelled from the spec: a bounded retry (section 4.7); exhausting the
    attempts ends the job and releases the lock. *)
Definition retry (c : Controller) (i : nat) (j : CodeUpdateJob) (f : Failure) : Controller :=
  if (maxAttempts c <=? S (job_attempts j))%nat
  then release (with_job c i (set_status j (Failed f) (S (job_attempts j))))
               (job_functionName j)
  else with_job c i (set_status j (job_status j) (S (job_attempts j))).

(** Modelled from the spec: one call of job [i] of the missing
    function-code-updater.js, after section 4.7.  A pending job whose hash
    is the last applied one is done at once; otherwise it takes the lock
    of its function name, or waits for it.  It then polls until the
    resource is active, pushes the location (a conflict is retried), and
    polls until the update is applied; it releases the lock when it
    ends. *)
Definition job_step (i : nat) (c : Controller) : Controller :=
  match jobs c !! i with
  | None => c
  | Some j =>
      let f := job_functionName j in
      match job_status j with
      | Pending =>
          if bool_decide (job_lastApplied j = Some (job_hash j))
          then with_job c i (set_status j Done 0)
          else match locks c !! f with
               | Some _ => c
               | None => acquire (with_job c i (set_status j AwaitingResourceActive 0)) f i
               end
      | AwaitingResourceActive =>
          match cloud c !! f with
          | None => release (with_job c i (set_status j (Failed fatal) (job_attempts j))) f
          | Some r =>
              match res_state r with
              | Active => with_job c i (set_status j Applying 0)
              | Initializing => retry c i j fatal
              end
          end
      | Applying =>
          match cloud c !! f with
          | None => release (with_job c i (set_status j (Failed fatal) (job_attempts j))) f
          | Some r =>
              match update_function_code r (job_location j) with
              | Some r' =>
                  with_cloud (with_job c i (set_status j Verifying 0)) (<[f := r']> (cloud c))
              | None => retry c i j fatal
              end
          end
      | Verifying =>
          match cloud c !! f with
          | None => release (with_job c i (set_status j (Failed fatal) (job_attempts j))) f
          | Some r =>
              match res_lastUpdate r with
              | Successful => release (with_job c i (set_status j Done 0)) f
              | InProgress => retry c i j retryable
              end
          end
      | Done => c
      | Failed _ => c
      end
  end.

(** Modelled from the spec: what happens besides the jobs (sections 4.6
    and 4.7): the provider finishes an initialisation or an update, or the
    declarative engine applies a metadata update of its own, rejected
    while the resource is busy. *)
Inductive Action : Type :=
| StepJob (i : nat)
| ProviderTick (f : string)
| EngineUpdate (f : string) (handler : string) (environment config : list (string * string)).

Definition provider_tick (r : FunctionResource) : FunctionResource :=
  {| res_fn := res_fn r; res_state := Active; res_lastUpdate := Successful |}.

Definition engine_update (r : FunctionResource) (h : string)
    (e cfg : list (string * string)) : FunctionResource :=
  match res_state r, res_lastUpdate r with
  | Active, Successful =>
      {| res_fn := lifecycle_step (res_fn r) (DeclarativeUpdate h e cfg);
         res_state := Active; res_lastUpdate := InProgress |}
  | _, _ => r
  end.

(** Modelled from the spec: one event of an interleaving. *)
Definition act (c : Controller) (a : Action) : Controller :=
  match a with
  | StepJob i => job_step i c
  | ProviderTick f =>
      match cloud c !! f with
      | Some r => with_cloud c (<[f := provider_tick r]> (cloud c))
      | None => c
      end
  | EngineUpdate f h e cfg =>
      match cloud c !! f with
      | Some r => with_cloud c (<[f := engine_update r h e cfg]> (cloud c))
      | None => c
      end
  end.

Definition run (schedule : list Action) (c : Controller) : Controller :=
  List.fold_left act schedule c.

(** The job [updateFunctionCode] asks for, and the resource
    [createFunction] leaves behind. *)
Definition job_of (u : FunctionCodeUpdaterArgs) (hash : string) : CodeUpdateJob :=
  {| job_functionName := updater_functionName u;
     job_location := {| loc_bucket := updater_s3Bucket u; loc_key := updater_s3Key u |};
     job_region := updater_region u;
     job_hash := hash;
     job_lastApplied := None;
     job_status := Pending;
     job_attempts := 0 |}.

Definition created (fn : LambdaFunction) : FunctionResource :=
  {| res_fn := fn; res_state := Initializing; res_lastUpdate := Successful |}.

Definition after_deploy (app : App) (d : Deployed) (attempts : nat) : Controller :=
  {| cloud := {[ physical_name app (fn_name (d_fn d)) := created (d_fn d) ]};
     jobs := [job_of (d_updater d) (d_bundleHash d)];
     locks := ∅;
     maxAttempts := attempts |}.

Definition in_flight (s : JobStatus) : bool :=
  match s with
  | AwaitingResourceActive | Applying | Verifying => true
  | _ => false
  end.

Definition code_of (c : Controller) (f : string) : option Code :=
  match cloud c !! f with
  | Some r => fn_code (res_fn r)
  | None => None
  end.

(** What one call of job [i] can do to its status, to the provider's
    resources and to the locks. *)
Inductive transition (c : Controller) (i : nat) (j : CodeUpdateJob)
  : JobStatus -> gmap string FunctionResource -> gmap string nat -> Prop :=
| t_unchanged :
    job_status j = Pending ->
    job_lastApplied j = Some (job_hash j) ->
    transition c i j Done (cloud c) (locks c)
| t_acquire :
    job_status j = Pending ->
    job_lastApplied j <> Some (job_hash j) ->
    locks c !! job_functionName j = None ->
    transition c i j AwaitingResourceActive (cloud c)
      (<[job_functionName j := i]> (locks c))
| t_retry :
    in_flight (job_status j) = true ->
    transition c i j (job_status j) (cloud c) (locks c)
| t_active :
    job_status j = AwaitingResourceActive ->
    transition c i j Applying (cloud c) (locks c)
| t_accepted r r' :
    job_status j = Applying ->
    cloud c !! job_functionName j = Some r ->
    update_function_code r (job_location j) = Some r' ->
    transition c i j Verifying (<[job_functionName j := r']> (cloud c)) (locks c)
| t_applied r :
    job_status j = Verifying ->
    cloud c !! job_functionName j = Some r ->
    res_lastUpdate r = Successful ->
    transition c i j Done (cloud c) (delete (job_functionName j) (locks c))
| t_failed f :
    in_flight (job_status j) = true ->
    transition c i j (Failed f) (cloud c) (delete (job_functionName j) (locks c)).

(** A job in flight holds the lock of its function name. *)
Definition holds_lock (c : Controller) : Prop :=
  forall i j,
    jobs c !! i = Some j -> in_flight (job_status j) = true ->
    locks c !! job_functionName j = Some i.

(** The jobs for function [f] push location [loc]: none of them has
    applied anything before it starts, and once one of them verifies or
    is done the resource points at [loc]. *)
Definition pushes (f : string) (loc : ArtifactLocation) (c : Controller) : Prop :=
  forall i j,
    jobs c !! i = Some j -> job_functionName j = f ->
    job_location j = loc
    /\ (job_status j = Pending -> job_lastApplied j = None)
    /\ (job_status j = Verifying \/ job_status j = Done ->
        code_of c f = Some (S3Object (loc_bucket loc) (loc_key loc))).

(** ** The generated module, read as a program

    What the function exported by the generated module does when it is
    invoked, as far as its text decides it: the statements of its body,
    in order.  The body holds the snippets, the dynamic import that binds
    [rawHandler], and the return of the call of [rawHandler].  What a
    snippet does is JavaScript's business, and is given by an engine: a
    snippet completes, leaves the function, or throws. *)

Inductive Statement : Type :=
| Inject (src : string)
| BindRawHandler (symbol module : string)
| ReturnRawHandler.

Record Program := {
  prog_streaming : bool;
  prog_body : list Statement
}.

Definition render_statement (st : Statement) : string :=
  match st with
  | Inject src => src
  | BindRawHandler symbol module => wrapper_import symbol module
  | ReturnRawHandler => wrapper_return
  end.

Definition render (p : Program) : string :=
  String.concat newline
    ([wrapper_header (prog_streaming p)]
     ++ List.map render_statement (prog_body p)
     ++ [wrapper_footer (prog_streaming p)]).

Definition wrapper_program (s : HandlerSpec) : Program :=
  {| prog_streaming := spec_streaming s;
     prog_body :=
       List.map Inject (spec_injections s)
       ++ [BindRawHandler (exported_symbol s) (module_name s); ReturnRawHandler] |}.

Inductive Outcome : Type := Completes | Leaves | Throws.

(** The steps of an invocation: a snippet run, the handler module loaded,
    the handler called with the parameters of the exported function, its
    result handed back; or the function left before that. *)
Inductive Step : Type :=
| Ran (src : string)
| Loaded (specifier : string)
| Called (symbol : string) (arguments : list string)
| Forwarded
| LeftEarly
| Threw.

Fixpoint exec (engine : string -> Outcome) (rawHandler : option string)
    (body : list Statement) : list Step :=
  match body with
  | [] => []
  | Inject src :: rest =>
      match engine src with
      | Completes => Ran src :: exec engine rawHandler rest
      | Leaves => [Ran src; LeftEarly]
      | Throws => [Ran src; Threw]
      end
  | BindRawHandler symbol module :: rest =>
      Loaded ("./" +:+ module +:+ ".mjs") :: exec engine (Some symbol) rest
  | ReturnRawHandler :: _ =>
      match rawHandler with
      | Some symbol => [Called symbol ["event"; "context"]; Forwarded]
      | None => [Threw]
      end
  end.

Definition invoke (engine : string -> Outcome) (p : Program) : list Step :=
  exec engine None (prog_body p).

(** An engine that knows one thing of JavaScript: a snippet that is a
    [return] statement leaves the function. *)
Fixpoint skip_spaces (s : string) : string :=
  match s with
  | String " "%char s' => skip_spaces s'
  | _ => s
  end.

Definition returns_at_once (src : string) : Outcome :=
  if String.prefix "return" (skip_spaces src) then Leaves else Completes.

(** ** Sample inputs *)

Definition sample_app : App :=
  {| cwd := "/work";
     paths_temp := "/work/.sst/temp";
     aws_region := "us-east-1";
     bootstrap_forRegion := fun r => "sst-asset-" +:+ r;
     physical_name := fun n => n +:+ "-a1b2c3";
     role_arn := fun n => "arn:aws:iam::123456789012:role/" +:+ n |}.

Definition sample_args : FunctionArgs :=
  {| bundle := "/work/dist"; bundleHash := None; handler := "index.handler";
     environment := None; policies := []; streaming := None;
     injections := Some ["  console.log(1);"]; region := None;
     runtimeConfig := [("runtime", "nodejs18.x")] |}.

Definition with_bundleHash (a : FunctionArgs) (h : option string) : FunctionArgs :=
  {| bundle := bundle a; bundleHash := h; handler := handler a;
     environment := environment a; policies := policies a;
     streaming := streaming a; injections := injections a; region := region a;
     runtimeConfig := runtimeConfig a |}.

Definition with_injections (a : FunctionArgs) (i : option (list string)) : FunctionArgs :=
  {| bundle := bundle a; bundleHash := bundleHash a; handler := handler a;
     environment := environment a; policies := policies a;
     streaming := streaming a; injections := i; region := region a;
     runtimeConfig := runtimeConfig a |}.

Definition with_handler (a : FunctionArgs) (h : string) : FunctionArgs :=
  {| bundle := bundle a; bundleHash := bundleHash a; handler := h;
     environment := environment a; policies := policies a;
     streaming := streaming a; injections := injections a; region := region a;
     runtimeConfig := runtimeConfig a |}.

Definition bundle_index : node := Dir [("index.mjs", File "export const handler = 1;")].

Definition bundle_a : node := Dir [("a.js", File "1")].
Definition bundle_b : node := Dir [("b.js", File "1")].
Definition bundle_ab : node := Dir [("a.js", File "1"); ("b.js", File "2")].
Definition bundle_ba : node := Dir [("b.js", File "2"); ("a.js", File "1")].

Definition bundle_link (target : bytes) : node :=
  Dir [("a.js", File "1"); ("data.json", Symlink (Some (File target)))].

(** A deploy of [bundle_index] with one injection, the write landing
    before the first read of the hash. *)
Definition sample_deploy : Declared * World :=
  Function_constructor sample_app "MyFunction" sample_args 0 (fresh_world bundle_index).

Definition bundle_src : node :=
  Dir [("src", Dir [("index.mjs", File "export const handler = 1;");
                    ("other.mjs", File "export const main = 2;")])].

Definition sample_spec (streaming : bool) (snippets : list string) : HandlerSpec :=
  {| entry_directory := "src"; module_name := "index"; exported_symbol := "handler";
     spec_streaming := streaming; spec_injections := snippets |}.

Definition other_spec : HandlerSpec :=
  {| entry_directory := "src"; module_name := "other"; exported_symbol := "main";
     spec_streaming := true; spec_injections := ["  trace();"] |}.

Definition empty_store : ObjectStore := {| objects := ∅; uploads := 0 |}.

Definition sample_file (hash : string) : BucketObject :=
  createBucketObject sample_app "MyFunction" sample_args hash
    "/work/.sst/temp/MyFunction/code.zip".

(** The same deploy with a hash supplied by the caller. *)
Definition sample_supplied : Declared * World :=
  Function_constructor sample_app "MyFunction"
    (with_bundleHash sample_args (Some "0123abcd")) 0 (fresh_world bundle_index).

Definition sample_deployed : Deployed :=
  deployed_of sample_app "MyFunction" sample_args
    "c7e6c54013e9f658b18e0cdbce189dcbc02a70ecfd31474de1628c503fa144d8"
    "server-index.handler"
    "/work/.sst/temp/MyFunction/code.zip".

(** The calls of one job against a freshly created function: the lock,
    a poll that finds the resource initialising, the push, a poll that
    finds the update in progress, the poll that finds it applied. *)
Definition sample_function : string := "MyFunction-function-a1b2c3".

Definition sample_schedule : list Action :=
  [StepJob 0; StepJob 0; ProviderTick sample_function; StepJob 0; StepJob 0;
   StepJob 0; ProviderTick sample_function; StepJob 0].

Definition sample_job : CodeUpdateJob :=
  job_of (d_updater sample_deployed) (d_bundleHash sample_deployed).

(** Two deploys of the same function, with different content. *)
Definition second_job : CodeUpdateJob :=
  job_of (d_updater (deployed_of sample_app "MyFunction" sample_args "0123abcd"
                       "server-index.handler" "/work/.sst/temp/MyFunction/code.zip"))
    "0123abcd".

Definition two_deploys : Controller :=
  {| cloud := {[ sample_function := created (d_fn sample_deployed) ]};
     jobs := [sample_job; second_job];
     locks := ∅;
     maxAttempts := 3 |}.

Definition racing_schedule : list Action :=
  [StepJob 0; StepJob 1; ProviderTick sample_function; StepJob 0; StepJob 1].

(** ** The component object

    What the constructor leaves in [this], the [aws] getter and
    [getConstructMetadata] (lines 174-175 and 325-345).  [missingSourcemap]
    is declared and never assigned.  [arn] and [urn] are outputs the
    engine resolves; the component is taken once its function is
    registered. *)

Record EngineOutputs := {
  function_arn : string -> string;
  component_urn : string -> string
}.

Record FunctionComponent := {
  this_function : LambdaFunction;
  this_role : Role;
  this_missingSourcemap : option bool;
  this_urn : string
}.

Definition new_Function (app : App) (o : EngineOutputs) (name : string)
    (args : FunctionArgs) (landed : nat)
  : World -> Output FunctionComponent * World :=
  fun w =>
    let '(c, w') := Function_constructor app name args landed w in
    (match c_fn c with
     | inr fn =>
         inr {| this_function := fn; this_role := c_role c;
                this_missingSourcemap := None;
                this_urn := component_urn o name |}
     | inl e => inl e
     end, w').

Definition aws (this : FunctionComponent) : LambdaFunction * Role :=
  (this_function this, this_role this).

Record ConstructMetadata := {
  meta_type : string;
  meta_arn : string;
  meta_runtime : option string;
  meta_handler : string;
  meta_missingSourcemap : option bool;
  meta_localId : string;
  meta_secrets : list string
}.

Definition assoc (k : string) (l : list (string * string)) : option string :=
  match List.find (fun e => String.eqb (fst e) k) l with
  | Some e => Some (snd e)
  | None => None
  end.

Definition getConstructMetadata (o : EngineOutputs) (this : FunctionComponent)
  : ConstructMetadata :=
  {| meta_type := "Function";
     meta_arn := function_arn o (fn_name (this_function this));
     meta_runtime := assoc "runtime" (fn_config (this_function this));
     meta_handler := fn_handler (this_function this);
     meta_missingSourcemap :=
       match this_missingSourcemap this with
       | Some true => Some true
       | _ => None
       end;
     meta_localId := this_urn this;
     meta_secrets := [] |}.

(** The logical names of the five resources one component declares. *)
Definition logical_names (d : Deployed) : list string :=
  [provider_name (d_provider d); role_name (d_role d); object_name (d_file d);
   fn_name (d_fn d); updater_name (d_updater d)].

(** ** Views of a bundle *)



(** The content of the regular file at a path that goes through real
    directories only. *)
Fixpoint plain_file (n : node) (p : relpath) {struct p} : option bytes :=
  match p with
  | [] => None
  | s :: rest =>
      match n with
      | Dir es =>
          match lookup_entry s es, rest with
          | Some (File c), [] => Some c
          | Some child, _ :: _ => plain_file child rest
          | _, _ => None
          end
      | _ => None
      end
  end.

Definition is_hex_char (c : ascii) : bool :=
  List.existsb (Ascii.eqb c) (list_ascii_of_string "0123456789abcdef").

Definition all_chars (f : ascii -> bool) (s : string) : bool :=
  List.forallb f (list_ascii_of_string s).

(** A bundle with dependencies, a dotfile and a nested dependency
    directory. *)
Definition bundle_deps (dep : bytes) : node :=
  Dir [("index.mjs", File "export const handler = 1;");
       (".env", File "A=1");
       ("node_modules", Dir [("pg", Dir [("index.js", File dep)])]);
       ("lib", Dir [("util.mjs", File "export {};");
                    ("node_modules", Dir [("x.js", File dep)])])].

(** A bundle with a link whose target is gone. *)
Definition bundle_dangling : node :=
  Dir [("a.js", File "1"); ("gone", Symlink None); ("b.js", File "2")].

Definition sample_outputs : EngineOutputs :=
  {| function_arn := fun n => "arn:aws:lambda:us-east-1:123456789012:function:" +:+ n;
     component_urn := fun n => "urn:pulumi:dev::app::sst:sst:Function::" +:+ n |}.

(** The sample arguments without injections, and with a handler that
    has no dot. *)
Definition plain_args : FunctionArgs := with_injections sample_args None.

Definition dotless_args : FunctionArgs := with_handler sample_args "index".

Definition plain_deploy : Declared * World :=
  Function_constructor sample_app "MyFunction" plain_args 0
    (fresh_world (bundle_deps "v1")).

(** The component object the sample deploy leaves. *)
Definition sample_component : FunctionComponent :=
  {| this_function := d_fn sample_deployed; this_role := d_role sample_deployed;
     this_missingSourcemap := None;
     this_urn := component_urn sample_outputs "MyFunction" |}.

(** A component name that is one path component. *)
Definition plain_name (n : string) : bool :=
  negb (is_empty n) && free_of "/" n
  && negb (String.eqb n ".") && negb (String.eqb n "..").

(** A bundle whose handler sits in a directory that is a real directory. *)
Definition original_module (s : HandlerSpec) : string := module_name s +:+ ".mjs".

Definition self_spec : HandlerSpec :=
  {| entry_directory := "src"; module_name := "server-index";
     exported_symbol := "handler"; spec_streaming := false;
     spec_injections := ["  a();"] |}.

Definition bundle_self : node :=
  Dir [("src", Dir [("server-index.mjs", File "export const handler = 1;");
                    ("util.mjs", File "export {};")])].

(** A deploy whose handler module already has the name of the wrapper,
    and a handler that leaves the bundle and comes back. *)
Definition self_args : FunctionArgs := args_of "/work/dist" self_spec.

Definition roundabout_args : FunctionArgs :=
  with_handler sample_args "../dist/src/index.handler".

(** A deploy with a supplied hash whose handler directory does not
    exist in the bundle. *)
Definition rejected_supplied : Declared * World :=
  Function_constructor sample_app "MyFunction"
    (with_handler (with_bundleHash sample_args (Some "0123abcd")) "missing/index.handler")
    0 (fresh_world bundle_index).

(** A bundle with a link to a directory that holds a link to a file. *)
Definition bundle_links (target : bytes) : node :=
  Dir [("a.js", File "1");
       ("data", Symlink (Some (Dir [("cfg.json", Symlink (Some (File target)))])))].


(* ================================================================== *)
(** * Properties *)
(* ================================================================== *)

(** Known answers (FIPS 180-4 test vectors). *)
Example sha256_empty :
  sha256_hex "" = "e3b0c44298fc1c149afbf4c8996fb92427ae41e4649b934ca495991b7852b855".
Proof. vm_compute. reflexivity. Qed.

Example sha256_abc :
  sha256_hex "abc" = "ba7816bf8f01cfea414140de5dae2223b00361a396177a9cb410ff61f20015ad".
Proof. vm_compute. reflexivity. Qed.

Example sha256_two_blocks :
  sha256_hex "abcdbcdecdefdefgefghfghighijhijkijkljklmklmnlmnomnopnopq"
  = "248d6a61d20638b8e5c026930c3e6039a33ce45964ff2167f6ecedd419db06c1".
Proof. vm_compute. reflexivity. Qed.

Example parse_index_handler :
  Posix.parse "index.handler"
  = {| Posix.root := ""; Posix.dir := ""; Posix.base := "index.handler";
       Posix.ext := ".handler"; Posix.name := "index" |}.
Proof. reflexivity. Qed.

Example parse_nested_handler :
  Posix.parse "packages/api/src/index.main"
  = {| Posix.root := ""; Posix.dir := "packages/api/src"; Posix.base := "index.main";
       Posix.ext := ".main"; Posix.name := "index" |}.
Proof. reflexivity. Qed.

Example parse_dotfile :
  Posix.parse "/home/user/.bashrc"
  = {| Posix.root := "/"; Posix.dir := "/home/user"; Posix.base := ".bashrc";
       Posix.ext := ""; Posix.name := ".bashrc" |}.
Proof. reflexivity. Qed.

Example join_examples :
  Posix.join [""; "server-index.handler"] = "server-index.handler"
  /\ Posix.join ["src"; "server-index.handler"] = "src/server-index.handler"
  /\ Posix.join ["./src//api"; "server-index.handler"] = "src/api/server-index.handler"
  /\ Posix.join ["a/../b"; "server-index.handler"] = "b/server-index.handler".
Proof. repeat split; reflexivity. Qed.

Example resolve_zip_path :
  PosixResolve.resolve "/work" ["/work/.sst/temp"; "MyFunction"; "code.zip"]
  = "/work/.sst/temp/MyFunction/code.zip".
Proof. reflexivity. Qed.
(** ** Strings *)

Lemma append_cons (c : ascii) (s t : string) : String c s +:+ t = String c (s +:+ t).
Proof. reflexivity. Qed.

Lemma append_nil_l (s : string) : "" +:+ s = s.
Proof. reflexivity. Qed.

Lemma append_nil_r (s : string) : s +:+ "" = s.
Proof.
  induction s as [| c s IH]; [reflexivity |].
  rewrite append_cons, IH. reflexivity.
Qed.

Lemma append_assoc (s t u : string) : (s +:+ t) +:+ u = s +:+ (t +:+ u).
Proof.
  induction s as [| c s IH]; [reflexivity |].
  rewrite !append_cons, IH. reflexivity.
Qed.

Lemma append_length (s t : string) :
  String.length (s +:+ t) = (String.length s + String.length t)%nat.
Proof.
  induction s as [| c s IH]; [reflexivity |].
  rewrite append_cons. simpl. rewrite IH. reflexivity.
Qed.

Lemma append_inv_head (s t u : string) : s +:+ t = s +:+ u -> t = u.
Proof.
  induction s as [| c s IH]; intros H.
  - exact H.
  - rewrite !append_cons in H. injection H as H. apply IH. exact H.
Qed.

Lemma append_inv_tail (s t u : string) : s +:+ u = t +:+ u -> s = t.
Proof.
  revert t. induction s as [| c s IH]; intros [| d t] H.
  - reflexivity.
  - exfalso. apply (f_equal String.length) in H.
    rewrite append_nil_l, append_length in H. simpl in H. lia.
  - exfalso. apply (f_equal String.length) in H.
    rewrite append_nil_l, append_length in H. simpl in H. lia.
  - rewrite !append_cons in H. injection H as -> H. f_equal. apply IH. exact H.
Qed.

Lemma concat_empty_cons (c : string) (cs : list string) :
  String.concat "" (c :: cs) = c +:+ String.concat "" cs.
Proof.
  destruct cs as [| c' cs]; simpl.
  - rewrite append_nil_r. reflexivity.
  - reflexivity.
Qed.

(** ** Path resolution *)


Lemma resolve_app (n : node) :
  forall p q,
    resolve n (p ++ q)
    = match resolve n p with Some m => resolve m q | None => None end.
Proof.
  induction n as [c | es IH | | t IH] using node_induction; intros p q.
  - destruct p as [| s p]; simpl.
    + destruct q; reflexivity.
    + reflexivity.
  - destruct p as [| s p]; simpl.
    + reflexivity.
    + induction IH as [| e es' He _ IHes]; simpl.
      * reflexivity.
      * destruct (String.eqb (fst e) s); [apply He | apply IHes].
  - simpl. destruct (p ++ q); destruct p; reflexivity.
  - simpl. apply IH.
Qed.

Lemma resolve_real (n m : node) :
  realnode n = Some m -> forall q, resolve n q = resolve m q.
Proof.
  induction n as [c | es _ | | t IH] using node_induction; simpl; intros H q.
  - injection H as <-. reflexivity.
  - injection H as <-. reflexivity.
  - discriminate.
  - apply IH. exact H.
Qed.

(** Looking a name up in a directory finds the entry that carries it. *)
Lemma resolve_entry (es : list (string * node)) (e : string * node) (rest : relpath) :
  NoDup (List.map fst es) -> In e es ->
  resolve (Dir es) (fst e :: rest) = resolve (snd e) rest.
Proof.
  simpl. induction es as [| e' es IH]; intros Hnd Hin.
  - destruct Hin.
  - simpl in Hnd. apply NoDup_cons in Hnd as [Hnotin Hnd].
    destruct Hin as [-> | Hin].
    + rewrite String.eqb_refl. reflexivity.
    + destruct (String.eqb (fst e') (fst e)) eqn:E.
      * apply String.eqb_eq in E. exfalso. apply Hnotin.
        rewrite E. apply list_elem_of_In. apply in_map. exact Hin.
      * apply IH; assumption.
Qed.

(** ** Listings: the order of [readdir] *)

Lemma compare_same : String_as_OT.compare = String.compare.
Proof. reflexivity. Qed.

Lemma leb_refl (a : string) : String.leb a a = true.
Proof.
  destruct (String.leb_total a a) as [H | H]; exact H.
Qed.

Lemma leb_trans (a b c : string) :
  String.leb a b = true -> String.leb b c = true -> String.leb a c = true.
Proof.
  unfold String.leb. rewrite <- !compare_same.
  destruct (String_as_OT.compare_spec a b) as [E1 | L1 | G1]; try discriminate;
    intros _;
    destruct (String_as_OT.compare_spec b c) as [E2 | L2 | G2]; try discriminate;
    intros _; unfold String_as_OT.eq in *; subst.
  - destruct (String_as_OT.compare_spec c c) as [E | L | G]; try reflexivity.
    exfalso. exact (StrictOrder_Irreflexive c G).
  - unfold String_as_OT.lt in L2. rewrite L2. reflexivity.
  - unfold String_as_OT.lt in L1. rewrite L1. reflexivity.
  - assert (H : String_as_OT.lt a c) by (etransitivity; eassumption).
    unfold String_as_OT.lt in H. rewrite H. reflexivity.
Qed.

Lemma leb_flip (a b : string) : String.leb a b = false -> String.leb b a = true.
Proof.
  intros H. destruct (String.leb_total a b) as [H' | H']; [congruence | exact H'].
Qed.

Section Listings.

Context {A : Type}.

Lemma insert_perm (e : string * A) (l : list (string * A)) :
  Permutation (insert_by_name e l) (e :: l).
Proof.
  induction l as [| x l IH]; cbn [insert_by_name]; [reflexivity |].
  destruct (String.leb (fst e) (fst x)); [reflexivity |].
  rewrite IH. apply perm_swap.
Qed.

Lemma sort_perm (l : list (string * A)) : Permutation (sort_by_name l) l.
Proof.
  induction l as [| e l IH]; cbn [sort_by_name]; [reflexivity |].
  rewrite insert_perm, IH. reflexivity.
Qed.

Lemma readdir_In (x : string * A) (l : list (string * A)) :
  In x (readdir l) <-> In x l.
Proof.
  unfold readdir. split; apply Permutation_in;
    [apply sort_perm | symmetry; apply sort_perm].
Qed.

Lemma children_In (x : string * A) (l : list (string * A)) :
  In x (children l) <-> In x l.
Proof.
  unfold children. rewrite <- List.in_rev. apply readdir_In.
Qed.

Lemma insert_sorted (e : string * A) (l : list (string * A)) :
  StronglySorted name_le l -> StronglySorted name_le (insert_by_name e l).
Proof.
  induction l as [| x l IH]; intros Hs; cbn [insert_by_name].
  - constructor; constructor.
  - destruct (String.leb (fst e) (fst x)) eqn:E.
    + constructor; [exact Hs |].
      apply StronglySorted_inv in Hs as [_ Hx].
      constructor; [exact E |].
      rewrite List.Forall_forall in Hx |- *. intros y Hy.
      unfold name_le in *. exact (leb_trans _ _ _ E (Hx y Hy)).
    + apply StronglySorted_inv in Hs as [Hs Hx].
      constructor; [exact (IH Hs) |].
      rewrite List.Forall_forall in Hx |- *. intros y Hy.
      apply (Permutation_in _ (insert_perm e l)) in Hy as [<- | Hy].
      * exact (leb_flip _ _ E).
      * exact (Hx y Hy).
Qed.

Lemma sort_sorted (l : list (string * A)) : StronglySorted name_le (sort_by_name l).
Proof.
  induction l as [| e l IH]; cbn [sort_by_name]; [constructor |].
  apply insert_sorted, IH.
Qed.

Lemma insert_first (e : string * A) (l : list (string * A)) :
  Forall (name_le e) l -> insert_by_name e l = e :: l.
Proof.
  destruct l as [| x l]; [reflexivity |]. intros H.
  apply Forall_cons in H as [H _]. cbn [insert_by_name].
  unfold name_le in H. rewrite H. reflexivity.
Qed.

Lemma sort_of_sorted (l : list (string * A)) :
  StronglySorted name_le l -> sort_by_name l = l.
Proof.
  induction l as [| e l IH]; intros Hs; [reflexivity |].
  apply StronglySorted_inv in Hs as [Hs He].
  cbn [sort_by_name]. rewrite (IH Hs). apply insert_first, He.
Qed.

Lemma sort_idempotent (l : list (string * A)) :
  sort_by_name (sort_by_name l) = sort_by_name l.
Proof. apply sort_of_sorted, sort_sorted. Qed.

(** One sorted listing per set of entries with distinct names. *)
Lemma sorted_unique (l1 : list (string * A)) :
  forall l2,
    StronglySorted name_le l1 -> StronglySorted name_le l2 ->
    NoDup (List.map fst l1) -> Permutation l1 l2 -> l1 = l2.
Proof.
  induction l1 as [| x l1 IH]; intros l2 H1 H2 Hn Hp.
  - apply Permutation_nil in Hp. subst. reflexivity.
  - destruct l2 as [| y l2];
      [apply Permutation_sym, Permutation_nil in Hp; discriminate |].
    apply StronglySorted_inv in H1 as [H1 Hx].
    apply StronglySorted_inv in H2 as [H2 Hy].
    assert (Hxy : x = y).
    { assert (Hin : In y (x :: l1))
        by (apply (Permutation_in _ (Permutation_sym Hp)); left; reflexivity).
      destruct Hin as [Hin | Hin]; [exact Hin |].
      assert (Hin' : In x (y :: l2))
        by (apply (Permutation_in _ Hp); left; reflexivity).
      destruct Hin' as [Hin' | Hin']; [symmetry; exact Hin' |].
      rewrite List.Forall_forall in Hx, Hy.
      pose proof (String.leb_antisym _ _ (Hx y Hin) (Hy x Hin')) as Hk.
      exfalso. cbn [List.map] in Hn. apply NoDup_cons in Hn as [Hn _].
      apply Hn. rewrite Hk. apply list_elem_of_In, List.in_map. exact Hin. }
    subst y. f_equal. apply IH; [exact H1 | exact H2 | |].
    + cbn [List.map] in Hn. apply NoDup_cons in Hn as [_ Hn]. exact Hn.
    + apply Permutation_cons_inv in Hp. exact Hp.
Qed.

Lemma sort_permuted (l1 l2 : list (string * A)) :
  NoDup (List.map fst l1) -> Permutation l1 l2 ->
  sort_by_name l1 = sort_by_name l2.
Proof.
  intros Hn Hp. apply sorted_unique; try apply sort_sorted.
  - rewrite sort_perm. exact Hn.
  - rewrite !sort_perm. exact Hp.
Qed.

End Listings.

(** Sorting looks at the names only: rows with the same names, related
    one by one, are still so once sorted. *)
Lemma insert_related {A B : Type} (R : string * A -> string * B -> Prop)
    (HR : forall x y, R x y -> fst x = fst y)
    (e : string * A) (e' : string * B) (l : list (string * A)) :
  forall l', R e e' -> Forall2 R l l' ->
    Forall2 R (insert_by_name e l) (insert_by_name e' l').
Proof.
  induction l as [| x l IH]; intros l' He Hl.
  - apply Forall2_nil_inv_l in Hl. subst l'. cbn. constructor; [exact He | constructor].
  - apply Forall2_cons_inv_l in Hl as (y & l'' & Hxy & Hl & ->).
    cbn [insert_by_name]. rewrite <- (HR _ _ He), <- (HR _ _ Hxy).
    destruct (String.leb (fst e) (fst x)).
    + constructor; [exact He |]. constructor; [exact Hxy | exact Hl].
    + constructor; [exact Hxy |]. apply IH; assumption.
Qed.

Lemma sort_related {A B : Type} (R : string * A -> string * B -> Prop)
    (HR : forall x y, R x y -> fst x = fst y) (l : list (string * A)) :
  forall l', Forall2 R l l' -> Forall2 R (sort_by_name l) (sort_by_name l').
Proof.
  induction l as [| x l IH]; intros l' Hl.
  - apply Forall2_nil_inv_l in Hl. subst l'. constructor.
  - apply Forall2_cons_inv_l in Hl as (y & l'' & Hxy & Hl & ->).
    cbn [sort_by_name]. apply (insert_related R HR); [exact Hxy | apply IH, Hl].
Qed.

Lemma sort_map {A B : Type} (f : string * A -> B) (l : list (string * A)) :
  sort_by_name (List.map (fun e => (fst e, f e)) l)
  = List.map (fun e => (fst e, f e)) (sort_by_name l).
Proof.
  assert (H : Forall2 (fun x y => y = (fst x, f x))
                (sort_by_name l)
                (sort_by_name (List.map (fun e => (fst e, f e)) l))).
  { apply (sort_related (fun x y => y = (fst x, f x))).
    - intros x y ->. reflexivity.
    - induction l as [| x l IH]; constructor; [reflexivity | exact IH]. }
  revert H. generalize (sort_by_name l), (sort_by_name (List.map (fun e => (fst e, f e)) l)).
  intros l1. induction l1 as [| x l1 IH]; intros l2 H.
  - apply Forall2_nil_inv_l in H. subst. reflexivity.
  - apply Forall2_cons_inv_l in H as (y & l2' & -> & H & ->).
    cbn [List.map]. f_equal. apply IH, H.
Qed.

Lemma children_map {A B : Type} (f : string * A -> B) (l : list (string * A)) :
  children (List.map (fun e => (fst e, f e)) l)
  = List.map (fun e => (fst e, f e)) (children l).
Proof.
  unfold children, readdir. rewrite sort_map, List.map_rev. reflexivity.
Qed.

(** ** The walks, unfolded *)

Lemma flat_map_map {A B C : Type} (f : A -> B) (g : B -> list C) (l : list A) :
  List.flat_map g (List.map f l) = List.flat_map (fun x => g (f x)) l.
Proof.
  induction l as [| x l IH]; [reflexivity |]. cbn. rewrite IH. reflexivity.
Qed.

Lemma flat_map_ext_in {A B : Type} (f g : A -> list B) (l : list A) :
  (forall x, In x l -> f x = g x) -> List.flat_map f l = List.flat_map g l.
Proof.
  induction l as [| x l IH]; intros H; [reflexivity |].
  cbn. rewrite (H x) by (left; reflexivity).
  rewrite IH; [reflexivity |]. intros y Hy. apply H. right. exact Hy.
Qed.

Lemma glob_walk_dir (o : GlobOptions) (prefix : relpath) (es : list (string * node)) :
  glob_walk o prefix (Dir es)
  = List.flat_map (matched o prefix) (children es)
    ++ List.flat_map
         (fun e => if visible o (fst e)
                   then glob_walk o (prefix ++ [fst e]) (snd e) else [])
         (children es).
Proof.
  cbn [glob_walk].
  rewrite (children_map
             (fun e => (matched o prefix e,
                        if visible o (fst e)
                        then glob_walk o (prefix ++ [fst e]) (snd e) else []))).
  rewrite !flat_map_map. reflexivity.
Qed.

Lemma archive_walk_dir (prefix : relpath) (es : list (string * node)) :
  archive_walk prefix (Dir es)
  = List.flat_map
      (fun e => (prefix ++ [fst e], zip_entry (snd e))
                :: archive_walk (prefix ++ [fst e]) (snd e))
      (readdir es).
Proof.
  cbn [archive_walk]. unfold readdir.
  rewrite (sort_map
             (fun e => (prefix ++ [fst e], zip_entry (snd e))
                       :: archive_walk (prefix ++ [fst e]) (snd e))).
  rewrite flat_map_map. reflexivity.
Qed.

Lemma in_name_order_dir (es : list (string * node)) :
  in_name_order (Dir es)
  = Dir (List.map (fun e => (fst e, in_name_order (snd e))) (sort_by_name es)).
Proof.
  cbn [in_name_order]. rewrite (sort_map (fun e => in_name_order (snd e))). reflexivity.
Qed.

Lemma unique_names_dir (es : list (string * node)) :
  unique_names (Dir es) = true ->
  NoDup (List.map fst es) /\ Forall (fun e => unique_names (snd e) = true) es.
Proof.
  cbn [unique_names]. intros H. apply andb_prop in H as [H1 H2]. split.
  - apply bool_decide_eq_true in H1. exact H1.
  - apply List.Forall_forall. rewrite List.forallb_forall in H2. exact H2.
Qed.

Lemma unique_names_intro (es : list (string * node)) :
  NoDup (List.map fst es) -> Forall (fun e => unique_names (snd e) = true) es ->
  unique_names (Dir es) = true.
Proof.
  intros H1 H2. cbn [unique_names]. apply andb_true_intro. split.
  - apply bool_decide_eq_true. exact H1.
  - apply List.forallb_forall. rewrite List.Forall_forall in H2. exact H2.
Qed.

(** ** Directory entries, first match first *)

Lemma resolve_cons (es : list (string * node)) (s : string) (rest : relpath) :
  resolve (Dir es) (s :: rest)
  = match lookup_entry s es with
    | Some c => resolve c rest
    | None => None
    end.
Proof.
  cbn [resolve]. unfold lookup_entry.
  induction es as [| e es IH]; [reflexivity |].
  cbn [List.find]. destruct (String.eqb (fst e) s); [reflexivity | exact IH].
Qed.

Lemma resolve_error_cons (es : list (string * node)) (s : string) (rest : relpath) :
  resolve_error (Dir es) (s :: rest)
  = match lookup_entry s es with
    | Some c => resolve_error c rest
    | None => ENOENT
    end.
Proof.
  cbn [resolve_error]. unfold lookup_entry.
  induction es as [| e es IH]; [reflexivity |].
  cbn [List.find]. destruct (String.eqb (fst e) s); [reflexivity | exact IH].
Qed.

Lemma lookup_entry_In (s : string) (es : list (string * node)) (c : node) :
  lookup_entry s es = Some c -> In (s, c) es.
Proof.
  unfold lookup_entry. destruct (List.find _ es) as [e |] eqn:E; [| discriminate].
  intros H. injection H as <-. apply List.find_some in E as [Hin Hs].
  apply String.eqb_eq in Hs. subst s. destruct e. exact Hin.
Qed.

Lemma lookup_entry_unique (s : string) (es : list (string * node)) (c : node) :
  NoDup (List.map fst es) -> In (s, c) es -> lookup_entry s es = Some c.
Proof.
  unfold lookup_entry. induction es as [| e es IH]; intros Hn Hin; [contradiction |].
  cbn [List.map] in Hn. apply NoDup_cons in Hn as [Hfresh Hn].
  cbn [List.find]. destruct Hin as [-> | Hin].
  - cbn [fst]. rewrite String.eqb_refl. reflexivity.
  - destruct (String.eqb (fst e) s) eqn:E.
    + apply String.eqb_eq in E. exfalso. apply Hfresh.
      apply list_elem_of_In. rewrite E.
      change s with (fst (s, c)). apply List.in_map. exact Hin.
    + apply IH; assumption.
Qed.

Lemma lookup_entry_absent (s : string) (es : list (string * node)) :
  ~ In s (List.map fst es) -> lookup_entry s es = None.
Proof.
  unfold lookup_entry. intros H.
  destruct (List.find _ es) as [e |] eqn:E; [| reflexivity].
  apply List.find_some in E as [Hin Hs]. apply String.eqb_eq in Hs.
  exfalso. apply H. rewrite <- Hs. apply List.in_map. exact Hin.
Qed.

Lemma lookup_entry_names (s : string) (es : list (string * node)) :
  lookup_entry s es = None -> ~ In s (List.map fst es).
Proof.
  unfold lookup_entry. intros H Hin.
  apply List.in_map_iff in Hin as (e & He & Hin).
  destruct (List.find _ es) as [x |] eqn:E; [discriminate |].
  apply (List.find_none _ _ E) in Hin. rewrite He, String.eqb_refl in Hin. discriminate.
Qed.

(** With distinct names, a lookup sees the entries, not their order. *)
Lemma lookup_entry_perm (s : string) (es es' : list (string * node)) :
  NoDup (List.map fst es) -> Permutation es es' ->
  lookup_entry s es' = lookup_entry s es.
Proof.
  intros Hn Hp.
  assert (Hn' : NoDup (List.map fst es')) by (rewrite <- Hp; exact Hn).
  destruct (lookup_entry s es) as [c |] eqn:E.
  - apply lookup_entry_unique; [exact Hn' |].
    apply (Permutation_in _ Hp). apply lookup_entry_In. exact E.
  - apply lookup_entry_absent. intros Hin. apply (lookup_entry_names _ _ E).
    apply (Permutation_in (l := List.map fst es')); [| exact Hin].
    apply Permutation_map. symmetry. exact Hp.
Qed.

(** ** The hashing loop *)

Lemma add_events_nil (w : World) : add_events w [] = w.
Proof. destruct w; unfold add_events; simpl. rewrite List.app_nil_r. reflexivity. Qed.

Lemma add_events_app (w : World) (e1 e2 : list Event) :
  add_events (add_events w e1) e2 = add_events w (e1 ++ e2).
Proof. unfold add_events; simpl. rewrite <- List.app_assoc. reflexivity. Qed.

Lemma fs_readFile_run (path : string) (p : relpath) (w : World) :
  fs_readFile path p w
  = (match readFile (bundleDir w) p with
     | inr data => inr data
     | inl c => inl {| err_code := c; err_path := path |}
     end, add_events w [EvReadFile p]).
Proof.
  unfold fs_readFile, bind, emit, get_bundle. cbn [add_events bundleDir].
  destruct (readFile (bundleDir w) p); reflexivity.
Qed.

Section Hashing.

Variable app : App.
Variable args : FunctionArgs.

Lemma hash_files_cons (h : Hash) (p : relpath) (paths : list relpath) (w : World) :
  hash_files app args h (p :: paths) w
  = match readFile (bundleDir w) p with
    | inr data =>
        hash_files app args (update h data) paths (add_events w [EvReadFile p])
    | inl c =>
        (inl {| err_code := c;
                err_path := PosixResolve.resolve (cwd app) [bundle args; show_path p] |},
         add_events w [EvReadFile p])
    end.
Proof.
  cbn [hash_files]. unfold bind. rewrite fs_readFile_run.
  destruct (readFile (bundleDir w) p); reflexivity.
Qed.

Lemma hash_files_app (ps1 ps2 : list relpath) :
  forall (h : Hash) (w : World),
    hash_files app args h (ps1 ++ ps2) w
    = match hash_files app args h ps1 w with
      | (inr h', w') => hash_files app args h' ps2 w'
      | (inl e, w') => (inl e, w')
      end.
Proof.
  induction ps1 as [| p ps1 IH]; intros h w; [reflexivity |].
  change ((p :: ps1) ++ ps2) with (p :: (ps1 ++ ps2)).
  rewrite !hash_files_cons.
  destruct (readFile (bundleDir w) p); [reflexivity | apply IH].
Qed.

(** The loop leaves the bundle and the temporary files alone, and records
    one read for each file it gets to. *)
Lemma hash_files_world (paths : list relpath) :
  forall (h : Hash) (w : World),
    exists n,
      snd (hash_files app args h paths w)
      = add_events w (List.map EvReadFile (List.firstn n paths)).
Proof.
  induction paths as [| p paths IH]; intros h w.
  - exists 0%nat. cbn. rewrite add_events_nil. reflexivity.
  - rewrite hash_files_cons. destruct (readFile (bundleDir w) p) as [c | data].
    + exists 1%nat. reflexivity.
    + destruct (IH (update h data) (add_events w [EvReadFile p])) as [n Hn].
      exists (S n). rewrite Hn, add_events_app. reflexivity.
Qed.

Lemma hash_files_bundle (paths : list relpath) (h : Hash) (w : World) :
  bundleDir (snd (hash_files app args h paths w)) = bundleDir w
  /\ tempFiles (snd (hash_files app args h paths w)) = tempFiles w.
Proof.
  destruct (hash_files_world paths h w) as [n ->]. split; reflexivity.
Qed.

(** Its result depends on what the reads find, and on nothing else. *)
Lemma hash_files_ext (paths : list relpath) :
  forall (h : Hash) (w1 w2 : World),
    (forall p, In p paths -> readFile (bundleDir w1) p = readFile (bundleDir w2) p) ->
    fst (hash_files app args h paths w1) = fst (hash_files app args h paths w2).
Proof.
  induction paths as [| p paths IH]; intros h w1 w2 H; [reflexivity |].
  rewrite !hash_files_cons. rewrite <- (H p) by (left; reflexivity).
  destruct (readFile (bundleDir w1) p) as [c | data]; [reflexivity |].
  apply IH. intros q Hq. cbn [add_events bundleDir]. apply H. right. exact Hq.
Qed.

Lemma hash_files_ok (paths : list relpath) :
  forall (s : bytes) (h : Hash) (w : World),
    contents (bundleDir w) paths = Some s ->
    hash_files app args h paths w
    = (inr {| absorbed := absorbed h +:+ s |},
       add_events w (List.map EvReadFile paths)).
Proof.
  induction paths as [| p paths IH]; intros s h w H.
  - injection H as <-. cbn. unfold ret.
    rewrite add_events_nil, append_nil_r. destruct h; reflexivity.
  - cbn [contents] in H. rewrite hash_files_cons.
    destruct (readFile (bundleDir w) p) as [c | data]; [discriminate |].
    destruct (contents (bundleDir w) paths) as [s' |] eqn:E; [| discriminate].
    injection H as <-.
    rewrite (IH s' (update h data) (add_events w [EvReadFile p]) E).
    rewrite add_events_app. unfold update. cbn [absorbed].
    rewrite append_assoc. reflexivity.
Qed.

(** A read that fails rejects with its own error, after the reads before
    it and before any other. *)
Lemma hash_files_fails (ps1 ps2 : list relpath) (p : relpath) (c : ErrorCode) :
  forall (s : bytes) (h : Hash) (w : World),
    contents (bundleDir w) ps1 = Some s ->
    readFile (bundleDir w) p = inl c ->
    hash_files app args h (ps1 ++ p :: ps2) w
    = (inl {| err_code := c;
              err_path := PosixResolve.resolve (cwd app) [bundle args; show_path p] |},
       add_events w (List.map EvReadFile (ps1 ++ [p]))).
Proof.
  intros s h w Hs Hp. rewrite hash_files_app, (hash_files_ok ps1 s h w Hs).
  rewrite hash_files_cons. cbn [add_events bundleDir]. rewrite Hp.
  rewrite add_events_app, List.map_app. reflexivity.
Qed.

(** [calculateHash], run. *)
Lemma calculateHash_run (w : World) :
  calculateHash app args w
  = (match fst (hash_files app args createHash
                  (globSync hash_glob_options (bundleDir w)) (add_events w [EvGlobSync])) with
     | inr h => inr (digest h)
     | inl e => inl e
     end,
     snd (hash_files app args createHash
            (globSync hash_glob_options (bundleDir w)) (add_events w [EvGlobSync]))).
Proof.
  unfold calculateHash, bind, get_bundle, emit.
  destruct (hash_files _ _ _ _ _) as [[e | h] w1]; reflexivity.
Qed.

Lemma calculateHash_world (w : World) :
  bundleDir (snd (calculateHash app args w)) = bundleDir w
  /\ tempFiles (snd (calculateHash app args w)) = tempFiles w.
Proof.
  rewrite calculateHash_run. cbn [snd].
  destruct (hash_files_bundle (globSync hash_glob_options (bundleDir w)) createHash
              (add_events w [EvGlobSync])) as [H1 H2].
  split; [exact H1 | exact H2].
Qed.

(** The hash of a world is the hash of its bundle: the calls recorded
    and the files under the temporary directory play no part. *)
Lemma calculateHash_hash_of (w : World) :
  fst (calculateHash app args w) = hash_of app args (bundleDir w).
Proof.
  unfold hash_of. rewrite !calculateHash_run. cbn [fst].
  change (bundleDir (fresh_world (bundleDir w))) with (bundleDir w).
  rewrite (hash_files_ext (globSync hash_glob_options (bundleDir w)) createHash
             (add_events w [EvGlobSync])
             (add_events (fresh_world (bundleDir w)) [EvGlobSync]));
    [reflexivity | intros; reflexivity].
Qed.

Lemma hash_of_run (b : node) :
  hash_of app args b
  = match fst (hash_files app args createHash
                 (globSync hash_glob_options b) (fresh_world b)) with
    | inr h => inr (digest h)
    | inl e => inl e
    end.
Proof.
  unfold hash_of. rewrite calculateHash_run. cbn [fst].
  change (bundleDir (fresh_world b)) with b.
  rewrite (hash_files_ext (globSync hash_glob_options b) createHash
             (add_events (fresh_world b) [EvGlobSync]) (fresh_world b));
    [reflexivity | intros; reflexivity].
Qed.

Lemma hash_of_hashed_bytes (b : node) (s : bytes) :
  hashed_bytes b = Some s -> hash_of app args b = inr (sha256_hex s).
Proof.
  intros H. rewrite hash_of_run.
  rewrite (hash_files_ok _ s createHash (fresh_world b) H). cbn [fst].
  unfold digest, createHash. cbn [absorbed]. rewrite append_nil_l. reflexivity.
Qed.

(** Two bundles that list the same paths and give the same reads have
    the same hash. *)
Lemma hash_of_ext (b1 b2 : node) :
  globSync hash_glob_options b1 = globSync hash_glob_options b2 ->
  (forall p, In p (globSync hash_glob_options b1) -> readFile b1 p = readFile b2 p) ->
  hash_of app args b1 = hash_of app args b2.
Proof.
  intros Hg Hr. rewrite !hash_of_run, <- Hg.
  rewrite (hash_files_ext _ createHash (fresh_world b1) (fresh_world b2) Hr).
  reflexivity.
Qed.

(** The hash cut in two, on a bundle that does not change in between. *)
Lemma hash_mixed_same (n : nat) (b b' : node) :
  (forall p, In p (List.skipn n (globSync hash_glob_options b)) ->
             readFile b' p = readFile b p) ->
  hash_mixed app args n b b' = hash_of app args b.
Proof.
  intros H. rewrite hash_of_run.
  rewrite <- (List.firstn_skipn n (globSync hash_glob_options b)).
  rewrite hash_files_app. unfold hash_mixed. cbv zeta.
  destruct (hash_files app args createHash
              (List.firstn n (globSync hash_glob_options b)) (fresh_world b))
    as [[e | h] w1] eqn:E; cbn [fst]; [reflexivity |].
  rewrite (hash_files_ext _ h (fresh_world b') w1); [reflexivity |].
  intros p Hp. cbn [fresh_world bundleDir].
  pose proof (hash_files_bundle (List.firstn n (globSync hash_glob_options b))
                createHash (fresh_world b)) as [Hb _].
  rewrite E in Hb. cbn [snd fresh_world bundleDir] in Hb. rewrite Hb.
  apply H, Hp.
Qed.


End Hashing.

(** ** The order of creation plays no part *)

Lemma realnode_in_name_order (n : node) :
  realnode (in_name_order n)
  = match realnode n with Some m => Some (in_name_order m) | None => None end.
Proof.
  induction n as [c | es _ | | t IH] using node_induction; try reflexivity.
  cbn [in_name_order realnode]. exact IH.
Qed.

Lemma realnode_real (n m : node) :
  realnode n = Some m -> (exists c, m = File c) \/ (exists es, m = Dir es).
Proof.
  induction n as [c | es _ | | t IH] using node_induction; cbn [realnode]; intros H.
  - injection H as <-. left. eauto.
  - injection H as <-. right. eauto.
  - discriminate.
  - exact (IH H).
Qed.

Lemma is_directory_in_name_order (o : GlobOptions) (n : node) :
  is_directory o (in_name_order n) = is_directory o n.
Proof.
  destruct n as [c | es | [t |]]; try reflexivity.
  cbn [in_name_order is_directory]. f_equal. cbn [realnode].
  rewrite realnode_in_name_order. destruct (realnode t) as [m |] eqn:Er; [| reflexivity].
  destruct (realnode_real _ _ Er) as [[c ->] | [es ->]]; reflexivity.
Qed.

Lemma glob_walk_in_name_order (o : GlobOptions) (n : node) :
  forall prefix, glob_walk o prefix (in_name_order n) = glob_walk o prefix n.
Proof.
  induction n as [c | es IH | | t IH] using node_induction; intros prefix;
    try reflexivity.
  - rewrite in_name_order_dir, !glob_walk_dir.
    assert (Hc : children (List.map (fun e => (fst e, in_name_order (snd e)))
                             (sort_by_name es))
                 = List.map (fun e => (fst e, in_name_order (snd e))) (children es)).
    { rewrite (children_map (fun e => in_name_order (snd e))).
      unfold children, readdir. rewrite sort_idempotent. reflexivity. }
    rewrite Hc, !flat_map_map. f_equal.
    + apply flat_map_ext_in. intros e _. unfold matched. cbn [fst snd].
      rewrite is_directory_in_name_order. reflexivity.
    + apply flat_map_ext_in. intros e He. cbn [fst snd].
      destruct (visible o (fst e)); [| reflexivity].
      rewrite List.Forall_forall in IH. apply IH.
      exact (proj1 (children_In e es) He).
  - cbn [in_name_order glob_walk]. destruct (follow o); [apply IH | reflexivity].
Qed.

Lemma lookup_entry_map (f : node -> node) (s : string) (es : list (string * node)) :
  lookup_entry s (List.map (fun e => (fst e, f (snd e))) es)
  = match lookup_entry s es with Some c => Some (f c) | None => None end.
Proof.
  unfold lookup_entry. induction es as [| e es IH]; [reflexivity |].
  cbn [List.map List.find fst]. destruct (String.eqb (fst e) s); [reflexivity | exact IH].
Qed.

Lemma lookup_in_name_order (s : string) (es : list (string * node)) :
  NoDup (List.map fst es) ->
  lookup_entry s (List.map (fun e => (fst e, in_name_order (snd e))) (sort_by_name es))
  = match lookup_entry s es with Some c => Some (in_name_order c) | None => None end.
Proof.
  intros Hn. rewrite lookup_entry_map.
  rewrite (lookup_entry_perm s es (sort_by_name es) Hn); [reflexivity |].
  symmetry. apply sort_perm.
Qed.

Lemma resolve_in_name_order (n : node) :
  unique_names n = true ->
  forall p,
    resolve (in_name_order n) p
    = match resolve n p with Some m => Some (in_name_order m) | None => None end
    /\ resolve_error (in_name_order n) p = resolve_error n p.
Proof.
  induction n as [c | es IH | | t IH] using node_induction; intros Hu p.
  - destruct p; split; reflexivity.
  - destruct (unique_names_dir es Hu) as [Hn Hall].
    destruct p as [| s rest]; [split; reflexivity |].
    rewrite in_name_order_dir, !resolve_cons, !resolve_error_cons.
    rewrite (lookup_in_name_order s es Hn).
    destruct (lookup_entry s es) as [c |] eqn:El; [| split; reflexivity].
    apply lookup_entry_In in El.
    rewrite List.Forall_forall in IH, Hall.
    exact (IH (s, c) El (Hall (s, c) El) rest).
  - split; reflexivity.
  - cbn [in_name_order resolve resolve_error]. apply IH. exact Hu.
Qed.

Lemma readFile_in_name_order (n : node) (p : relpath) :
  unique_names n = true -> readFile (in_name_order n) p = readFile n p.
Proof.
  intros Hu. unfold readFile.
  destruct (resolve_in_name_order n Hu p) as [-> ->].
  destruct (resolve n p) as [[c | es | t] |]; try reflexivity.
  destruct t; reflexivity.
Qed.

Lemma hash_of_in_name_order (app : App) (args : FunctionArgs) (b : node) :
  unique_names b = true ->
  hash_of app args (in_name_order b) = hash_of app args b.
Proof.
  intros Hu. apply hash_of_ext.
  - apply glob_walk_in_name_order.
  - intros p _. apply readFile_in_name_order. exact Hu.
Qed.

(** Entries created in another order give the same tree in name order. *)
Lemma in_name_order_permuted (es1 es2 : list (string * node)) :
  NoDup (List.map fst es1) -> Permutation es1 es2 ->
  in_name_order (Dir es1) = in_name_order (Dir es2).
Proof.
  intros Hn Hp. cbn [in_name_order]. f_equal. apply sort_permuted.
  - rewrite List.map_map. cbn [fst]. exact Hn.
  - apply Permutation_map. exact Hp.
Qed.

(** ** C1: what the content hash depends on *)

(** C1, as stated, fails on the code.  [calculateHash] feeds only file
    contents to the digest: a bundle whose single file is renamed with
    unchanged content has different (relative path, content) pairs and
    the same hash.  The contents are not put in the order of the relative
    paths either: [globSync] lists [b.js] before [a.js]. *)
Lemma C1_a_renamed_file_keeps_the_hash :
  (~ (forall x, In x (bundle_pairs bundle_a) <-> In x (bundle_pairs bundle_b))
   /\ hash_of sample_app sample_args bundle_a = hash_of sample_app sample_args bundle_b)
  /\ globSync hash_glob_options bundle_ab = [["b.js"]; ["a.js"]]
  /\ hash_of sample_app sample_args bundle_ab = inr (sha256_hex "21").
Proof.
  split; [split |].
  - intros H. destruct (H (["a.js"], "1")) as [H1 _].
    assert (Hin : In (["a.js"], "1") (bundle_pairs bundle_a)) by (left; reflexivity).
    specialize (H1 Hin). vm_compute in H1.
    destruct H1 as [H1 | []]. discriminate H1.
  - vm_compute. reflexivity.
  - split; vm_compute; reflexivity.
Qed.

(** C1, amended: the content hash is the SHA-256 digest, in hexadecimal,
    of the contents of the non-ignored files under the bundle root put
    end to end in the order [globSync] lists them.  That order depends on
    the names alone: two bundles that hold the same entries hash
    identically, whatever the order the entries were created in.
    Relative paths are not hashed: two bundles whose listings read the
    same bytes hash identically, whatever their files are called. *)
Theorem C1_hash_is_digest_of_contents_whatever_the_creation_order
    (app : App) (args : FunctionArgs) (b1 b2 : node) :
  unique_names b1 = true ->
  unique_names b2 = true ->
  (forall s, hashed_bytes b1 = Some s -> hash_of app args b1 = inr (sha256_hex s))
  /\ (in_name_order b1 = in_name_order b2 -> hash_of app args b1 = hash_of app args b2)
  /\ (forall es1 es2, b1 = Dir es1 -> b2 = Dir es2 -> Permutation es1 es2 ->
        hash_of app args b1 = hash_of app args b2)
  /\ (forall s, hashed_bytes b1 = Some s -> hashed_bytes b2 = Some s ->
        hash_of app args b2 = hash_of app args b1).
Proof.
  intros Hu1 Hu2.
  assert (Horder : in_name_order b1 = in_name_order b2 ->
                   hash_of app args b1 = hash_of app args b2).
  { intros H. rewrite <- (hash_of_in_name_order app args b1 Hu1), H.
    apply hash_of_in_name_order, Hu2. }
  split; [intros s; apply hash_of_hashed_bytes |]. split; [exact Horder |]. split.
  - intros es1 es2 -> -> Hp. apply Horder.
    apply in_name_order_permuted; [| exact Hp].
    apply (unique_names_dir es1 Hu1).
  - intros s H1 H2.
    rewrite (hash_of_hashed_bytes app args b1 s H1), (hash_of_hashed_bytes app args b2 s H2).
    reflexivity.
Qed.

Lemma C1_hash_is_digest_witness :
  hash_of sample_app sample_args bundle_ab = inr (sha256_hex "21")
  /\ hash_of sample_app sample_args bundle_ab = hash_of sample_app sample_args bundle_ba
  /\ hash_of sample_app sample_args bundle_b = hash_of sample_app sample_args bundle_a.
Proof.
  pose proof (C1_hash_is_digest_of_contents_whatever_the_creation_order
                sample_app sample_args bundle_ab bundle_ba eq_refl eq_refl)
    as (Hdigest & Horder & Hperm & _).
  pose proof (C1_hash_is_digest_of_contents_whatever_the_creation_order
                sample_app sample_args bundle_a bundle_b eq_refl eq_refl)
    as (_ & _ & _ & Hbytes).
  split; [exact (Hdigest "21" eq_refl) |].
  split; [| exact (Hbytes "1" eq_refl eq_refl)].
  apply (Hperm [("a.js", File "1"); ("b.js", File "2")]
               [("b.js", File "2"); ("a.js", File "1")] eq_refl eq_refl).
  apply perm_swap.
Defined.

(** The two creation orders of the same two files, hashed. *)
Example calculateHash_of_two_creation_orders :
  hash_of sample_app sample_args bundle_ab = hash_of sample_app sample_args bundle_ba
  /\ in_name_order bundle_ab = in_name_order bundle_ba.
Proof. split; vm_compute; reflexivity. Qed.

(** A read that fails rejects the hash: a dangling link among the matches
    is an error, not an omission. *)
Example calculateHash_dangling_link :
  hash_of sample_app sample_args (Dir [("a.js", File "1"); ("gone", Symlink None)])
  = inl {| err_code := ENOENT; err_path := "/work/dist/gone" |}.
Proof. reflexivity. Qed.

(** File boundaries are not hashed either: [update] is fed the contents
    back to back. *)
Example calculateHash_no_file_boundaries :
  hash_of sample_app sample_args (Dir [("a.js", File "c"); ("b.js", File "ab")])
  = hash_of sample_app sample_args (Dir [("a.js", File "bc"); ("b.js", File "a")]).
Proof. vm_compute. reflexivity. Qed.

(** The directory cache is skipped, dotfiles are read. *)
Example calculateHash_ignores_node_modules :
  globSync hash_glob_options
    (Dir [("index.mjs", File "x");
          ("node_modules", Dir [("dep.js", File "y")]);
          ("lib", Dir [(".env", File "z"); ("node_modules", Dir [("d.js", File "w")])])])
  = [["index.mjs"]; ["lib"; ".env"]].
Proof. reflexivity. Qed.

(** ** Writing into the bundle *)

Lemma lookup_update_same (s : string) (c c' : node) (es : list (string * node)) :
  lookup_entry s es = Some c -> lookup_entry s (update_entry s c' es) = Some c'.
Proof.
  unfold lookup_entry. induction es as [| e es IH]; cbn [List.find update_entry];
    [discriminate |].
  destruct (String.eqb (fst e) s) eqn:E; intros H.
  - cbn [List.find fst]. rewrite E. reflexivity.
  - cbn [List.find]. rewrite E. exact (IH H).
Qed.

Lemma lookup_update_other (s s' : string) (c' : node) (es : list (string * node)) :
  s' <> s -> lookup_entry s' (update_entry s c' es) = lookup_entry s' es.
Proof.
  intros Hne. unfold lookup_entry.
  induction es as [| e es IH]; cbn [List.find update_entry]; [reflexivity |].
  destruct (String.eqb (fst e) s) eqn:E.
  - cbn [List.find fst]. apply String.eqb_eq in E.
    destruct (String.eqb (fst e) s') eqn:E'; [| reflexivity].
    apply String.eqb_eq in E'. congruence.
  - cbn [List.find]. destruct (String.eqb (fst e) s'); [reflexivity | exact IH].
Qed.

Lemma lookup_append (s s' : string) (x : node) (es : list (string * node)) :
  lookup_entry s' (es ++ [(s, x)])
  = match lookup_entry s' es with
    | Some c => Some c
    | None => if String.eqb s s' then Some x else None
    end.
Proof.
  unfold lookup_entry. induction es as [| e es IH]; cbn [app List.find fst].
  - destruct (String.eqb s s'); reflexivity.
  - destruct (String.eqb (fst e) s'); [reflexivity | exact IH].
Qed.

Lemma write_node_cons (es : list (string * node)) (s : string) (rest : relpath)
    (data : bytes) :
  write_node (Dir es) (s :: rest) data
  = match lookup_entry s es with
    | Some c =>
        match write_node c rest data with
        | Some c' => Some (Dir (update_entry s c' es))
        | None => None
        end
    | None =>
        match rest with
        | [] => Some (Dir (es ++ [(s, File data)]))
        | _ :: _ => None
        end
    end.
Proof.
  cbn [write_node].
  match goal with
  | |- match ?u _ with _ => _ end = _ => set (upd := u)
  end.
  assert (E : upd es
              = match lookup_entry s es with
                | Some c =>
                    match write_node c rest data with
                    | Some c' => Some (update_entry s c' es)
                    | None => None
                    end
                | None =>
                    match rest with
                    | [] => Some (es ++ [(s, File data)])
                    | _ :: _ => None
                    end
                end).
  { unfold lookup_entry. induction es as [| e es IH]; cbn [List.find update_entry app].
    - cbn. destruct rest; reflexivity.
    - cbn [upd]. fold upd. destruct (String.eqb (fst e) s) eqn:Es.
      + destruct (write_node (snd e) rest data); reflexivity.
      + rewrite IH. destruct (List.find _ es) as [x |].
        * destruct (write_node (snd x) rest data); reflexivity.
        * destruct rest; reflexivity. }
  rewrite E. destruct (lookup_entry s es) as [c |].
  - destruct (write_node c rest data); reflexivity.
  - destruct rest; reflexivity.
Qed.

Lemma write_error_cons (es : list (string * node)) (s : string) (rest : relpath) :
  write_error (Dir es) (s :: rest)
  = match lookup_entry s es with
    | Some c => write_error c rest
    | None => ENOENT
    end.
Proof.
  cbn [write_error]. unfold lookup_entry.
  induction es as [| e es IH]; [reflexivity |].
  cbn [List.find]. destruct (String.eqb (fst e) s); [reflexivity | exact IH].
Qed.

Lemma readFile_cons (es : list (string * node)) (s : string) (rest : relpath) :
  readFile (Dir es) (s :: rest)
  = match lookup_entry s es with
    | Some c => readFile c rest
    | None => inl ENOENT
    end.
Proof.
  unfold readFile. rewrite resolve_cons, resolve_error_cons.
  destruct (lookup_entry s es); reflexivity.
Qed.

Lemma readFile_link (t : node) (p : relpath) :
  readFile (Symlink (Some t)) p = readFile t p.
Proof. reflexivity. Qed.

Lemma write_then_read (n : node) (data : bytes) :
  forall p n', write_node n p data = Some n' -> readFile n' p = inr data.
Proof.
  induction n as [c | es IH | | t IH] using node_induction; intros p n' H.
  - destruct p; [| discriminate]. injection H as <-. reflexivity.
  - destruct p as [| s rest]; [discriminate |].
    rewrite write_node_cons in H.
    destruct (lookup_entry s es) as [c |] eqn:El.
    + destruct (write_node c rest data) as [c' |] eqn:Ew; [| discriminate].
      injection H as <-. rewrite readFile_cons, (lookup_update_same s c c' es El).
      rewrite List.Forall_forall in IH.
      exact (IH (s, c) (lookup_entry_In _ _ _ El) rest c' Ew).
    + destruct rest; [| discriminate]. injection H as <-.
      rewrite readFile_cons, lookup_append, El, String.eqb_refl. reflexivity.
  - discriminate.
  - cbn [write_node] in H.
    destruct (write_node t p data) as [t' |] eqn:E; [| discriminate].
    injection H as <-. rewrite readFile_link. exact (IH p t' E).
Qed.

(** A write changes what is read at its own path and below it, and
    nothing else. *)
Lemma write_frame (n : node) (data : bytes) :
  forall p n' q,
    write_node n p data = Some n' ->
    (forall r, q <> p ++ r) ->
    readFile n' q = readFile n q.
Proof.
  induction n as [c | es IH | | t IH] using node_induction; intros p n' q H Hq.
  - destruct p; [| discriminate]. exfalso. exact (Hq q eq_refl).
  - destruct p as [| s rest]; [discriminate |].
    rewrite write_node_cons in H.
    destruct q as [| s' rest'].
    + destruct (lookup_entry s es) as [c |].
      * destruct (write_node c rest data); [| discriminate]. injection H as <-. reflexivity.
      * destruct rest; [| discriminate]. injection H as <-. reflexivity.
    + rewrite (readFile_cons es).
      destruct (String.eqb s' s) eqn:Es.
      * apply String.eqb_eq in Es. subst s'.
        destruct (lookup_entry s es) as [c |] eqn:El.
        -- destruct (write_node c rest data) as [c' |] eqn:Ew; [| discriminate].
           injection H as <-. rewrite readFile_cons, (lookup_update_same s c c' es El).
           rewrite List.Forall_forall in IH.
           apply (IH (s, c) (lookup_entry_In _ _ _ El) rest c' rest' Ew).
           intros r Hr. apply (Hq r). cbn [app]. rewrite Hr. reflexivity.
        -- destruct rest; [| discriminate]. exfalso. exact (Hq rest' eq_refl).
      * apply String.eqb_neq in Es.
        destruct (lookup_entry s es) as [c |] eqn:El.
        -- destruct (write_node c rest data) as [c' |]; [| discriminate].
           injection H as <-.
           rewrite readFile_cons, (lookup_update_other s s' c' es Es). reflexivity.
        -- destruct rest; [| discriminate]. injection H as <-.
           rewrite readFile_cons, lookup_append.
           destruct (lookup_entry s' es); [reflexivity |].
           destruct (String.eqb s s') eqn:E; [| reflexivity].
           apply String.eqb_eq in E. congruence.
  - discriminate.
  - cbn [write_node] in H.
    destruct (write_node t p data) as [t' |] eqn:E; [| discriminate].
    injection H as <-. rewrite !readFile_link. exact (IH p t' q E Hq).
Qed.







(** ** The steps of the constructor *)

Lemma wrapHandler_empty (app : App) (args : FunctionArgs) (w : World) :
  args_injections args = [] ->
  wrapHandler app args w = (inr (handler args), w).
Proof. intros H. unfold wrapHandler. rewrite H. reflexivity. Qed.

Lemma wrapHandler_run (app : App) (args : FunctionArgs) (w : World) :
  args_injections args <> [] ->
  wrapHandler app args w
  = match wrapper_path app args with
    | None =>
        (inr (wrapper_entry args), add_events w [EvWriteFile (wrapper_file args)])
    | Some p =>
        match write_node (bundleDir w) p (wrapper_module args) with
        | Some b' =>
            (inr (wrapper_entry args),
             set_bundle (add_events w [EvWriteFile (wrapper_file args)]) b')
        | None =>
            (inl {| err_code := write_error (bundleDir w) p;
                    err_path := wrapper_file args |},
             add_events w [EvWriteFile (wrapper_file args)])
        end
    end.
Proof.
  intros H. unfold wrapHandler.
  destruct (args_injections args) as [| i js] eqn:E; [congruence |].
  cbn [List.length Nat.eqb].
  unfold bind, fs_writeFile, emit, bind, ret, wrapper_path, wrapper_file,
    wrapper_module, wrapper_entry.
  rewrite E.
  destruct (locate (cwd app) (bundle args) _) as [p |]; [| reflexivity].
  cbn [bundleDir add_events].
  destruct (write_node (bundleDir w) p _); reflexivity.
Qed.

(** What [wrapHandler] returns and what it does to the bundle depend on
    the bundle alone. *)
Lemma wrapHandler_effect (app : App) (args : FunctionArgs) (w : World) :
  fst (wrapHandler app args w) = fst (wrapHandler app args (fresh_world (bundleDir w)))
  /\ bundleDir (snd (wrapHandler app args w)) = wrapped app args (bundleDir w)
  /\ tempFiles (snd (wrapHandler app args w)) = tempFiles w
  /\ (events (snd (wrapHandler app args w)) = events w
      \/ events (snd (wrapHandler app args w))
         = events w ++ [EvWriteFile (wrapper_file args)]).
Proof.
  unfold wrapped.
  destruct (args_injections args) as [| i js] eqn:E.
  - rewrite !wrapHandler_empty by exact E. cbn. auto.
  - assert (Hne : args_injections args <> []) by congruence.
    rewrite !wrapHandler_run by exact Hne.
    destruct (wrapper_path app args) as [p |]; cbn [bundleDir fresh_world].
    + destruct (write_node (bundleDir w) p (wrapper_module args)); cbn; auto.
    + cbn. auto.
Qed.

Lemma zipBundleFolder_run (app : App) (name : string) (w : World) :
  zipBundleFolder app name w
  = (inr (zip_path app name),
     {| bundleDir := bundleDir w;
        tempFiles := (zip_path app name, archive_of (bundleDir w)) :: tempFiles w;
        events := (events w ++ [EvMkdir (Posix.dirname (zip_path app name))])
                  ++ archive_reads (archive_of (bundleDir w))
                  ++ [EvArchive (zip_path app name)] |}).
Proof. reflexivity. Qed.

Lemma find_temp_head (zipPath : string) (a : Archive) (b : node)
    (fs : list (string * Archive)) (evs : list Event) :
  find_temp zipPath {| bundleDir := b; tempFiles := (zipPath, a) :: fs; events := evs |}
  = Some a.
Proof. unfold find_temp. cbn. rewrite String.eqb_refl. reflexivity. Qed.

Section Run.

Variable app : App.
Variable name : string.
Variable args : FunctionArgs.

(** The hash the constructor's output resolves to, when it computes one. *)
Lemma constructor_hash (k : nat) (w : World) :
  bundleHash args = None ->
  c_bundleHash (fst (Function_constructor app name args k w))
  = hash_mixed app args k (bundleDir w) (wrapped app args (bundleDir w)).
Proof.
  intros Hn. unfold Function_constructor, hash_mixed. rewrite Hn.
  unfold calculateHash_upto, bind, get_bundle, emit, ret.
  set (L := globSync hash_glob_options (bundleDir w)).
  rewrite (hash_files_ext app args (List.firstn k L) createHash
             (fresh_world (bundleDir w)) (add_events w [EvGlobSync]))
    by reflexivity.
  pose proof (hash_files_bundle app args (List.firstn k L) createHash
                (add_events w [EvGlobSync])) as [Hb _].
  destruct (hash_files app args createHash (List.firstn k L)
              (add_events w [EvGlobSync])) as [[e | h] wa] eqn:E1; cbn [fst snd] in *.
  - destruct (wrapHandler app args wa) as [nh w2].
    rewrite zipBundleFolder_run. reflexivity.
  - pose proof (wrapHandler_effect app args wa) as (_ & Hw & _).
    destruct (wrapHandler app args wa) as [nh w2]. cbn [snd] in Hw.
    unfold calculateHash_from, bind, ret. cbn [fst snd].
    rewrite Hb in Hw. cbn [bundleDir add_events] in Hw.
    rewrite (hash_files_ext app args (List.skipn k L) h
               (fresh_world (wrapped app args (bundleDir w))) w2)
      by (intros; cbn [bundleDir fresh_world]; rewrite Hw; reflexivity).
    destruct (hash_files app args h (List.skipn k L) w2) as [[e | h'] w3];
      rewrite zipBundleFolder_run; reflexivity.
Qed.

Lemma constructor_supplied (k : nat) (w : World) (h : string) :
  bundleHash args = Some h ->
  c_bundleHash (fst (Function_constructor app name args k w)) = inr h.
Proof.
  intros Hs. unfold Function_constructor. rewrite Hs.
  destruct (wrapHandler app args w) as [nh w2].
  rewrite zipBundleFolder_run. reflexivity.
Qed.

(** The other outputs, the bundle and the archive, whichever way the
    hash is obtained. *)
Lemma constructor_run (k : nat) (w : World) :
  let c := fst (Function_constructor app name args k w) in
  let w' := snd (Function_constructor app name args k w) in
  c = declare app name args (c_bundleHash c) (c_newHandler c) (c_zipFile c)
  /\ c_newHandler c = fst (wrapHandler app args (fresh_world (bundleDir w)))
  /\ c_zipFile c = inr (zip_path app name)
  /\ bundleDir w' = wrapped app args (bundleDir w)
  /\ tempFiles w'
     = (zip_path app name, archive_of (wrapped app args (bundleDir w))) :: tempFiles w.
Proof.
  unfold Function_constructor.
  assert (Hgen : forall (w1 : World) (hashing : Output (string + Hash * list relpath)),
            bundleDir w1 = bundleDir w -> tempFiles w1 = tempFiles w ->
            let r :=
              (let '(newHandler, w2) := wrapHandler app args w1 in
               let '(bundleHash, w3) :=
                 match hashing with
                 | inl e => (inl e, w2)
                 | inr (inl h) => (inr h, w2)
                 | inr (inr st) => calculateHash_from app args st w2
                 end in
               let '(zipFile, w4) := zipBundleFolder app name w3 in
               (declare app name args bundleHash newHandler zipFile, w4)) in
            fst r = declare app name args (c_bundleHash (fst r)) (c_newHandler (fst r))
                      (c_zipFile (fst r))
            /\ c_newHandler (fst r)
               = fst (wrapHandler app args (fresh_world (bundleDir w)))
            /\ c_zipFile (fst r) = inr (zip_path app name)
            /\ bundleDir (snd r) = wrapped app args (bundleDir w)
            /\ tempFiles (snd r)
               = (zip_path app name, archive_of (wrapped app args (bundleDir w)))
                   :: tempFiles w).
  { intros w1 hashing Hb Ht.
    pose proof (wrapHandler_effect app args w1) as (Hr & Hw & Hf & _).
    destruct (wrapHandler app args w1) as [nh w2]. cbn [fst snd] in Hr, Hw, Hf.
    rewrite Hb in Hr, Hw. rewrite Ht in Hf.
    assert (Hw3 : forall r3 w3,
              match hashing with
              | inl e => (inl e, w2)
              | inr (inl h) => (inr h, w2)
              | inr (inr st) => calculateHash_from app args st w2
              end = (r3, w3) ->
              bundleDir w3 = bundleDir w2 /\ tempFiles w3 = tempFiles w2).
    { intros r3 w3 H3. destruct hashing as [e | [h | st]].
      - injection H3 as _ <-. auto.
      - injection H3 as _ <-. auto.
      - unfold calculateHash_from, bind, ret in H3.
        pose proof (hash_files_bundle app args (snd st) (fst st) w2) as [H1 H2].
        destruct (hash_files app args (fst st) (snd st) w2) as [[e | h'] wx];
          injection H3 as _ <-; auto. }
    destruct (match hashing with
              | inl e => (inl e, w2)
              | inr (inl h) => (inr h, w2)
              | inr (inr st) => calculateHash_from app args st w2
              end) as [r3 w3] eqn:E3.
    destruct (Hw3 r3 w3 eq_refl) as [H1 H2].
    rewrite zipBundleFolder_run. cbn [fst snd bundleDir tempFiles].
    rewrite H1, H2, Hw, Hf. cbn. rewrite Hr. auto. }
  destruct (bundleHash args) as [h |].
  - exact (Hgen w (inr (inl h)) eq_refl eq_refl).
  - unfold calculateHash_upto, bind, get_bundle, emit, ret.
    set (L := globSync hash_glob_options (bundleDir w)).
    pose proof (hash_files_bundle app args (List.firstn k L) createHash
                  (add_events w [EvGlobSync])) as [Hb Ht].
    destruct (hash_files app args createHash (List.firstn k L)
                (add_events w [EvGlobSync])) as [[e | h] wa]; cbn [fst snd] in *.
    + exact (Hgen wa (inl e) Hb Ht).
    + exact (Hgen wa (inr (inr (h, List.skipn k L))) Hb Ht).
Qed.

Lemma constructor_archive (k : nat) (w : World) :
  find_temp (zip_path app name) (snd (Function_constructor app name args k w))
  = Some (archive_of (wrapped app args (bundleDir w))).
Proof.
  pose proof (constructor_run k w) as (_ & _ & _ & _ & Ht). cbv zeta in Ht.
  unfold find_temp. rewrite Ht. cbn. rewrite String.eqb_refl. reflexivity.
Qed.

End Run.

(** ** What is listed, and where a file can be written *)

Lemma glob_walk_In (o : GlobOptions) (pre q : relpath) (es : list (string * node)) :
  In q (glob_walk o pre (Dir es))
  <-> exists e, In e es
        /\ (In q (matched o pre e)
            \/ (visible o (fst e) = true
                /\ In q (glob_walk o (pre ++ [fst e]) (snd e)))).
Proof.
  rewrite glob_walk_dir, List.in_app_iff, !List.in_flat_map. split.
  - intros [(e & He & Hq) | (e & He & Hq)]; exists e;
      (split; [exact (proj1 (children_In e es) He) |]).
    + left. exact Hq.
    + right. destruct (visible o (fst e)); [split; [reflexivity | exact Hq] | destruct Hq].
  - intros (e & He & [Hq | [Hv Hq]]).
    + left. exists e. split; [exact (proj2 (children_In e es) He) | exact Hq].
    + right. exists e. split; [exact (proj2 (children_In e es) He) |].
      rewrite Hv. exact Hq.
Qed.



Lemma plain_slot_cons (es : list (string * node)) (s : string) (rest : relpath) :
  plain_slot (Dir es) (s :: rest) = true ->
  match lookup_entry s es with
  | None => rest = []
  | Some c =>
      match rest with
      | [] => exists d, c = File d
      | _ :: _ => plain_slot c rest = true
      end
  end.
Proof.
  cbn [plain_slot]. destruct (lookup_entry s es) as [[c | es' | t] |], rest;
    intros H; try reflexivity; try exact H; try discriminate.
  exists c. reflexivity.
Qed.

Lemma plain_slot_dir (n : node) (p : relpath) :
  plain_slot n p = true -> exists es s rest, n = Dir es /\ p = s :: rest.
Proof.
  destruct p as [| s rest]; [discriminate |].
  destruct n as [c | es | t]; try discriminate.
  intros _. exists es, s, rest. auto.
Qed.



Lemma plain_file_step (es : list (string * node)) (s : string) (rest : relpath) :
  plain_file (Dir es) (s :: rest)
  = match lookup_entry s es with
    | None => None
    | Some ch =>
        match rest with
        | [] => match ch with File c => Some c | _ => None end
        | _ :: _ => plain_file ch rest
        end
    end.
Proof.
  cbn [plain_file]. destruct (lookup_entry s es) as [[c | es' | t] |], rest; reflexivity.
Qed.

(** Writing to a place for a file succeeds and leaves the file there. *)
Lemma write_plain_slot (n : node) (data : bytes) :
  forall p, plain_slot n p = true ->
    exists n', write_node n p data = Some n' /\ plain_file n' p = Some data.
Proof.
  induction n as [c | es IH | | t IH] using node_induction;
    intros p Hp; try (destruct p; discriminate).
  destruct p as [| s rest]; [discriminate |].
  apply plain_slot_cons in Hp. rewrite write_node_cons.
  rewrite List.Forall_forall in IH.
  destruct (lookup_entry s es) as [ch |] eqn:El.
  - pose proof (lookup_entry_In _ _ _ El) as Hch.
    destruct rest as [| s' rest'].
    + destruct Hp as [c ->].
      cbn [write_node]. eexists. split; [reflexivity |].
      rewrite plain_file_step, (lookup_update_same s (File c) (File data) es El).
      reflexivity.
    + destruct (IH (s, ch) Hch (s' :: rest') Hp) as (ch' & Hw & Hf).
      cbn [snd] in Hw. rewrite Hw. eexists. split; [reflexivity |].
      rewrite plain_file_step, (lookup_update_same s ch ch' es El). exact Hf.
  - subst rest. eexists. split; [reflexivity |].
    rewrite plain_file_step, lookup_append, El, String.eqb_refl. reflexivity.
Qed.

Lemma plain_file_cons (es : list (string * node)) (s : string) (rest : relpath)
    (c : bytes) :
  plain_file (Dir es) (s :: rest) = Some c ->
  exists ch, lookup_entry s es = Some ch
    /\ match rest with
       | [] => ch = File c
       | _ :: _ => plain_file ch rest = Some c
       end.
Proof.
  rewrite plain_file_step. destruct (lookup_entry s es) as [ch |]; [| discriminate].
  intros H. exists ch. split; [reflexivity |].
  destruct rest.
  - destruct ch; try discriminate. injection H as ->. reflexivity.
  - exact H.
Qed.

Lemma plain_file_dir (n : node) (p : relpath) (c : bytes) :
  plain_file n p = Some c -> exists es s rest, n = Dir es /\ p = s :: rest.
Proof.
  destruct p as [| s rest]; [discriminate |].
  destruct n as [c0 | es | t]; try discriminate.
  intros _. exists es, s, rest. auto.
Qed.

Lemma plain_file_read (n : node) :
  forall p c, plain_file n p = Some c -> readFile n p = inr c.
Proof.
  induction n as [c0 | es IH | | t IH] using node_induction;
    intros p c H; try (destruct p; discriminate).
  destruct p as [| s rest]; [discriminate |].
  apply plain_file_cons in H. destruct H as (ch & El & H).
  rewrite readFile_cons, El. rewrite List.Forall_forall in IH.
  destruct rest.
  - subst ch. reflexivity.
  - exact (IH (s, ch) (lookup_entry_In _ _ _ El) _ _ H).
Qed.

(** A regular file reached through real directories is an entry of the
    archive. *)
Lemma plain_file_archived (n : node) :
  forall p c pre, plain_file n p = Some c ->
    In (pre ++ p, ZipFile c) (archive_walk pre n).
Proof.
  induction n as [c0 | es IH | | t IH] using node_induction;
    intros p c pre H; try (destruct p; discriminate).
  destruct p as [| s rest]; [discriminate |].
  apply plain_file_cons in H. destruct H as (ch & El & H).
  pose proof (lookup_entry_In _ _ _ El) as Hch.
  rewrite archive_walk_dir. apply List.in_flat_map.
  exists (s, ch). split; [exact (proj2 (readdir_In _ _) Hch) |].
  cbn [fst snd]. destruct rest.
  - subst ch. left. reflexivity.
  - right. rewrite List.Forall_forall in IH.
    pose proof (IH (s, ch) Hch _ c (pre ++ [s]) H) as Hin.
    rewrite <- List.app_assoc in Hin. exact Hin.
Qed.

Lemma plain_file_in_archive (b : node) (p : relpath) (c : bytes) :
  plain_file b p = Some c -> In (p, ZipFile c) (archive_of b).
Proof.
  intros H. destruct (plain_file_dir b p c H) as (es & s & rest & -> & ->).
  unfold archive_of. cbn [realnode].
  exact (plain_file_archived (Dir es) (s :: rest) c [] H).
Qed.

(** ** The hash and the write of the wrapper *)

Section Race.

Variable app : App.
Variable name : string.
Variable args : FunctionArgs.


Lemma wrapped_empty (b : node) :
  args_injections args = [] -> wrapped app args b = b.
Proof. intros H. unfold wrapped. rewrite (wrapHandler_empty app args _ H). reflexivity. Qed.




End Race.

(** ** The order of wrapping, hashing and archiving *)




(** The hash the race decides: in a bundle whose handler module is
    [server-index.mjs], the wrapper is hashed when the write lands
    before that file is read, and the original module when it lands
    after. *)
Example calculateHash_races_with_the_write :
  globSync hash_glob_options bundle_self
  = [["src"; "util.mjs"]; ["src"; "server-index.mjs"]]
  /\ c_bundleHash (fst (Function_constructor sample_app "MyFunction" self_args 0
                          (fresh_world bundle_self)))
     = hash_of sample_app self_args (wrapped sample_app self_args bundle_self)
  /\ c_bundleHash (fst (Function_constructor sample_app "MyFunction" self_args 0
                          (fresh_world bundle_self)))
     = inr "d20ca6663433ee7e08af4c05951c6f8b3df3c7f3469633c5eadbab8b793ff4e8"
  /\ c_bundleHash (fst (Function_constructor sample_app "MyFunction" self_args 2
                          (fresh_world bundle_self)))
     = hash_of sample_app self_args bundle_self
  /\ hash_of sample_app self_args bundle_self
     <> hash_of sample_app self_args (wrapped sample_app self_args bundle_self).
Proof. vm_compute. repeat split. discriminate. Qed.

(** A handler directory that leaves the bundle and comes back puts the
    wrapper inside the bundle. *)
Example wrapper_path_roundabout :
  wrapper_file roundabout_args = "/work/dist/src/server-index.mjs"
  /\ wrapper_path sample_app roundabout_args = Some ["src"; "server-index.mjs"].
Proof. vm_compute. split; reflexivity. Qed.

(** ** The calls the constructor makes *)

Section Calls.

Variable app : App.
Variable name : string.
Variable args : FunctionArgs.

(** The calls of one run, in order: the listing and the reads made
    before the write lands, the write, the remaining reads, then
    [mkdir] and the archive. *)
Lemma constructor_events (k : nat) (w : World) :
  exists (before : list Event) (write : list Event) (after : list Event),
    events (snd (Function_constructor app name args k w))
    = events w ++ before ++ write ++ after
        ++ [EvMkdir (Posix.dirname (zip_path app name))]
        ++ archive_reads (archive_of (wrapped app args (bundleDir w)))
        ++ [EvArchive (zip_path app name)]
    /\ (write = [] \/ write = [EvWriteFile (wrapper_file args)])
    /\ (args_injections args = [] -> write = [])
    /\ match bundleHash args with
       | Some _ => before = [] /\ after = []
       | None =>
           exists n1 n2,
             before = EvGlobSync
                        :: List.map EvReadFile
                             (List.firstn n1
                                (List.firstn k (globSync hash_glob_options (bundleDir w))))
             /\ after = List.map EvReadFile
                          (List.firstn n2
                             (List.skipn k (globSync hash_glob_options (bundleDir w))))
       end.
Proof.
  pose proof (constructor_run app name args k w) as (_ & _ & _ & Hbd & _).
  cbv zeta in Hbd. revert Hbd. unfold Function_constructor.
  assert (Hwrap : forall w1,
            exists write,
              events (snd (wrapHandler app args w1)) = events w1 ++ write
              /\ (write = [] \/ write = [EvWriteFile (wrapper_file args)])
              /\ (args_injections args = [] -> write = [])).
  { intros w1. destruct (args_injections args) as [| i js] eqn:E.
    - rewrite wrapHandler_empty by exact E. exists [].
      rewrite List.app_nil_r. auto.
    - exists [EvWriteFile (wrapper_file args)].
      split; [| split; [right; reflexivity | discriminate]].
      rewrite wrapHandler_run by congruence.
      destruct (wrapper_path app args) as [p |]; [| reflexivity].
      destruct (write_node (bundleDir w1) p (wrapper_module args)); reflexivity. }
  destruct (bundleHash args) as [h |].
  - destruct (Hwrap w) as (write & He & Hw & Hi).
    destruct (wrapHandler app args w) as [nh w2]. cbn [snd] in He.
    rewrite zipBundleFolder_run. cbn [snd bundleDir events]. intros ->.
    exists [], write, []. rewrite He. cbn [Datatypes.app]. rewrite <- !List.app_assoc.
    auto.
  - unfold calculateHash_upto, bind, get_bundle, emit, ret.
    set (L := globSync hash_glob_options (bundleDir w)).
    destruct (hash_files_world app args (List.firstn k L) createHash
                (add_events w [EvGlobSync])) as [n1 H1].
    destruct (hash_files app args createHash (List.firstn k L)
                (add_events w [EvGlobSync])) as [[e | h] wa]; cbn [snd] in H1.
    + destruct (Hwrap wa) as (write & He & Hw & Hi).
      destruct (wrapHandler app args wa) as [nh w2]. cbn [snd] in He.
      rewrite zipBundleFolder_run. cbn [snd bundleDir events]. intros ->.
      exists (EvGlobSync :: List.map EvReadFile (List.firstn n1 (List.firstn k L))),
        write, [].
      rewrite He, H1. cbn [events add_events Datatypes.app]. rewrite <- !List.app_assoc.
      split; [reflexivity |]. split; [exact Hw |]. split; [exact Hi |].
      exists n1, 0%nat. split; reflexivity.
    + destruct (Hwrap wa) as (write & He & Hw & Hi).
      destruct (wrapHandler app args wa) as [nh w2]. cbn [snd] in He.
      unfold calculateHash_from, bind, ret. cbn [fst snd].
      destruct (hash_files_world app args (List.skipn k L) h w2) as [n2 H2].
      destruct (hash_files app args h (List.skipn k L) w2) as [[e | h'] w3];
        cbn [snd] in H2; rewrite zipBundleFolder_run; cbn [snd bundleDir events];
        intros ->;
        exists (EvGlobSync :: List.map EvReadFile (List.firstn n1 (List.firstn k L))),
          write, (List.map EvReadFile (List.firstn n2 (List.skipn k L)));
        rewrite H2; cbn [events add_events]; rewrite He, H1;
        cbn [events add_events Datatypes.app]; rewrite <- !List.app_assoc;
        (split; [reflexivity |]); (split; [exact Hw |]); (split; [exact Hi |]);
        exists n1, n2; split; reflexivity.
Qed.

Lemma archive_reads_no_hash_read (a : Archive) (e : Event) :
  In e (archive_reads a) -> is_hash_read e = false.
Proof.
  unfold archive_reads. rewrite List.in_flat_map. intros ((p & z) & _ & Hin).
  cbn [fst snd] in Hin.
  destruct z; [destruct Hin as [<- | []]; reflexivity | destruct Hin | destruct Hin].
Qed.

(** A supplied hash: no call of [calculateHash] is among the calls. *)
Lemma constructor_supplied_events (k : nat) (w : World) (h : string) :
  bundleHash args = Some h ->
  forall e, In e (events (snd (Function_constructor app name args k w))) ->
    is_hash_read e = true -> In e (events w).
Proof.
  intros Hs e Hin Hr.
  destruct (constructor_events k w) as (before & write & after & He & Hw & _ & Hb).
  rewrite Hs in Hb. destruct Hb as [-> ->]. rewrite He in Hin.
  cbn [Datatypes.app] in Hin.
  apply List.in_app_or in Hin as [Hin | Hin]; [exact Hin |].
  apply List.in_app_or in Hin as [Hin | Hin].
  - destruct Hw as [-> | ->]; [destruct Hin |].
    destruct Hin as [<- | []]. discriminate Hr.
  - destruct Hin as [<- | Hin]; [discriminate Hr |].
    apply List.in_app_or in Hin as [Hin | [<- | []]]; [| discriminate Hr].
    apply archive_reads_no_hash_read in Hin. congruence.
Qed.

End Calls.

(** ** A hash supplied by the caller *)

(** C10: when [bundleHash] is supplied, [calculateHash] is not invoked:
    the constructor makes no [globSync] and no [readFile] call; the hash
    it declares is the supplied one, and the bucket object is declared
    with the key that embeds it verbatim, whatever the bundle contains
    and whether or not the wrapper can be written; the updater, once the
    function is declared, is given that same key. *)
Theorem C10_supplied_hash_is_used_verbatim
    (app : App) (name : string) (args : FunctionArgs) (h : string)
    (landed : nat) (w : World) :
  bundleHash args = Some h ->
  let c := fst (Function_constructor app name args landed w) in
  let w' := snd (Function_constructor app name args landed w) in
  (forall e, In e (events w') -> is_hash_read e = true -> In e (events w))
  /\ c_bundleHash c = inr h
  /\ (exists file, c_file c = inr file
        /\ object_key file = name +:+ "-code-" +:+ h +:+ ".zip"
        /\ (forall landed0 w0,
              c_file (fst (Function_constructor app name args landed0 w0)) = inr file))
  /\ (forall nh, c_newHandler c = inr nh ->
        exists u, c_updater c = inr u
          /\ updater_s3Key u = name +:+ "-code-" +:+ h +:+ ".zip")
  /\ (forall d, deployed c = inr d ->
        d_bundleHash d = h
        /\ object_key (d_file d) = name +:+ "-code-" +:+ h +:+ ".zip"
        /\ updater_s3Key (d_updater d) = name +:+ "-code-" +:+ h +:+ ".zip").
Proof.
  intros Hs c w'.
  assert (Hfile : forall k0 w0,
            c_file (fst (Function_constructor app name args k0 w0))
            = inr (createBucketObject app name args h (zip_path app name))).
  { intros k0 w0.
    pose proof (constructor_run app name args k0 w0) as (Hd & _ & Hz & _).
    cbv zeta in Hd, Hz. rewrite Hd. cbn [declare c_file].
    rewrite (constructor_supplied app name args k0 w0 h Hs), Hz. reflexivity. }
  pose proof (constructor_run app name args landed w) as (Hd & _ & Hz & _).
  cbv zeta in Hd, Hz. fold c in Hd, Hz.
  pose proof (constructor_supplied app name args landed w h Hs) as Hh. fold c in Hh.
  pose proof (constructor_supplied_events app name args landed w h Hs) as Hev.
  fold w' in Hev.
  pose proof (Hfile landed w) as Hf. fold c in Hf.
  clearbody c w'.
  split; [exact Hev |]. split; [exact Hh |]. split; [| split].
  - exists (createBucketObject app name args h (zip_path app name)).
    split; [exact Hf |]. split; [reflexivity | exact Hfile].
  - intros nh Hnh. rewrite Hd. cbn [declare c_updater]. rewrite Hh, Hz. rewrite Hnh.
    eexists. split; reflexivity.
  - intros d Hdep. unfold deployed in Hdep. rewrite Hh, Hz, Hf in Hdep.
    destruct (c_newHandler c) as [e | nh] eqn:Enh; [discriminate |].
    assert (Hfn : c_fn c = inr (createFunction app name args (createRole name args) nh)).
    { rewrite Hd. cbn [declare c_fn]. rewrite ?Enh. reflexivity. }
    assert (Hu : c_updater c
                 = inr (updateFunctionCode app name args
                          (createFunction app name args (createRole name args) nh)
                          (createBucketObject app name args h (zip_path app name)))).
    { rewrite Hd. cbn [declare c_updater]. rewrite Hh, Hz, ?Enh. reflexivity. }
    rewrite Hfn, Hu in Hdep. injection Hdep as <-.
    cbn. auto.
Qed.

Lemma C10_supplied_hash_witness :
  (c_bundleHash (fst sample_supplied) = inr "0123abcd"
   /\ (exists file, c_file (fst sample_supplied) = inr file
         /\ object_key file = "MyFunction-code-0123abcd.zip")
   /\ (exists u, c_updater (fst sample_supplied) = inr u
         /\ updater_s3Key u = "MyFunction-code-0123abcd.zip")
   /\ (forall e, In e (events (snd sample_supplied)) -> is_hash_read e = false))
  /\ (c_newHandler (fst rejected_supplied)
      = inl {| err_code := ENOENT; err_path := "/work/dist/missing/server-index.mjs" |}
      /\ c_bundleHash (fst rejected_supplied) = inr "0123abcd"
      /\ exists file, c_file (fst rejected_supplied) = inr file
           /\ object_key file = "MyFunction-code-0123abcd.zip").
Proof.
  split.
  - pose proof (C10_supplied_hash_is_used_verbatim sample_app "MyFunction"
                  (with_bundleHash sample_args (Some "0123abcd")) "0123abcd" 0
                  (fresh_world bundle_index) eq_refl)
      as (Hev & Hh & (file & Hf & Hk & _) & Hu & _).
    split; [exact Hh |]. split; [exists file; split; [exact Hf | exact Hk] |].
    split; [exact (Hu "server-index.handler" eq_refl) |].
    intros e Hin. destruct (is_hash_read e) eqn:E; [| reflexivity].
    destruct (Hev e Hin E).
  - pose proof (C10_supplied_hash_is_used_verbatim sample_app "MyFunction"
                  (with_handler (with_bundleHash sample_args (Some "0123abcd"))
                     "missing/index.handler")
                  "0123abcd" 0 (fresh_world bundle_index) eq_refl)
      as (_ & Hh & (file & Hf & Hk & _) & _).
    split; [reflexivity |]. split; [exact Hh |].
    exists file. split; [exact Hf | exact Hk].
Defined.

(** The supplied hash is not the hash of the bundle that is uploaded. *)
Example supplied_hash_is_not_checked :
  hash_of sample_app sample_args bundle_index <> inr "0123abcd"
  /\ events (snd sample_supplied)
     = [EvWriteFile "/work/dist/server-index.mjs";
        EvMkdir "/work/.sst/temp/MyFunction";
        EvArchiveFile ["index.mjs"]; EvArchiveFile ["server-index.mjs"];
        EvArchive "/work/.sst/temp/MyFunction/code.zip"].
Proof.
  vm_compute. split; [intros H; discriminate H | reflexivity].
Qed.

(** ** [path.posix.parse] on a handler reference *)

Section ParseHandler.

Import Posix.
Local Open Scope Z_scope.

Lemma parse_loop_plain (blk rest : list (Z * ascii)) (st : scan) :
  Forall (fun ic => plain_char (snd ic)) blk ->
  end_ st <> -1 -> startDot st = -1 ->
  parse_loop (blk ++ rest) st = parse_loop rest st.
Proof.
  intros Hall He Hd. induction Hall as [| [i c] blk [Hs Hdot] _ IH]; cbn.
  - reflexivity.
  - cbn in Hs, Hdot. rewrite Hs, Hdot.
    destruct (Z.eqb_spec (end_ st) (-1)) as [E | _]; [contradiction |].
    rewrite Hd. cbn. exact IH.
Qed.

Lemma parse_loop_symbol (i : Z) (c : ascii) (blk rest : list (Z * ascii)) (st : scan) :
  plain_char c ->
  Forall (fun ic => plain_char (snd ic)) blk ->
  i + 1 <> -1 ->
  end_ st = -1 -> startDot st = -1 ->
  parse_loop ((i, c) :: blk ++ rest) st
  = parse_loop rest
      {| startDot := -1; startPart := startPart st; end_ := i + 1;
         matchedSlash := false; preDotState := preDotState st |}.
Proof.
  intros [Hs Hdot] Hall Hi He Hd. cbn. rewrite Hs, Hdot, He. cbn.
  rewrite Hd. cbn.
  rewrite parse_loop_plain; [| exact Hall | exact Hi | reflexivity].
  rewrite <- Hd. reflexivity.
Qed.

Lemma parse_loop_dot (i : Z) (rest : list (Z * ascii)) (st : scan) :
  end_ st <> -1 -> startDot st = -1 ->
  parse_loop ((i, "."%char) :: rest) st
  = parse_loop rest
      {| startDot := i; startPart := startPart st; end_ := end_ st;
         matchedSlash := matchedSlash st; preDotState := preDotState st |}.
Proof.
  intros He Hd. cbn.
  destruct (Z.eqb_spec (end_ st) (-1)) as [E | _]; [contradiction |].
  rewrite Hd. reflexivity.
Qed.

Lemma parse_loop_module (blk rest : list (Z * ascii)) :
  forall st : scan,
    Forall (fun ic => is_slash (snd ic) = false) blk ->
    end_ st <> -1 -> startDot st <> -1 ->
    exists pds,
      (blk <> [] \/ preDotState st <> 0 -> pds <> 0)
      /\ parse_loop (blk ++ rest) st
         = parse_loop rest
             {| startDot := startDot st; startPart := startPart st; end_ := end_ st;
                matchedSlash := matchedSlash st; preDotState := pds |}.
Proof.
  induction blk as [| [i c] blk IH]; intros st Hall He Hd.
  - exists (preDotState st). split.
    + intros [H | H]; [contradiction | exact H].
    + destruct st; reflexivity.
  - apply Forall_cons in Hall as [Hs Hall]. cbn in Hs.
    cbn [app parse_loop]. rewrite Hs.
    destruct (Z.eqb_spec (end_ st) (-1)) as [E | _]; [contradiction |].
    destruct (Z.eqb_spec (startDot st) (-1)) as [E | _]; [contradiction |].
    cbn [negb].
    destruct (is_dot c).
    + destruct (Z.eqb_spec (preDotState st) 1) as [E1 | E1]; cbn [negb].
      * destruct (IH st Hall He Hd) as (pds & Hp & Hl).
        exists pds. split; [| exact Hl].
        intros _. apply Hp. right. rewrite E1. discriminate.
      * destruct (IH {| startDot := startDot st; startPart := startPart st;
                        end_ := end_ st; matchedSlash := matchedSlash st;
                        preDotState := 1 |} Hall He Hd) as (pds & Hp & Hl).
        exists pds. split; [| exact Hl].
        intros _. apply Hp. right. cbn. discriminate.
    + destruct (IH {| startDot := startDot st; startPart := startPart st;
                      end_ := end_ st; matchedSlash := matchedSlash st;
                      preDotState := -1 |} Hall He Hd) as (pds & Hp & Hl).
      exists pds. split; [| exact Hl].
      intros _. apply Hp. right. cbn. discriminate.
Qed.

Lemma parse_loop_slash (i : Z) (rest : list (Z * ascii)) (st : scan) :
  matchedSlash st = false ->
  parse_loop ((i, "/"%char) :: rest) st
  = {| startDot := startDot st; startPart := i + 1; end_ := end_ st;
       matchedSlash := matchedSlash st; preDotState := preDotState st |}.
Proof.
  intros Hm. cbn. rewrite Hm. reflexivity.
Qed.

Lemma chars_app (a b : string) :
  list_ascii_of_string (a +:+ b) = list_ascii_of_string a ++ list_ascii_of_string b.
Proof.
  induction a as [| c a IH]; [reflexivity |].
  rewrite append_cons. cbn. rewrite IH. reflexivity.
Qed.

Lemma chars_length (a : string) :
  List.length (list_ascii_of_string a) = String.length a.
Proof. induction a as [| c a IH]; cbn; [reflexivity | rewrite IH; reflexivity]. Qed.

Lemma indexed_app (l1 l2 : list ascii) :
  forall i, indexed i (l1 ++ l2)
            = indexed i l1 ++ indexed (i + Z.of_nat (List.length l1)) l2.
Proof.
  induction l1 as [| c l1 IH]; intros i; cbn [indexed app List.length].
  - rewrite Z.add_0_r. reflexivity.
  - rewrite IH. do 3 f_equal. lia.
Qed.

Lemma indexed_length (l : list ascii) : forall i, List.length (indexed i l) = List.length l.
Proof. induction l as [| c l IH]; intros i; cbn; [reflexivity | rewrite IH; reflexivity]. Qed.

Lemma indexed_Forall (P : ascii -> Prop) (l : list ascii) :
  forall i, Forall P l -> Forall (fun ic => P (snd ic)) (indexed i l).
Proof.
  induction l as [| c l IH]; intros i H; cbn.
  - constructor.
  - apply Forall_cons in H as [Hc Hl]. constructor; [exact Hc | apply IH; exact Hl].
Qed.

(** The scan over [module.symbol], from the right. *)
Lemma parse_loop_handler (M F : list ascii) (k : Z) (tail : list (Z * ascii)) :
  0 <= k ->
  M <> [] -> Forall (fun c => is_slash c = false) M ->
  F <> [] -> Forall plain_char F ->
  exists pds,
    pds <> 0
    /\ parse_loop (List.rev (indexed k (M ++ "."%char :: F)) ++ tail)
         {| startDot := -1; startPart := 0; end_ := -1;
            matchedSlash := true; preDotState := 0 |}
       = parse_loop tail
           {| startDot := k + Z.of_nat (List.length M); startPart := 0;
              end_ := k + Z.of_nat (List.length M) + 1 + Z.of_nat (List.length F);
              matchedSlash := false; preDotState := pds |}.
Proof.
  intros Hk HM HMs HF HFp.
  destruct (exists_last HF) as (F' & c & ->).
  apply Forall_app in HFp as [HF' Hc]. apply Forall_cons in Hc as [Hc _].
  rewrite indexed_app. cbn [indexed].
  rewrite (indexed_app F'). cbn [indexed].
  rewrite List.rev_app_distr. cbn [List.rev].
  rewrite List.rev_app_distr. cbn [List.rev app].
  rewrite <- !List.app_assoc. cbn [app].
  rewrite (parse_loop_symbol _ c); cbn [startDot end_ startPart preDotState];
    [| exact Hc | | lia | reflexivity | reflexivity].
  2:{ apply Forall_rev. apply indexed_Forall. exact HF'. }
  rewrite parse_loop_dot; cbn [startDot end_ startPart preDotState matchedSlash];
    [| lia | reflexivity].
  destruct (parse_loop_module (List.rev (indexed k M)) tail
              {| startDot := k + Z.of_nat (List.length M); startPart := 0;
                 end_ := k + Z.of_nat (List.length M) + 1
                         + Z.of_nat (List.length F') + 1;
                 matchedSlash := false; preDotState := 0 |})
    as (pds & Hp & Hl).
  - apply Forall_rev. apply (indexed_Forall (fun c => is_slash c = false)). exact HMs.
  - cbn. lia.
  - cbn. lia.
  - exists pds. split.
    + apply Hp. left. intros E. apply (f_equal (@List.length _)) in E.
      rewrite List.length_rev, indexed_length in E. destruct M; [contradiction | discriminate].
    + rewrite Hl. cbn [startDot end_ startPart preDotState matchedSlash].
      rewrite List.length_app. cbn [List.length].
      do 2 f_equal. lia.
Qed.

Lemma substring_skip (a s : string) (n m : nat) :
  String.substring (String.length a + n) m (a +:+ s) = String.substring n m s.
Proof.
  induction a as [| c a IH]; [reflexivity |].
  rewrite append_cons. cbn. exact IH.
Qed.

Lemma substring_prefix (b c : string) :
  String.substring 0 (String.length b) (b +:+ c) = b.
Proof.
  induction b as [| x b IH].
  - cbn. destruct c; reflexivity.
  - rewrite append_cons. cbn. rewrite IH. reflexivity.
Qed.

Lemma slice_middle (a b c : string) :
  slice (a +:+ b +:+ c) (strlen a) (strlen a + strlen b) = b.
Proof.
  unfold slice, strlen.
  replace (Z.of_nat (String.length a) + Z.of_nat (String.length b)
           - Z.of_nat (String.length a)) with (Z.of_nat (String.length b)) by lia.
  rewrite !Nat2Z.id.
  rewrite <- (Nat.add_0_r (String.length a)).
  rewrite substring_skip. apply substring_prefix.
Qed.

Lemma strlen_app (a b : string) : strlen (a +:+ b) = strlen a + strlen b.
Proof. unfold strlen. rewrite append_length. lia. Qed.

Lemma strlen_nonneg (a : string) : 0 <= strlen a.
Proof. unfold strlen. lia. Qed.

Lemma free_of_chars (c : ascii) (s : string) :
  free_of c s = true ->
  Forall (fun x => Ascii.eqb x c = false) (list_ascii_of_string s).
Proof.
  unfold free_of. rewrite List.forallb_forall, List.Forall_forall.
  intros H x Hx. specialize (H x Hx). apply negb_true_iff in H. exact H.
Qed.

(** The scan of a handler reference [prefix module.symbol]. *)
Lemma parse_scan_handler (pre m f : string) (tail : list (Z * ascii)) :
  is_empty m = false -> free_of "/" m = true ->
  is_empty f = false -> free_of "/" f = true -> free_of "." f = true ->
  exists pds,
    pds <> 0
    /\ parse_loop
         (List.rev (indexed (strlen pre) (list_ascii_of_string (m +:+ "." +:+ f))) ++ tail)
         {| startDot := -1; startPart := 0; end_ := -1;
            matchedSlash := true; preDotState := 0 |}
       = parse_loop tail
           {| startDot := strlen pre + strlen m; startPart := 0;
              end_ := strlen pre + strlen m + 1 + strlen f;
              matchedSlash := false; preDotState := pds |}.
Proof.
  intros Hm Hms Hf Hfs Hfd.
  rewrite chars_app. change (list_ascii_of_string ("." +:+ f))
    with ("."%char :: list_ascii_of_string f).
  destruct (parse_loop_handler (list_ascii_of_string m) (list_ascii_of_string f)
              (strlen pre) tail) as (pds & Hp & Hl).
  - apply strlen_nonneg.
  - destruct m; [discriminate | discriminate].
  - apply free_of_chars. exact Hms.
  - destruct f; [discriminate | discriminate].
  - apply free_of_chars in Hfs, Hfd.
    rewrite List.Forall_forall in *. intros x Hx. split; [apply Hfs | apply Hfd]; exact Hx.
  - exists pds. split; [exact Hp |].
    rewrite Hl, !chars_length. reflexivity.
Qed.

(** What [parse] returns once the scan has found an extension. *)
Lemma parse_of_scan (path : string) (st : scan) :
  strlen path <> 0 ->
  parse_loop
    (chars_desc path (if PosixResolve.is_absolute path then 1 else 0))
    {| startDot := -1; startPart := 0; end_ := -1;
       matchedSlash := true; preDotState := 0 |} = st ->
  startDot st <> -1 -> preDotState st <> 0 -> startDot st <> end_ st - 1 ->
  end_ st <> -1 ->
  let from := if (startPart st =? 0) && PosixResolve.is_absolute path
              then 1 else startPart st in
  dir (parse path)
  = (if 0 <? startPart st then slice path 0 (startPart st - 1)
     else if PosixResolve.is_absolute path then "/" else "")
  /\ name (parse path) = slice path from (startDot st)
  /\ ext (parse path) = slice path (startDot st) (end_ st)
  /\ base (parse path) = slice path from (end_ st).
Proof.
  intros Hlen Hst Hd Hp Hde He from. unfold parse.
  destruct (Z.eqb_spec (strlen path) 0) as [E | _]; [contradiction |].
  change (match path with String c _ => is_slash c | EmptyString => false end)
    with (PosixResolve.is_absolute path).
  rewrite Hst.
  destruct (Z.eqb_spec (end_ st) (-1)) as [E | _]; [contradiction |].
  destruct (Z.eqb_spec (startDot st) (-1)) as [E | _]; [contradiction |].
  destruct (Z.eqb_spec (preDotState st) 0) as [E | _]; [contradiction |].
  destruct (Z.eqb_spec (startDot st) (end_ st - 1)) as [E | _]; [contradiction |].
  cbn [orb]. rewrite andb_false_r. cbn [andb dir name ext base].
  repeat split; reflexivity.
Qed.

Lemma slice_prefix (b c : string) : slice (b +:+ c) 0 (strlen b) = b.
Proof. apply (slice_middle "" b c). Qed.

Lemma slice_suffix (a b : string) (hi : Z) :
  hi = strlen a + strlen b -> slice (a +:+ b) (strlen a) hi = b.
Proof.
  intros ->. rewrite <- (append_nil_r b) at 1. apply slice_middle.
Qed.

Lemma first_not_slash (m : string) :
  is_empty m = false -> free_of "/" m = true -> PosixResolve.is_absolute m = false.
Proof.
  destruct m as [| c m]; [discriminate |]. intros _ H.
  unfold free_of in H. cbn in H. apply andb_true_iff in H as [H _].
  apply negb_true_iff in H. exact H.
Qed.

Lemma is_absolute_app (a b : string) :
  is_empty a = false ->
  PosixResolve.is_absolute (a +:+ b) = PosixResolve.is_absolute a.
Proof. destruct a; [discriminate | reflexivity]. Qed.

Lemma parse_module_symbol (m f : string) :
  is_empty m = false -> free_of "/" m = true ->
  is_empty f = false -> free_of "/" f = true -> free_of "." f = true ->
  dir (parse (m +:+ "." +:+ f)) = ""
  /\ name (parse (m +:+ "." +:+ f)) = m
  /\ ext (parse (m +:+ "." +:+ f)) = "." +:+ f.
Proof.
  intros Hm Hms Hf Hfs Hfd.
  destruct (parse_scan_handler "" m f [] Hm Hms Hf Hfs Hfd) as (pds & Hp & Hl).
  rewrite List.app_nil_r in Hl. cbn [parse_loop] in Hl.
  change (strlen "") with 0 in Hl. rewrite !Z.add_0_l in Hl.
  assert (Habs : PosixResolve.is_absolute (m +:+ "." +:+ f) = false).
  { rewrite is_absolute_app by exact Hm. apply first_not_slash; assumption. }
  assert (Hf1 : 1 <= strlen f).
  { destruct f; [discriminate |]. unfold strlen. cbn. lia. }
  pose proof (strlen_nonneg m) as Hm0.
  assert (Hscan :
    parse_loop
      (chars_desc (m +:+ "." +:+ f)
         (if PosixResolve.is_absolute (m +:+ "." +:+ f) then 1 else 0))
      {| startDot := -1; startPart := 0; end_ := -1;
         matchedSlash := true; preDotState := 0 |}
    = {| startDot := strlen m; startPart := 0; end_ := strlen m + 1 + strlen f;
         matchedSlash := false; preDotState := pds |}).
  { rewrite Habs. unfold chars_desc. cbn [Z.to_nat List.skipn]. exact Hl. }
  assert (Hlen : strlen (m +:+ "." +:+ f) <> 0).
  { rewrite !strlen_app. change (strlen ".") with 1. lia. }
  pose proof (parse_of_scan _ _ Hlen Hscan) as H.
  cbn [startDot startPart end_ preDotState] in H.
  specialize (H ltac:(lia) Hp ltac:(lia) ltac:(lia)). cbv zeta in H.
  rewrite Habs in H. cbn in H. destruct H as (Hdir & Hname & Hext & _).
  rewrite Hdir, Hname, Hext. repeat split.
  - apply slice_prefix.
  - apply slice_suffix. rewrite strlen_app. change (strlen ".") with 1. lia.
Qed.

Lemma chars_desc_dir (d rest : string) (start : Z) :
  0 <= start <= 1 -> is_empty d = false ->
  chars_desc ((d +:+ "/") +:+ rest) start
  = List.rev (indexed (strlen (d +:+ "/")) (list_ascii_of_string rest))
    ++ (strlen d, "/"%char)
       :: List.rev (List.skipn (Z.to_nat start) (indexed 0 (list_ascii_of_string d))).
Proof.
  intros Hs Hd. unfold chars_desc.
  rewrite !chars_app. change (list_ascii_of_string "/") with ["/"%char].
  rewrite !indexed_app. cbn [indexed].
  rewrite List.length_app, !chars_length. cbn [List.length].
  rewrite <- List.app_assoc.
  rewrite List.skipn_app, indexed_length, chars_length.
  replace (Z.to_nat start - String.length d)%nat with 0%nat.
  2:{ destruct d; [discriminate |]. cbn [String.length]. lia. }
  rewrite List.skipn_O. rewrite List.rev_app_distr, List.rev_app_distr.
  cbn [List.rev app]. rewrite <- List.app_assoc. cbn [app].
  unfold strlen. rewrite append_length. cbn [String.length].
  do 3 f_equal; lia.
Qed.

Lemma parse_dir_module_symbol (d m f : string) :
  is_empty d = false ->
  is_empty m = false -> free_of "/" m = true ->
  is_empty f = false -> free_of "/" f = true -> free_of "." f = true ->
  dir (parse ((d +:+ "/") +:+ m +:+ "." +:+ f)) = d
  /\ name (parse ((d +:+ "/") +:+ m +:+ "." +:+ f)) = m
  /\ ext (parse ((d +:+ "/") +:+ m +:+ "." +:+ f)) = "." +:+ f.
Proof.
  intros Hd Hm Hms Hf Hfs Hfd.
  set (pre := d +:+ "/"). set (path := pre +:+ m +:+ "." +:+ f).
  set (start := if PosixResolve.is_absolute path then 1 else 0).
  assert (Hstart : 0 <= start <= 1) by (unfold start; destruct (PosixResolve.is_absolute path); lia).
  destruct (parse_scan_handler pre m f
              ((strlen d, "/"%char)
                 :: List.rev (List.skipn (Z.to_nat start)
                                (indexed 0 (list_ascii_of_string d))))
              Hm Hms Hf Hfs Hfd) as (pds & Hp & Hl).
  rewrite parse_loop_slash in Hl by reflexivity.
  cbn [startDot startPart end_ preDotState matchedSlash] in Hl.
  assert (Hscan :
    parse_loop (chars_desc path start)
      {| startDot := -1; startPart := 0; end_ := -1;
         matchedSlash := true; preDotState := 0 |}
    = {| startDot := strlen pre + strlen m; startPart := strlen d + 1;
         end_ := strlen pre + strlen m + 1 + strlen f;
         matchedSlash := false; preDotState := pds |}).
  { unfold path, pre. rewrite chars_desc_dir by assumption. exact Hl. }
  assert (Hf1 : 1 <= strlen f).
  { destruct f; [discriminate |]. unfold strlen. cbn. lia. }
  pose proof (strlen_nonneg m) as Hm0. pose proof (strlen_nonneg d) as Hd0.
  assert (Hpre : strlen pre = strlen d + 1).
  { unfold pre. rewrite strlen_app. reflexivity. }
  assert (Hlen : strlen path <> 0).
  { unfold path. rewrite !strlen_app. change (strlen ".") with 1. lia. }
  pose proof (parse_of_scan _ _ Hlen Hscan) as H.
  cbn [startDot startPart end_ preDotState] in H.
  specialize (H ltac:(lia) Hp ltac:(lia) ltac:(lia)). cbv zeta in H.
  destruct (Z.eqb_spec (strlen d + 1) 0) as [E | _]; [lia |].
  destruct (Z.ltb_spec 0 (strlen d + 1)) as [_ | E]; [| lia].
  cbn [andb] in H. destruct H as (Hdir & Hname & Hext & _).
  rewrite Hdir, Hname, Hext. repeat split.
  - replace (strlen d + 1 - 1) with (strlen d) by lia.
    unfold path, pre. rewrite append_assoc. apply slice_prefix.
  - rewrite <- Hpre. apply (slice_middle pre m ("." +:+ f)).
  - unfold path. rewrite <- append_assoc. rewrite <- strlen_app.
    apply slice_suffix. rewrite !strlen_app. change (strlen ".") with 1. lia.
Qed.

(** A well-formed handler reference is parsed back into its parts. *)
Lemma parse_entry_reference (s : HandlerSpec) :
  well_formed s = true ->
  dir (parse (entry_reference s)) = entry_directory s
  /\ name (parse (entry_reference s)) = module_name s
  /\ ext (parse (entry_reference s)) = "." +:+ exported_symbol s.
Proof.
  unfold well_formed, entry_reference, entry_prefix. intros H.
  apply andb_true_iff in H as [H Hfd]. apply andb_true_iff in H as [H Hfs].
  apply andb_true_iff in H as [H Hf]. apply andb_true_iff in H as [Hm Hms].
  apply negb_true_iff in Hm, Hf.
  destruct (is_empty (entry_directory s)) eqn:Ed.
  - destruct (entry_directory s); [| discriminate].
    rewrite append_nil_l. apply parse_module_symbol; assumption.
  - apply parse_dir_module_symbol; assumption.
Qed.

End ParseHandler.

(** ** The generated module *)

Lemma wrapper_lines_shape (streaming : bool) (injections : list string)
    (symbol module : string) :
  wrapper_lines streaming injections symbol module
  = wrapper_header streaming
    :: injections
       ++ [wrapper_import symbol module; wrapper_return; wrapper_footer streaming].
Proof. destruct streaming; reflexivity. Qed.

Lemma wrapper_of_spec (app : App) (bundlePath : string) (s : HandlerSpec) :
  well_formed s = true ->
  wrapper_entry (args_of bundlePath s)
  = Posix.join [entry_directory s; "server-index.handler"]
  /\ wrapper_file (args_of bundlePath s)
     = Posix.join [bundlePath; entry_directory s; "server-index.mjs"]
  /\ wrapper_path app (args_of bundlePath s)
     = below_bundle (cwd app) bundlePath (entry_directory s) "server-index.mjs"
  /\ wrapper_module (args_of bundlePath s)
     = String.concat newline
         (wrapper_header (spec_streaming s)
          :: spec_injections s
             ++ [wrapper_import (exported_symbol s) (module_name s);
                 wrapper_return; wrapper_footer (spec_streaming s)]).
Proof.
  intros Hwf. destruct (parse_entry_reference s Hwf) as (Hd & Hn & He).
  unfold wrapper_path, wrapper_entry, wrapper_file, wrapper_module, below_bundle.
  cbn [args_of handler bundle args_streaming args_injections streaming injections].
  rewrite Hd, Hn, He, wrapper_lines_shape.
  repeat split; reflexivity.
Qed.

(** ** Paths that end in a file name *)

Lemma normalize_segments_snoc (a : bool) (f : string) (xs : list string) :
  String.eqb f "" = false -> String.eqb f "." = false -> String.eqb f ".." = false ->
  forall res,
    Posix.normalize_segments a (xs ++ [f]) res
    = Posix.normalize_segments a xs res ++ [f].
Proof.
  intros H1 H2 H3. induction xs as [| x xs IH]; intros res.
  - cbn. rewrite H1, H2, H3. reflexivity.
  - cbn [app Posix.normalize_segments].
    destruct (String.eqb x "" || String.eqb x "."); [apply IH |].
    destruct (String.eqb x "..").
    + destruct res as [| top res']; [apply IH |].
      destruct (String.eqb top ".."); apply IH.
    + apply IH.
Qed.

Lemma split_acc_app (a b : string) :
  forall cur,
    Posix.split_acc cur (a +:+ String "/" b)
    = Posix.split_acc cur a ++ Posix.split b.
Proof.
  induction a as [| c a IH]; intros cur.
  - rewrite append_nil_l. reflexivity.
  - rewrite append_cons. cbn [Posix.split_acc].
    destruct (Posix.is_slash c); [rewrite IH; reflexivity | apply IH].
Qed.

Lemma split_acc_plain (n : string) :
  free_of "/" n = true ->
  forall cur, Posix.split_acc cur n = [cur +:+ n].
Proof.
  unfold free_of. induction n as [| c n IH]; intros H cur.
  - rewrite append_nil_r. reflexivity.
  - cbn [list_ascii_of_string List.forallb] in H.
    apply andb_prop in H as [Hc Hn]. apply negb_true_iff in Hc.
    cbn [Posix.split_acc]. unfold Posix.is_slash. rewrite Hc.
    rewrite (IH Hn). rewrite append_assoc, append_cons, append_nil_l. reflexivity.
Qed.

Lemma normalize_segments_skip (a : bool) (xs : list string) :
  forall res,
    Posix.normalize_segments a (xs ++ [""]) res = Posix.normalize_segments a xs res.
Proof.
  induction xs as [| x xs IH]; intros res; [reflexivity |].
  cbn [app Posix.normalize_segments].
  destruct (String.eqb x "" || String.eqb x "."); [apply IH |].
  destruct (String.eqb x "..").
  - destruct res as [| top res']; [apply IH |].
    destruct (String.eqb top ".."); apply IH.
  - apply IH.
Qed.

Lemma plain_name_inv (n : string) :
  plain_name n = true ->
  (Posix.strlen n =? 0)%Z = false /\ PosixResolve.is_absolute n = false
  /\ free_of "/" n = true
  /\ String.eqb n "" = false /\ String.eqb n "." = false /\ String.eqb n ".." = false.
Proof.
  unfold plain_name. intros H.
  apply andb_prop in H as [H H4]. apply andb_prop in H as [H H3].
  apply andb_prop in H as [H1 H2].
  apply negb_true_iff in H1, H3, H4.
  destruct n as [| c n]; [discriminate |].
  repeat split; try assumption; try reflexivity.
  unfold free_of in H2. cbn [list_ascii_of_string List.forallb] in H2.
  apply andb_prop in H2 as [Hc _]. apply negb_true_iff in Hc. exact Hc.
Qed.

Lemma slash_append (b : string) : "/" +:+ b = String "/" b.
Proof. reflexivity. Qed.

Lemma split_snoc (X f : string) :
  free_of "/" f = true ->
  Posix.split (X +:+ "/" +:+ f) = Posix.split X ++ [f].
Proof.
  intros Hf. rewrite slash_append. unfold Posix.split at 1.
  rewrite split_acc_app. unfold Posix.split.
  rewrite (split_acc_plain f Hf), append_nil_l. reflexivity.
Qed.

Lemma split_plain (f : string) :
  free_of "/" f = true -> Posix.split f = [f].
Proof.
  intros Hf. unfold Posix.split. rewrite (split_acc_plain f Hf), append_nil_l.
  reflexivity.
Qed.

Lemma concat_snoc (segs : list string) :
  exists P, (P = "" \/ exists P0, P = P0 +:+ "/")
    /\ forall f, String.concat "/" (segs ++ [f]) = P +:+ f.
Proof.
  induction segs as [| x segs (P & HP & IH)].
  - exists "". split; [left; reflexivity |]. intros f. rewrite append_nil_l. reflexivity.
  - exists (x +:+ "/" +:+ P). split.
    + right. destruct HP as [-> | [P0 ->]].
      * exists x. rewrite append_nil_r. reflexivity.
      * exists (x +:+ "/" +:+ P0). rewrite !append_assoc. reflexivity.
    + intros f. specialize (IH f).
      change ((x :: segs) ++ [f]) with (x :: (segs ++ [f])).
      destruct (segs ++ [f]) as [| y ys] eqn:E; [destruct segs; discriminate |].
      change (String.concat "/" (x :: y :: ys))
        with (x +:+ "/" +:+ String.concat "/" (y :: ys)).
      rewrite IH, !append_assoc. reflexivity.
Qed.

Lemma chars_append (a b : string) :
  list_ascii_of_string (a +:+ b) = list_ascii_of_string a ++ list_ascii_of_string b.
Proof.
  induction a as [| c a IH]; [rewrite append_nil_l; reflexivity |].
  rewrite append_cons. cbn [list_ascii_of_string app]. rewrite IH. reflexivity.
Qed.

Lemma ends_with_slash_plain (Y f : string) :
  is_empty f = false -> free_of "/" f = true ->
  Posix.ends_with_slash (Y +:+ f) = false.
Proof.
  intros Hne Hf. unfold Posix.ends_with_slash.
  rewrite chars_append, List.rev_app_distr.
  unfold free_of in Hf.
  assert (Hall : List.forallb (fun x => negb (Ascii.eqb x "/"))
                   (List.rev (list_ascii_of_string f)) = true).
  { rewrite List.forallb_forall in Hf |- *. intros x Hx. apply Hf.
    apply List.in_rev. exact Hx. }
  destruct (List.rev (list_ascii_of_string f)) as [| c cs] eqn:E.
  - destruct f; [discriminate |]. cbn [list_ascii_of_string List.rev] in E.
    destruct (List.rev (list_ascii_of_string f)); discriminate.
  - cbn [app]. cbn [List.forallb] in Hall. apply andb_prop in Hall as [Hc _].
    apply negb_true_iff in Hc. exact Hc.
Qed.

Lemma strlen_zero (s : string) : (Posix.strlen s =? 0)%Z = is_empty s.
Proof. destruct s; reflexivity. Qed.

Lemma is_empty_append (a b : string) :
  is_empty b = false -> is_empty (a +:+ b) = false.
Proof.
  destruct a; [rewrite append_nil_l; auto | rewrite append_cons; reflexivity].
Qed.

(** [normalize] of a path that ends in a file name: the name is kept,
    and what stands before it does not depend on it. *)
Lemma normalize_tail (X : string) :
  exists Q, (Q = "" \/ exists Q0, Q = Q0 +:+ "/")
    /\ forall f, plain_name f = true ->
         Posix.normalize (X +:+ "/" +:+ f) = Q +:+ f.
Proof.
  set (a := PosixResolve.is_absolute (X +:+ "/")).
  destruct (concat_snoc (Posix.normalize_segments (negb a) (Posix.split X) []))
    as (P & HP & Hc).
  exists (if a then "/" +:+ P else P). split.
  - destruct a; [| exact HP]. right. destruct HP as [-> | [P0 ->]].
    + exists "". reflexivity.
    + exists ("/" +:+ P0). rewrite !append_assoc. reflexivity.
  - intros f Hf. destruct (plain_name_inv f Hf) as (Hl & _ & Hfree & H1 & H2 & H3).
    assert (Hne : is_empty f = false) by (rewrite <- strlen_zero; exact Hl).
    assert (Hne' : is_empty ("/" +:+ f) = false) by reflexivity.
    pose proof (ends_with_slash_plain (X +:+ "/") f Hne Hfree) as Hend.
    rewrite append_assoc in Hend.
    unfold Posix.normalize.
    rewrite strlen_zero, (is_empty_append X _ Hne'), Hend.
    replace (match X +:+ "/" +:+ f with
             | EmptyString => false
             | String c _ => Posix.is_slash c
             end) with a.
    2:{ unfold a, PosixResolve.is_absolute. rewrite slash_append.
        destruct X; reflexivity. }
    rewrite (split_snoc X f Hfree),
      (normalize_segments_snoc _ f _ H1 H2 H3), Hc.
    rewrite strlen_zero, (is_empty_append P f Hne).
    destruct a; [rewrite append_assoc |]; reflexivity.
Qed.

Lemma normalize_plain (f : string) :
  plain_name f = true -> Posix.normalize f = f.
Proof.
  intros Hf. destruct (plain_name_inv f Hf) as (Hl & Habs & Hfree & H1 & H2 & H3).
  assert (Hne : is_empty f = false) by (rewrite <- strlen_zero; exact Hl).
  pose proof (ends_with_slash_plain "" f Hne Hfree) as Hend.
  rewrite append_nil_l in Hend.
  unfold Posix.normalize. rewrite Hl, Hend.
  replace (match f with EmptyString => false | String c _ => Posix.is_slash c end)
    with false by (symmetry; exact Habs).
  rewrite (split_plain f Hfree). cbn [Posix.normalize_segments negb].
  rewrite H1, H2, H3. cbn [orb List.rev app String.concat]. rewrite Hl. reflexivity.
Qed.

(** [join(bundle, dir, file)] for a file name. *)
Lemma join_shape (b d : string) :
  exists Q, (Q = "" \/ exists Q0, Q = Q0 +:+ "/")
    /\ forall f, plain_name f = true -> Posix.join [b; d; f] = Q +:+ f.
Proof.
  destruct (normalize_tail (b +:+ "/" +:+ d)) as (Q1 & HQ1 & H1).
  destruct (normalize_tail b) as (Q2 & HQ2 & H2).
  destruct (normalize_tail d) as (Q3 & HQ3 & H3).
  exists (if (Posix.strlen b =? 0)%Z
          then if (Posix.strlen d =? 0)%Z then "" else Q3
          else if (Posix.strlen d =? 0)%Z then Q2 else Q1).
  split.
  - destruct (Posix.strlen b =? 0)%Z, (Posix.strlen d =? 0)%Z; auto.
  - intros f Hf. destruct (plain_name_inv f Hf) as (Hl & _).
    unfold Posix.join. cbn [List.filter]. rewrite Hl.
    destruct (Posix.strlen b =? 0)%Z, (Posix.strlen d =? 0)%Z; cbn [negb].
    + rewrite append_nil_l. exact (normalize_plain f Hf).
    + rewrite <- (H3 f Hf). reflexivity.
    + rewrite <- (H2 f Hf). reflexivity.
    + rewrite <- (H1 f Hf).
      change (String.concat "/" [b; d; f]) with (b +:+ "/" +:+ d +:+ "/" +:+ f).
      rewrite !append_assoc. reflexivity.
Qed.

Lemma segments_shape (cwd Q : string) :
  (Q = "" \/ exists Q0, Q = Q0 +:+ "/") ->
  exists S, forall f, plain_name f = true -> segments cwd (Q +:+ f) = S ++ [f].
Proof.
  intros [-> | [Q0 ->]].
  - exists (Posix.normalize_segments false (Posix.split cwd) []).
    intros f Hf. destruct (plain_name_inv f Hf) as (_ & Habs & Hfree & H1 & H2 & H3).
    rewrite append_nil_l. unfold segments. rewrite Habs.
    rewrite (split_snoc cwd f Hfree). apply normalize_segments_snoc; assumption.
  - destruct (PosixResolve.is_absolute (Q0 +:+ "/")) eqn:Ea.
    + exists (Posix.normalize_segments false (Posix.split Q0) []).
      intros f Hf. destruct (plain_name_inv f Hf) as (_ & _ & Hfree & H1 & H2 & H3).
      unfold segments. rewrite is_absolute_app, Ea
        by (apply is_empty_append; reflexivity).
      rewrite append_assoc, (split_snoc Q0 f Hfree).
      apply normalize_segments_snoc; assumption.
    + exists (Posix.normalize_segments false (Posix.split (cwd +:+ "/" +:+ Q0)) []).
      intros f Hf. destruct (plain_name_inv f Hf) as (_ & _ & Hfree & H1 & H2 & H3).
      unfold segments. rewrite is_absolute_app, Ea
        by (apply is_empty_append; reflexivity).
      replace (cwd +:+ "/" +:+ (Q0 +:+ "/") +:+ f)
        with ((cwd +:+ "/" +:+ Q0) +:+ "/" +:+ f)
        by (rewrite !append_assoc; reflexivity).
      rewrite (split_snoc _ f Hfree).
      apply normalize_segments_snoc; assumption.
Qed.

Lemma strip_prefix_snoc (R : list string) :
  forall S f p,
    strip_prefix R (S ++ [f]) = Some p -> p <> [] ->
    exists ds, p = ds ++ [f] /\ strip_prefix R S = Some ds.
Proof.
  induction R as [| r R IH]; intros S f p H Hp.
  - cbn in H. injection H as <-. exists S. split; reflexivity.
  - destruct S as [| s S].
    + cbn in H. destruct (String.eqb r f); [| discriminate].
      destruct R; [| discriminate]. injection H as <-. congruence.
    + cbn [app strip_prefix] in H |- *.
      destruct (String.eqb r s); [| discriminate]. exact (IH S f p H Hp).
Qed.

Lemma strip_prefix_app (R : list string) :
  forall S ds f, strip_prefix R S = Some ds ->
    strip_prefix R (S ++ [f]) = Some (ds ++ [f]).
Proof.
  induction R as [| r R IH]; intros S ds f H.
  - cbn in H |- *. injection H as <-. reflexivity.
  - destruct S as [| s S]; [discriminate |].
    cbn [app strip_prefix] in H |- *.
    destruct (String.eqb r s); [| discriminate]. exact (IH S ds f H).
Qed.

(** The place of a file of the handler directory: the directory's place
    followed by the file name, the same directory for every file name. *)
Lemma below_bundle_shape (cwd b d f : string) (p : relpath) :
  plain_name f = true ->
  below_bundle cwd b d f = Some p -> p <> [] ->
  exists ds, p = ds ++ [f]
    /\ forall f', plain_name f' = true -> below_bundle cwd b d f' = Some (ds ++ [f']).
Proof.
  intros Hf H Hp. unfold below_bundle, locate in *.
  destruct (join_shape b d) as (Q & HQ & Hj).
  destruct (segments_shape cwd Q HQ) as (S & HS).
  rewrite (Hj f Hf), (HS f Hf) in H.
  destruct (strip_prefix_snoc _ S f p H Hp) as (ds & -> & Hds).
  exists ds. split; [reflexivity |].
  intros f' Hf'. rewrite (Hj f' Hf'), (HS f' Hf').
  exact (strip_prefix_app _ S ds f' Hds).
Qed.

Lemma module_file_is_a_name (m : string) :
  is_empty m = false -> free_of "/" m = true -> plain_name (m +:+ ".mjs") = true.
Proof.
  intros Hm Hfree.
  assert (Hlen : (5 <= String.length (m +:+ ".mjs"))%nat).
  { rewrite append_length. destruct m; [discriminate |]. cbn. lia. }
  unfold plain_name. rewrite (is_empty_append m ".mjs" eq_refl). cbn [negb andb].
  assert (Hf : free_of "/" (m +:+ ".mjs") = true).
  { unfold free_of in *. rewrite chars_append, List.forallb_app, Hfree. reflexivity. }
  rewrite Hf. cbn [andb].
  apply andb_true_intro. split; apply negb_true_iff, String.eqb_neq; intros E;
    rewrite E in Hlen; cbn in Hlen; lia.
Qed.

Lemma well_formed_module (s : HandlerSpec) :
  well_formed s = true -> plain_name (original_module s) = true.
Proof.
  unfold well_formed. intros H.
  apply andb_prop in H as [H _]. apply andb_prop in H as [H _].
  apply andb_prop in H as [H _]. apply andb_prop in H as [H1 H2].
  apply negb_true_iff in H1. exact (module_file_is_a_name _ H1 H2).
Qed.

(** ** The name and the place of the generated module *)

Lemma wrapper_module_export (bundlePath : string) (s : HandlerSpec) :
  well_formed s = true ->
  exists body,
    wrapper_module (args_of bundlePath s) = "export const handler = " +:+ body.
Proof.
  intros Hwf.
  destruct (wrapper_of_spec {| cwd := ""; paths_temp := ""; aws_region := "";
                               bootstrap_forRegion := fun r => r;
                               physical_name := fun n => n; role_arn := fun n => n |}
              bundlePath s Hwf) as (_ & _ & _ & ->).
  set (rest := spec_injections s ++ _).
  assert (Hrest : exists x xs, rest = x :: xs).
  { unfold rest. destruct (spec_injections s); cbn; eauto. }
  destruct Hrest as (x & xs & ->).
  change (String.concat newline (wrapper_header (spec_streaming s) :: x :: xs))
    with (wrapper_header (spec_streaming s) +:+ newline +:+ String.concat newline (x :: xs)).
  destruct (spec_streaming s); cbn [wrapper_header].
  - exists ("awslambda.streamifyResponse(async (event, context) => {"
            +:+ newline +:+ String.concat newline (x :: xs)).
    rewrite <- append_assoc. reflexivity.
  - exists ("async (event, context) => {"
            +:+ newline +:+ String.concat newline (x :: xs)).
    rewrite <- append_assoc. reflexivity.
Qed.

Lemma wrapHandler_resolved (app : App) (args : FunctionArgs) (w w' : World)
    (r : string) :
  args_injections args <> [] ->
  wrapHandler app args w = (inr r, w') ->
  r = wrapper_entry args
  /\ events w' = events w ++ [EvWriteFile (wrapper_file args)]
  /\ tempFiles w' = tempFiles w
  /\ match wrapper_path app args with
     | Some p => write_node (bundleDir w) p (wrapper_module args) = Some (bundleDir w')
     | None => bundleDir w' = bundleDir w
     end.
Proof.
  intros Hi H. rewrite (wrapHandler_run app args w Hi) in H.
  destruct (wrapper_path app args) as [p |].
  - destruct (write_node (bundleDir w) p (wrapper_module args)) as [b' |];
      [| discriminate].
    injection H as <- <-. repeat split.
  - injection H as <- <-. repeat split.
Qed.

Lemma app_snoc_inv {A : Type} (l r : list A) (x y : A) :
  l ++ [x] = (l ++ [y]) ++ r -> r = [] /\ x = y.
Proof.
  rewrite <- List.app_assoc. intros H. apply List.app_inv_head in H.
  injection H as -> <-. auto.
Qed.

(** The wrapper stands in the directory of the module it imports. *)
Lemma wrapper_is_beside_the_handler (app : App) (bundlePath : string) (s : HandlerSpec)
    (w w' : World) (r : string) (q : relpath) (m : bytes) :
  well_formed s = true ->
  spec_injections s <> [] ->
  wrapHandler app (args_of bundlePath s) w = (inr r, w') ->
  below_bundle (cwd app) bundlePath (entry_directory s) (original_module s) = Some q ->
  plain_file (bundleDir w) q = Some m ->
  exists ds, q = ds ++ [original_module s]
    /\ wrapper_path app (args_of bundlePath s) = Some (ds ++ ["server-index.mjs"])
    /\ readFile (bundleDir w') (ds ++ ["server-index.mjs"])
       = inr (wrapper_module (args_of bundlePath s))
    /\ (module_name s <> "server-index" -> readFile (bundleDir w') q = inr m).
Proof.
  intros Hwf Hi Hrun Hq Hm.
  destruct (wrapper_of_spec app bundlePath s Hwf) as (_ & _ & Hp & _).
  assert (Hne : q <> []) by (intros ->; discriminate Hm).
  destruct (below_bundle_shape _ _ _ _ q (well_formed_module s Hwf) Hq Hne)
    as (ds & -> & Hall).
  exists ds. split; [reflexivity |].
  rewrite (Hall "server-index.mjs" eq_refl) in Hp.
  split; [exact Hp |].
  destruct (wrapHandler_resolved app (args_of bundlePath s) w w' r Hi Hrun) as (_ & _ & _ & Hw).
  rewrite Hp in Hw. split.
  - exact (write_then_read _ _ _ _ Hw).
  - intros Hname.
    rewrite (write_frame _ _ _ _ (ds ++ [original_module s]) Hw).
    + exact (plain_file_read _ _ _ Hm).
    + intros r0 E. apply app_snoc_inv in E as [_ E].
      unfold original_module in E.
      change "server-index.mjs" with ("server-index" +:+ ".mjs") in E.
      apply append_inv_tail in E. exact (Hname E).
Qed.

(** C9: with injections, the generated module is always
    [server-index.mjs], its export always [handler]; it is written in the
    directory of the original handler, where it is read back with the
    generated text while the original module stays as it was, and the
    entry reference returned is [join(dir, "server-index.handler")]: two
    handler specifications with the same directory get the same entry
    reference and the same place for the module, whatever their module
    names, exported symbols, shapes and snippets. *)
Theorem C9_entry_reference_depends_on_the_directory_only
    (app : App) (bundlePath : string) (s1 s2 : HandlerSpec)
    (w1 w2 w1' w2' : World) (r1 r2 : string) :
  well_formed s1 = true -> well_formed s2 = true ->
  spec_injections s1 <> [] -> spec_injections s2 <> [] ->
  entry_directory s1 = entry_directory s2 ->
  wrapHandler app (args_of bundlePath s1) w1 = (inr r1, w1') ->
  wrapHandler app (args_of bundlePath s2) w2 = (inr r2, w2') ->
  r1 = Posix.join [entry_directory s1; newHandlerName +:+ "." +:+ newHandlerFunction]
  /\ r2 = r1
  /\ events w1'
     = events w1
       ++ [EvWriteFile (Posix.join [bundlePath; entry_directory s1;
                                    newHandlerName +:+ ".mjs"])]
  /\ events w2'
     = events w2
       ++ [EvWriteFile (Posix.join [bundlePath; entry_directory s1;
                                    newHandlerName +:+ ".mjs"])]
  /\ wrapper_path app (args_of bundlePath s2) = wrapper_path app (args_of bundlePath s1)
  /\ (exists body1 body2,
        wrapper_module (args_of bundlePath s1)
        = "export const " +:+ newHandlerFunction +:+ " = " +:+ body1
        /\ wrapper_module (args_of bundlePath s2)
           = "export const " +:+ newHandlerFunction +:+ " = " +:+ body2)
  /\ (forall q m,
        below_bundle (cwd app) bundlePath (entry_directory s1) (original_module s1)
        = Some q ->
        plain_file (bundleDir w1) q = Some m ->
        exists ds, q = ds ++ [original_module s1]
          /\ wrapper_path app (args_of bundlePath s1)
             = Some (ds ++ [newHandlerName +:+ ".mjs"])
          /\ readFile (bundleDir w1') (ds ++ [newHandlerName +:+ ".mjs"])
             = inr (wrapper_module (args_of bundlePath s1))
          /\ (module_name s1 <> newHandlerName -> readFile (bundleDir w1') q = inr m))
  /\ (forall q m,
        below_bundle (cwd app) bundlePath (entry_directory s2) (original_module s2)
        = Some q ->
        plain_file (bundleDir w2) q = Some m ->
        exists ds, q = ds ++ [original_module s2]
          /\ wrapper_path app (args_of bundlePath s2)
             = Some (ds ++ [newHandlerName +:+ ".mjs"])
          /\ readFile (bundleDir w2') (ds ++ [newHandlerName +:+ ".mjs"])
             = inr (wrapper_module (args_of bundlePath s2))
          /\ (module_name s2 <> newHandlerName -> readFile (bundleDir w2') q = inr m)).
Proof.
  intros Hwf1 Hwf2 Hi1 Hi2 Hdir H1 H2.
  pose proof (fun q m => wrapper_is_beside_the_handler app bundlePath s1 w1 w1' r1 q m
                           Hwf1 Hi1 H1) as Hb1.
  pose proof (fun q m => wrapper_is_beside_the_handler app bundlePath s2 w2 w2' r2 q m
                           Hwf2 Hi2 H2) as Hb2.
  destruct (wrapper_of_spec app bundlePath s1 Hwf1) as (He1 & Hf1 & Hp1 & _).
  destruct (wrapper_of_spec app bundlePath s2 Hwf2) as (He2 & Hf2 & Hp2 & _).
  destruct (wrapHandler_resolved app (args_of bundlePath s1) w1 w1' r1 Hi1 H1)
    as (-> & Hev1 & _).
  destruct (wrapHandler_resolved app (args_of bundlePath s2) w2 w2' r2 Hi2 H2)
    as (-> & Hev2 & _).
  split; [exact He1 |]. split; [rewrite He1, He2, Hdir; reflexivity |].
  split; [rewrite Hev1, Hf1; reflexivity |].
  split; [rewrite Hev2, Hf2, Hdir; reflexivity |].
  split; [rewrite Hp1, Hp2, Hdir; reflexivity |].
  split; [| split; [exact Hb1 | exact Hb2]].
  destruct (wrapper_module_export bundlePath s1 Hwf1) as [b1 Hb1'].
  destruct (wrapper_module_export bundlePath s2 Hwf2) as [b2 Hb2'].
  exists b1, b2. split; [exact Hb1' | exact Hb2'].
Qed.

Lemma C9_entry_reference_witness :
  fst (wrapHandler sample_app (args_of "/work/dist" (sample_spec false ["  a();"]))
         (fresh_world bundle_src))
  = inr "src/server-index.handler"
  /\ fst (wrapHandler sample_app (args_of "/work/dist" other_spec)
            (fresh_world bundle_src))
     = inr "src/server-index.handler"
  /\ events (snd (wrapHandler sample_app
                    (args_of "/work/dist" (sample_spec false ["  a();"]))
                    (fresh_world bundle_src)))
     = [EvWriteFile "/work/dist/src/server-index.mjs"]
  /\ (exists ds, ["src"; "index.mjs"] = ds ++ ["index.mjs"]
        /\ readFile
             (bundleDir (snd (wrapHandler sample_app
                                (args_of "/work/dist" (sample_spec false ["  a();"]))
                                (fresh_world bundle_src))))
             (ds ++ ["server-index.mjs"])
           = inr (wrapper_module (args_of "/work/dist" (sample_spec false ["  a();"])))
        /\ readFile
             (bundleDir (snd (wrapHandler sample_app
                                (args_of "/work/dist" (sample_spec false ["  a();"]))
                                (fresh_world bundle_src))))
             ["src"; "index.mjs"]
           = inr "export const handler = 1;")
  /\ (exists ds, ["src"; "other.mjs"] = ds ++ ["other.mjs"]
        /\ readFile
             (bundleDir (snd (wrapHandler sample_app (args_of "/work/dist" other_spec)
                                (fresh_world bundle_src))))
             (ds ++ ["server-index.mjs"])
           = inr (wrapper_module (args_of "/work/dist" other_spec))).
Proof.
  pose proof (C9_entry_reference_depends_on_the_directory_only sample_app "/work/dist"
                (sample_spec false ["  a();"]) other_spec
                (fresh_world bundle_src) (fresh_world bundle_src)
                (snd (wrapHandler sample_app
                        (args_of "/work/dist" (sample_spec false ["  a();"]))
                        (fresh_world bundle_src)))
                (snd (wrapHandler sample_app (args_of "/work/dist" other_spec)
                        (fresh_world bundle_src)))
                "src/server-index.handler" "src/server-index.handler"
                eq_refl eq_refl ltac:(discriminate) ltac:(discriminate) eq_refl
                eq_refl eq_refl)
    as (_ & _ & Hev & _ & _ & _ & Hb1 & Hb2).
  split; [reflexivity |]. split; [reflexivity |]. split; [exact Hev |]. split.
  - destruct (Hb1 ["src"; "index.mjs"] "export const handler = 1;" eq_refl eq_refl)
      as (ds & Hq & _ & Hr & Hk).
    exists ds. split; [exact Hq |]. split; [exact Hr |].
    apply Hk. discriminate.
  - destruct (Hb2 ["src"; "other.mjs"] "export const main = 2;" eq_refl eq_refl)
      as (ds & Hq & _ & Hr & _).
    exists ds. split; [exact Hq | exact Hr].
Defined.

(** ** What the generated module does *)

Lemma render_wrapper_program (bundlePath : string) (s : HandlerSpec) :
  well_formed s = true ->
  wrapper_module (args_of bundlePath s) = render (wrapper_program s).
Proof.
  intros Hwf.
  destruct (wrapper_of_spec {| cwd := ""; paths_temp := ""; aws_region := "";
                               bootstrap_forRegion := fun r => r;
                               physical_name := fun n => n; role_arn := fun n => n |}
              bundlePath s Hwf) as (_ & _ & _ & ->).
  unfold render, wrapper_program. cbn [prog_streaming prog_body app].
  rewrite List.map_app, List.map_map. cbn [render_statement List.map].
  rewrite List.map_id, <- List.app_assoc. reflexivity.
Qed.

Lemma exec_snippets (engine : string -> Outcome) (rest : list Statement) :
  forall (snippets : list string) (rawHandler : option string),
    (forall src, In src snippets -> engine src = Completes) ->
    exec engine rawHandler (List.map Inject snippets ++ rest)
    = List.map Ran snippets ++ exec engine rawHandler rest.
Proof.
  induction snippets as [| x xs IH]; intros rh Hall; [reflexivity |].
  cbn [List.map app exec]. rewrite (Hall x (or_introl eq_refl)).
  rewrite IH by (intros src Hin; apply Hall; right; exact Hin). reflexivity.
Qed.

(** Every snippet completing, the handler is loaded after the last of
    them, called on the parameters of the exported function, and its
    result returned. *)
Lemma invoke_completes (engine : string -> Outcome) (s : HandlerSpec) :
  (forall src, In src (spec_injections s) -> engine src = Completes) ->
  invoke engine (wrapper_program s)
  = List.map Ran (spec_injections s)
    ++ [Loaded ("./" +:+ module_name s +:+ ".mjs");
        Called (exported_symbol s) ["event"; "context"]; Forwarded].
Proof.
  intros Hall. unfold invoke, wrapper_program. cbn [prog_body].
  rewrite (exec_snippets engine _ _ None Hall). reflexivity.
Qed.

(** A snippet that does not complete ends the invocation: the handler
    is neither loaded nor called. *)
Lemma invoke_stops (engine : string -> Outcome) (s : HandlerSpec)
    (before after : list string) (src : string) :
  spec_injections s = before ++ src :: after ->
  (forall x, In x before -> engine x = Completes) ->
  engine src <> Completes ->
  invoke engine (wrapper_program s)
  = List.map Ran before
    ++ [Ran src; match engine src with Throws => Threw | _ => LeftEarly end].
Proof.
  intros Hs Hall Hsrc. unfold invoke, wrapper_program. cbn [prog_body].
  rewrite Hs, List.map_app, <- List.app_assoc.
  rewrite (exec_snippets engine _ _ None Hall).
  cbn [List.map app exec]. destruct (engine src); [congruence | |]; reflexivity.
Qed.

(** C4: with no injection [wrapHandler] returns the handler reference it
    was given and leaves the world as it is (no file, no call).  With
    injections, and a place for the module in the bundle, it writes
    there the module that renders this program, in the buffered or the
    streaming shape: the snippets in the declared order, the dynamic
    import of the original module that binds the original exported
    symbol, the return of its call on the parameters of the exported
    function.  Invoked, the exported function runs the snippets in that
    order, then loads the handler module, calls the symbol on [event]
    and [context] and returns what it returns, provided every snippet
    completes; a snippet that returns or throws ends the invocation
    before the handler is loaded. *)
Theorem C4_wrapHandler_passes_through_or_wraps
    (app : App) (bundlePath : string) (s : HandlerSpec) (w : World) :
  well_formed s = true ->
  (spec_injections s = [] ->
     wrapHandler app (args_of bundlePath s) w = (inr (entry_reference s), w))
  /\ (spec_injections s <> [] ->
      forall p,
        below_bundle (cwd app) bundlePath (entry_directory s) "server-index.mjs"
        = Some p ->
        plain_slot (bundleDir w) p = true ->
        fst (wrapHandler app (args_of bundlePath s) w)
        = inr (Posix.join [entry_directory s; "server-index.handler"])
        /\ plain_file (bundleDir (snd (wrapHandler app (args_of bundlePath s) w))) p
           = Some (render (wrapper_program s))
        /\ events (snd (wrapHandler app (args_of bundlePath s) w))
           = events w
             ++ [EvWriteFile (Posix.join [bundlePath; entry_directory s;
                                          "server-index.mjs"])])
  /\ render (wrapper_program s)
     = String.concat newline
         (wrapper_header (spec_streaming s)
          :: spec_injections s
             ++ [wrapper_import (exported_symbol s) (module_name s);
                 wrapper_return; wrapper_footer (spec_streaming s)])
  /\ (forall engine,
        (forall src, In src (spec_injections s) -> engine src = Completes) ->
        invoke engine (wrapper_program s)
        = List.map Ran (spec_injections s)
          ++ [Loaded ("./" +:+ module_name s +:+ ".mjs");
              Called (exported_symbol s) ["event"; "context"]; Forwarded])
  /\ (forall engine before src after,
        spec_injections s = before ++ src :: after ->
        (forall x, In x before -> engine x = Completes) ->
        engine src <> Completes ->
        invoke engine (wrapper_program s)
        = List.map Ran before
          ++ [Ran src; match engine src with Throws => Threw | _ => LeftEarly end]).
Proof.
  intros Hwf. destruct (wrapper_of_spec app bundlePath s Hwf) as (He & Hf & Hp & Hm).
  pose proof (render_wrapper_program bundlePath s Hwf) as Hr.
  split; [| split; [| split; [| split]]].
  - intros Hinj. apply wrapHandler_empty. exact Hinj.
  - intros Hinj p Hbelow Hslot.
    rewrite <- Hp in Hbelow.
    destruct (write_plain_slot (bundleDir w) (wrapper_module (args_of bundlePath s))
                p Hslot) as (b' & Hw & Hfile).
    rewrite (wrapHandler_run app (args_of bundlePath s) w Hinj), Hbelow, Hw.
    cbn [fst snd set_bundle bundleDir events add_events].
    rewrite He, Hf, <- Hr. repeat split. exact Hfile.
  - rewrite <- Hr. exact Hm.
  - intros engine. apply invoke_completes.
  - intros engine before src after. apply invoke_stops.
Qed.

Lemma C4_wrapHandler_witness :
  (fst (wrapHandler sample_app
          (args_of "/work/dist" (sample_spec true ["  a();"; "  b();"]))
          (fresh_world bundle_src))
   = inr "src/server-index.handler"
   /\ plain_file
        (bundleDir (snd (wrapHandler sample_app
                           (args_of "/work/dist" (sample_spec true ["  a();"; "  b();"]))
                           (fresh_world bundle_src))))
        ["src"; "server-index.mjs"]
      = Some (render (wrapper_program (sample_spec true ["  a();"; "  b();"])))
   /\ invoke returns_at_once (wrapper_program (sample_spec true ["  a();"; "  b();"]))
      = [Ran "  a();"; Ran "  b();"; Loaded "./index.mjs";
         Called "handler" ["event"; "context"]; Forwarded])
  /\ (plain_file
        (bundleDir (snd (wrapHandler sample_app
                           (args_of "/work/dist" (sample_spec false ["  a();"; "  b();"]))
                           (fresh_world bundle_src))))
        ["src"; "server-index.mjs"]
      = Some (render (wrapper_program (sample_spec false ["  a();"; "  b();"])))
      /\ invoke returns_at_once (wrapper_program (sample_spec false ["  a();"; "  b();"]))
         = [Ran "  a();"; Ran "  b();"; Loaded "./index.mjs";
            Called "handler" ["event"; "context"]; Forwarded])
  /\ wrapHandler sample_app (args_of "/work/dist" (sample_spec false []))
       (fresh_world bundle_src)
     = (inr "src/index.handler", fresh_world bundle_src).
Proof.
  split; [| split].
  - pose proof (C4_wrapHandler_passes_through_or_wraps sample_app "/work/dist"
                  (sample_spec true ["  a();"; "  b();"]) (fresh_world bundle_src)
                  eq_refl) as (_ & Hwrap & _ & Hrun & _).
    destruct (Hwrap ltac:(discriminate) ["src"; "server-index.mjs"] eq_refl eq_refl)
      as (Hentry & Hfile & _).
    split; [exact Hentry |]. split; [exact Hfile |].
    apply (Hrun returns_at_once).
    intros src [<- | [<- | []]]; reflexivity.
  - pose proof (C4_wrapHandler_passes_through_or_wraps sample_app "/work/dist"
                  (sample_spec false ["  a();"; "  b();"]) (fresh_world bundle_src)
                  eq_refl) as (_ & Hwrap & _ & Hrun & _).
    destruct (Hwrap ltac:(discriminate) ["src"; "server-index.mjs"] eq_refl eq_refl)
      as (_ & Hfile & _).
    split; [exact Hfile |].
    apply (Hrun returns_at_once).
    intros src [<- | [<- | []]]; reflexivity.
  - pose proof (C4_wrapHandler_passes_through_or_wraps sample_app "/work/dist"
                  (sample_spec false []) (fresh_world bundle_src) eq_refl)
      as (Hempty & _).
    exact (Hempty eq_refl).
Defined.

(** C4, the claim as the spec words it, refuted: a snippet that is a
    [return] statement is written into the module like any other, and
    the exported function then returns before the handler module is
    loaded; the original symbol is never called. *)
Lemma C4_a_snippet_that_returns_skips_the_handler :
  plain_file
    (bundleDir (snd (wrapHandler sample_app
                       (args_of "/work/dist" (sample_spec false ["  return 1;"]))
                       (fresh_world bundle_src))))
    ["src"; "server-index.mjs"]
  = Some (render (wrapper_program (sample_spec false ["  return 1;"])))
  /\ render (wrapper_program (sample_spec false ["  return 1;"]))
     = String.concat newline
         ["export const handler = async (event, context) => {";
          "  return 1;";
          "  const { handler: rawHandler} = await import(" +:+ dquote
            +:+ "./index.mjs" +:+ dquote +:+ ");";
          "  return rawHandler(event, context);";
          "};"]
  /\ invoke returns_at_once (wrapper_program (sample_spec false ["  return 1;"]))
     = [Ran "  return 1;"; LeftEarly]
  /\ ~ In (Loaded "./index.mjs")
         (invoke returns_at_once (wrapper_program (sample_spec false ["  return 1;"])))
  /\ ~ In (Called "handler" ["event"; "context"])
         (invoke returns_at_once (wrapper_program (sample_spec false ["  return 1;"]))).
Proof.
  vm_compute. repeat split.
  - intros [H | [H | []]]; discriminate H.
  - intros [H | [H | []]]; discriminate H.
Qed.

(** The two shapes, written out. *)
Example wrapper_streaming :
  fst (wrapHandler sample_app
         (args_of "/work/dist" (sample_spec true ["  a();"; "  b();"]))
         (fresh_world bundle_src)) = inr "src/server-index.handler"
  /\ readFile
       (bundleDir (snd (wrapHandler sample_app
                          (args_of "/work/dist" (sample_spec true ["  a();"; "  b();"]))
                          (fresh_world bundle_src))))
       ["src"; "server-index.mjs"]
     = inr (String.concat newline
              ["export const handler = awslambda.streamifyResponse(async (event, context) => {";
               "  a();";
               "  b();";
               "  const { handler: rawHandler} = await import(" +:+ dquote
                 +:+ "./index.mjs" +:+ dquote +:+ ");";
               "  return rawHandler(event, context);";
               "});"]).
Proof. split; vm_compute; reflexivity. Qed.

Example wrapper_buffered :
  readFile
    (bundleDir (snd (wrapHandler sample_app
                       (args_of "/work/dist" (sample_spec false ["  a();"; "  b();"]))
                       (fresh_world bundle_src))))
    ["src"; "server-index.mjs"]
  = inr (String.concat newline
           ["export const handler = async (event, context) => {";
            "  a();";
            "  b();";
            "  const { handler: rawHandler} = await import(" +:+ dquote
              +:+ "./index.mjs" +:+ dquote +:+ ");";
            "  return rawHandler(event, context);";
            "};"]).
Proof. vm_compute. reflexivity. Qed.

(** A handler directory that does not exist makes the write fail, and
    with it the outputs that wait for the new handler. *)
Example wrapper_missing_directory :
  fst (wrapHandler sample_app (args_of "/work/dist" (sample_spec false ["  a();"]))
         (fresh_world bundle_index))
  = inl {| err_code := ENOENT; err_path := "/work/dist/src/server-index.mjs" |}.
Proof. vm_compute. reflexivity. Qed.

(** ** Symbolic links *)
















(** A link whose target is a directory is walked, a link whose target
    is gone is listed and makes the read fail. *)
Example calculateHash_follows_links :
  globSync hash_glob_options (bundle_links "2") = [["a.js"]; ["data"; "cfg.json"]]
  /\ hashed_bytes (bundle_links "2") = Some "12"
  /\ hash_of sample_app sample_args (bundle_links "2")
     <> hash_of sample_app sample_args (bundle_links "3").
Proof. vm_compute. repeat split. intros H. discriminate H. Qed.

(** ** The storage key *)

Lemma publish_present (file : BucketObject) (s : ObjectStore) :
  is_Some (objects (snd (publish file s)) !! (object_bucket file, object_key file)).
Proof.
  unfold publish. cbn [artifact_location loc_bucket loc_key].
  destruct (objects s !! (object_bucket file, object_key file)) eqn:E; cbn [snd objects].
  - rewrite E. eauto.
  - rewrite lookup_insert_eq. eauto.
Qed.

Lemma publish_again (file again : BucketObject) (s : ObjectStore) :
  object_bucket again = object_bucket file ->
  object_key again = object_key file ->
  snd (publish again (snd (publish file s))) = snd (publish file s).
Proof.
  intros Hb Hk. destruct (publish_present file s) as [x Hx].
  unfold publish at 1. cbn [artifact_location loc_bucket loc_key].
  rewrite Hb, Hk, Hx. reflexivity.
Qed.

Lemma publish_uploads (file : BucketObject) (s : ObjectStore) :
  uploads (snd (publish file s)) <= S (uploads s).
Proof.
  unfold publish. destruct (objects s !! _); cbn; lia.
Qed.

Lemma publish_other (file : BucketObject) (s : ObjectStore) (k : string * string) :
  k <> (object_bucket file, object_key file) ->
  objects (snd (publish file s)) !! k = objects s !! k.
Proof.
  intros Hk. unfold publish. cbn [artifact_location loc_bucket loc_key].
  destruct (objects s !! (object_bucket file, object_key file)); cbn [snd objects].
  - reflexivity.
  - rewrite lookup_insert_ne; [reflexivity | congruence].
Qed.

(** C3: the key of the bucket object is
    [<resource-name>-code-<content-hash>.zip], a function of the resource
    name and the hash alone.  Publishing the same name and hash again
    gives the same key, finds the object present and uploads nothing, so
    the two calls upload at most once; a changed hash gives another key,
    and publishing under it leaves the old object as it is. *)
Theorem C3_key_is_name_code_hash_zip
    (app : App) (name : string) (args : FunctionArgs)
    (h h' zip zip' : string) (s : ObjectStore) :
  h <> h' ->
  object_key (createBucketObject app name args h zip)
  = name +:+ "-code-" +:+ h +:+ ".zip"
  /\ object_key (createBucketObject app name args h zip')
     = object_key (createBucketObject app name args h zip)
  /\ snd (publish (createBucketObject app name args h zip')
            (snd (publish (createBucketObject app name args h zip) s)))
     = snd (publish (createBucketObject app name args h zip) s)
  /\ uploads (snd (publish (createBucketObject app name args h zip')
                     (snd (publish (createBucketObject app name args h zip) s))))
     <= S (uploads s)
  /\ object_key (createBucketObject app name args h' zip')
     <> object_key (createBucketObject app name args h zip)
  /\ objects (snd (publish (createBucketObject app name args h' zip')
                     (snd (publish (createBucketObject app name args h zip) s))))
       !! (object_bucket (createBucketObject app name args h zip),
           object_key (createBucketObject app name args h zip))
     = objects (snd (publish (createBucketObject app name args h zip) s))
       !! (object_bucket (createBucketObject app name args h zip),
           object_key (createBucketObject app name args h zip)).
Proof.
  intros Hne.
  assert (Hkey : object_key (createBucketObject app name args h' zip')
                 <> object_key (createBucketObject app name args h zip)).
  { cbn [createBucketObject object_key]. intros E.
    apply append_inv_head in E. apply append_inv_head in E.
    apply append_inv_tail in E. congruence. }
  split; [reflexivity |]. split; [reflexivity |]. split.
  - apply publish_again; reflexivity.
  - split.
    + rewrite publish_again by reflexivity. apply publish_uploads.
    + split; [exact Hkey |].
      apply publish_other. intros E. apply Hkey. congruence.
Qed.

Lemma C3_key_witness :
  object_key (sample_file "6b86b273") = "MyFunction" +:+ "-code-" +:+ "6b86b273" +:+ ".zip"
  /\ object_key (sample_file "6b86b273") = object_key (sample_file "6b86b273")
  /\ snd (publish (sample_file "6b86b273") (snd (publish (sample_file "6b86b273") empty_store)))
     = snd (publish (sample_file "6b86b273") empty_store)
  /\ uploads (snd (publish (sample_file "6b86b273")
                     (snd (publish (sample_file "6b86b273") empty_store))))
     <= S (uploads empty_store)
  /\ object_key (sample_file "3fdba35f") <> object_key (sample_file "6b86b273")
  /\ objects (snd (publish (sample_file "3fdba35f")
                     (snd (publish (sample_file "6b86b273") empty_store))))
       !! (object_bucket (sample_file "6b86b273"), object_key (sample_file "6b86b273"))
     = objects (snd (publish (sample_file "6b86b273") empty_store))
       !! (object_bucket (sample_file "6b86b273"), object_key (sample_file "6b86b273")).
Proof.
  apply (C3_key_is_name_code_hash_zip sample_app "MyFunction" sample_args
           "6b86b273" "3fdba35f"
           "/work/.sst/temp/MyFunction/code.zip" "/work/.sst/temp/MyFunction/code.zip"
           empty_store).
  discriminate.
Defined.

Example storage_key_format :
  object_key (sample_file "6b86b273") = "MyFunction-code-6b86b273.zip"
  /\ uploads (snd (publish (sample_file "6b86b273")
                     (snd (publish (sample_file "6b86b273") empty_store)))) = 1%nat.
Proof. split; vm_compute; reflexivity. Qed.

(** ** C7: the code reference is never null *)

Lemma lifecycle_step_code (fn : LambdaFunction) (s : LifecycleStep) :
  fn_code fn <> None -> fn_code (lifecycle_step fn s) <> None.
Proof. destruct s; cbn; [auto | discriminate]. Qed.

Lemma lifecycle_code (steps : list LifecycleStep) :
  forall fn, fn_code fn <> None -> fn_code (lifecycle fn steps) <> None.
Proof.
  unfold lifecycle. induction steps as [| s steps IH]; intros fn H; cbn.
  - exact H.
  - apply IH. apply lifecycle_step_code. exact H.
Qed.

(** ** The Code Update Controller, one call at a time *)

Lemma job_step_transition (i : nat) (c : Controller) (j : CodeUpdateJob) :
  jobs c !! i = Some j ->
  job_step i c = c
  \/ exists s a cl lk,
       transition c i j s cl lk
       /\ job_step i c
          = {| cloud := cl; jobs := <[i := set_status j s a]> (jobs c);
               locks := lk; maxAttempts := maxAttempts c |}.
Proof.
  intros Hj. unfold job_step. rewrite Hj.
  assert (Hretry : forall f,
             in_flight (job_status j) = true ->
             exists s a cl lk,
               transition c i j s cl lk
               /\ retry c i j f
                  = {| cloud := cl; jobs := <[i := set_status j s a]> (jobs c);
                       locks := lk; maxAttempts := maxAttempts c |}).
  { intros f Hfl. unfold retry.
    destruct (maxAttempts c <=? S (job_attempts j))%nat.
    - exists (Failed f), (S (job_attempts j)), (cloud c),
        (delete (job_functionName j) (locks c)).
      split; [apply t_failed; exact Hfl | reflexivity].
    - exists (job_status j), (S (job_attempts j)), (cloud c), (locks c).
      split; [apply t_retry; exact Hfl | reflexivity]. }
  destruct (job_status j) eqn:Es.
  - (* Pending *)
    destruct (bool_decide (job_lastApplied j = Some (job_hash j))) eqn:Eb.
    + apply bool_decide_eq_true in Eb. right.
      exists Done, 0%nat, (cloud c), (locks c).
      split; [apply t_unchanged; assumption | reflexivity].
    + apply bool_decide_eq_false in Eb.
      destruct (locks c !! job_functionName j) eqn:El.
      * left. reflexivity.
      * right. exists AwaitingResourceActive, 0%nat, (cloud c),
          (<[job_functionName j := i]> (locks c)).
        split; [apply t_acquire; assumption | reflexivity].
  - (* AwaitingResourceActive *)
    right. destruct (cloud c !! job_functionName j) as [r |] eqn:Ec.
    + destruct (res_state r).
      * apply Hretry. reflexivity.
      * exists Applying, 0%nat, (cloud c), (locks c).
        split; [apply t_active; assumption | reflexivity].
    + exists (Failed fatal), (job_attempts j), (cloud c),
        (delete (job_functionName j) (locks c)).
      split; [apply t_failed; rewrite Es; reflexivity | reflexivity].
  - (* Applying *)
    right. destruct (cloud c !! job_functionName j) as [r |] eqn:Ec.
    + destruct (update_function_code r (job_location j)) as [r' |] eqn:Eu.
      * exists Verifying, 0%nat, (<[job_functionName j := r']> (cloud c)), (locks c).
        split; [eapply t_accepted; eassumption | reflexivity].
      * apply Hretry. reflexivity.
    + exists (Failed fatal), (job_attempts j), (cloud c),
        (delete (job_functionName j) (locks c)).
      split; [apply t_failed; rewrite Es; reflexivity | reflexivity].
  - (* Verifying *)
    right. destruct (cloud c !! job_functionName j) as [r |] eqn:Ec.
    + destruct (res_lastUpdate r) eqn:Eu.
      * apply Hretry. reflexivity.
      * exists Done, 0%nat, (cloud c), (delete (job_functionName j) (locks c)).
        split; [eapply t_applied; eassumption | reflexivity].
    + exists (Failed fatal), (job_attempts j), (cloud c),
        (delete (job_functionName j) (locks c)).
      split; [apply t_failed; rewrite Es; reflexivity | reflexivity].
  - left. reflexivity.
  - left. reflexivity.
Qed.

Lemma job_step_absent (i : nat) (c : Controller) :
  jobs c !! i = None -> job_step i c = c.
Proof. intros H. unfold job_step. rewrite H. reflexivity. Qed.

Lemma set_status_name (j : CodeUpdateJob) (s : JobStatus) (a : nat) :
  job_functionName (set_status j s a) = job_functionName j.
Proof. reflexivity. Qed.

Lemma lookup_job_updated (js : list CodeUpdateJob) (i k : nat) (j j' jk : CodeUpdateJob) :
  js !! i = Some j ->
  <[i := j']> js !! k = Some jk ->
  (k = i /\ jk = j') \/ (k <> i /\ js !! k = Some jk).
Proof.
  intros Hi Hk. destruct (decide (k = i)) as [-> | Hne].
  - left. split; [reflexivity |].
    rewrite list_lookup_insert_eq in Hk by (eapply lookup_lt_Some; exact Hi).
    congruence.
  - right. split; [exact Hne |].
    rewrite list_lookup_insert_ne in Hk by congruence. exact Hk.
Qed.

(** *** Mutual exclusion *)

Lemma job_step_holds_lock (i : nat) (c : Controller) :
  holds_lock c -> holds_lock (job_step i c).
Proof.
  intros Inv. destruct (jobs c !! i) as [j |] eqn:Ej.
  2:{ rewrite job_step_absent by exact Ej. exact Inv. }
  destruct (job_step_transition i c j Ej) as [-> | (s & a & cl & lk & Ht & ->)];
    [exact Inv |].
  intros k jk Hk Hfl. cbn [jobs locks] in *.
  destruct (lookup_job_updated _ _ _ _ _ _ Ej Hk) as [[-> ->] | [Hne Hk']].
  - rewrite set_status_name. cbn [set_status job_status] in Hfl.
    inversion Ht; subst; try discriminate.
    + apply lookup_insert_eq.
    + apply (Inv i j Ej). assumption.
    + apply (Inv i j Ej). rewrite H. reflexivity.
    + apply (Inv i j Ej). rewrite H. reflexivity.
  - pose proof (Inv k jk Hk' Hfl) as Hlock.
    inversion Ht; subst; try exact Hlock.
    + rewrite lookup_insert_ne; [exact Hlock |].
      intros E. rewrite E in H1. congruence.
    + rewrite lookup_delete_ne; [exact Hlock |].
      intros E. assert (Hi : locks c !! job_functionName j = Some i)
        by (apply (Inv i j Ej); rewrite H; reflexivity).
      rewrite E in Hi. congruence.
    + rewrite lookup_delete_ne; [exact Hlock |].
      intros E. assert (Hi : locks c !! job_functionName j = Some i)
        by (apply (Inv i j Ej); assumption).
      rewrite E in Hi. congruence.
Qed.

Lemma act_holds_lock (c : Controller) (a : Action) :
  holds_lock c -> holds_lock (act c a).
Proof.
  intros Inv. destruct a as [i | f | f h e cfg]; cbn [act].
  - apply job_step_holds_lock. exact Inv.
  - destruct (cloud c !! f); exact Inv.
  - destruct (cloud c !! f); exact Inv.
Qed.

Lemma run_holds_lock (schedule : list Action) :
  forall c, holds_lock c -> holds_lock (run schedule c).
Proof.
  unfold run. induction schedule as [| a schedule IH]; intros c Inv; cbn.
  - exact Inv.
  - apply IH. apply act_holds_lock. exact Inv.
Qed.

(** C8: from a state where no job has started and no lock is held,
    whatever the interleaving of the jobs' calls, of the provider's
    progress and of the declarative engine's own updates, two jobs for the
    same function name are never in flight together (awaiting, applying
    or verifying); in particular their Applying phases never overlap.
    The job in flight is the one that holds the lock named after the
    function. *)
Theorem C8_one_job_in_flight_per_function_name
    (c0 : Controller) (schedule : list Action)
    (i1 i2 : nat) (j1 j2 : CodeUpdateJob) :
  locks c0 = ∅ ->
  (forall i j, jobs c0 !! i = Some j -> job_status j = Pending) ->
  jobs (run schedule c0) !! i1 = Some j1 ->
  jobs (run schedule c0) !! i2 = Some j2 ->
  job_functionName j1 = job_functionName j2 ->
  in_flight (job_status j1) = true ->
  in_flight (job_status j2) = true ->
  i1 = i2
  /\ locks (run schedule c0) !! job_functionName j1 = Some i1
  /\ (job_status j1 = Applying -> job_status j2 = Applying -> j1 = j2).
Proof.
  intros Hlocks Hpending H1 H2 Hname Hf1 Hf2.
  assert (Inv : holds_lock (run schedule c0)).
  { apply run_holds_lock. intros i j Hj Hfl.
    rewrite (Hpending i j Hj) in Hfl. discriminate. }
  pose proof (Inv i1 j1 H1 Hf1) as L1.
  pose proof (Inv i2 j2 H2 Hf2) as L2.
  rewrite <- Hname in L2.
  assert (i1 = i2) by congruence. subst i2.
  split; [reflexivity |]. split; [exact L1 |].
  intros _ _. congruence.
Qed.

(** *** The code reference after a job *)

Lemma update_function_code_code (r r' : FunctionResource) (loc : ArtifactLocation) :
  update_function_code r loc = Some r' ->
  fn_code (res_fn r') = Some (S3Object (loc_bucket loc) (loc_key loc)).
Proof.
  unfold update_function_code.
  destruct (res_state r), (res_lastUpdate r); try discriminate.
  intros H. injection H as <-. reflexivity.
Qed.

Lemma engine_update_code (r : FunctionResource) (h : string) (e cfg : list (string * string)) :
  fn_code (res_fn (engine_update r h e cfg)) = fn_code (res_fn r).
Proof.
  unfold engine_update. destruct (res_state r), (res_lastUpdate r); reflexivity.
Qed.

Lemma code_of_insert (c : Controller) (f g : string) (r r' : FunctionResource)
    (js : list CodeUpdateJob) (lk : gmap string nat) (n : nat) :
  cloud c !! g = Some r ->
  fn_code (res_fn r') = fn_code (res_fn r) ->
  code_of {| cloud := <[g := r']> (cloud c); jobs := js; locks := lk; maxAttempts := n |} f
  = code_of c f.
Proof.
  intros Hg Hcode. unfold code_of. cbn [cloud].
  destruct (decide (g = f)) as [-> | Hne].
  - rewrite lookup_insert_eq, Hg. exact Hcode.
  - rewrite lookup_insert_ne by exact Hne. reflexivity.
Qed.

Lemma job_step_pushes (f : string) (loc : ArtifactLocation) (i : nat) (c : Controller) :
  pushes f loc c -> pushes f loc (job_step i c).
Proof.
  intros Inv. destruct (jobs c !! i) as [j |] eqn:Ej.
  2:{ rewrite job_step_absent by exact Ej. exact Inv. }
  destruct (job_step_transition i c j Ej) as [-> | (s & a & cl & lk & Ht & ->)];
    [exact Inv |].
  (* the code reference of [f] after the call *)
  assert (Hcode : code_of c f = Some (S3Object (loc_bucket loc) (loc_key loc)) ->
                  code_of {| cloud := cl; jobs := <[i := set_status j s a]> (jobs c);
                             locks := lk; maxAttempts := maxAttempts c |} f
                  = Some (S3Object (loc_bucket loc) (loc_key loc))).
  { intros Hc. inversion Ht; subst; try exact Hc.
    unfold code_of. cbn [cloud].
    destruct (decide (job_functionName j = f)) as [E | Hne].
    - rewrite E, lookup_insert_eq.
      destruct (Inv i j Ej E) as (Hloc & _ & _). rewrite <- Hloc.
      eapply update_function_code_code. eassumption.
    - rewrite lookup_insert_ne by exact Hne. exact Hc. }
  intros k jk Hk Hname. cbn [jobs] in Hk.
  destruct (lookup_job_updated _ _ _ _ _ _ Ej Hk) as [[-> ->] | [Hne Hk']].
  - rewrite set_status_name in Hname.
    destruct (Inv i j Ej Hname) as (Hloc & Hpend & Hdone).
    split; [exact Hloc |]. split.
    + cbn [set_status job_status job_lastApplied]. intros ->.
      inversion Ht; subst; try discriminate.
      apply Hpend. assumption.
    + cbn [set_status job_status]. intros Hs.
      inversion Ht; subst; try (destruct Hs; discriminate).
      * (* nothing to apply: excluded, no job has applied anything yet *)
        rewrite (Hpend H) in H0. discriminate.
      * apply Hcode. apply Hdone. exact Hs.
      * unfold code_of. cbn [cloud]. rewrite lookup_insert_eq.
        eapply update_function_code_code. eassumption.
      * apply Hdone. left. assumption.
  - destruct (Inv k jk Hk' Hname) as (Hloc & Hpend & Hdone).
    split; [exact Hloc |]. split; [exact Hpend |].
    intros Hs. apply Hcode. apply Hdone. exact Hs.
Qed.

Lemma act_pushes (f : string) (loc : ArtifactLocation) (c : Controller) (a : Action) :
  pushes f loc c -> pushes f loc (act c a).
Proof.
  intros Inv. destruct a as [i | g | g h e cfg]; cbn [act].
  - apply job_step_pushes. exact Inv.
  - destruct (cloud c !! g) as [r |] eqn:Eg; [| exact Inv].
    intros k jk Hk Hname. destruct (Inv k jk Hk Hname) as (Hloc & Hpend & Hdone).
    split; [exact Hloc |]. split; [exact Hpend |].
    intros Hs. unfold with_cloud. rewrite (code_of_insert c f g r); auto.
  - destruct (cloud c !! g) as [r |] eqn:Eg; [| exact Inv].
    intros k jk Hk Hname. destruct (Inv k jk Hk Hname) as (Hloc & Hpend & Hdone).
    split; [exact Hloc |]. split; [exact Hpend |].
    intros Hs. unfold with_cloud. rewrite (code_of_insert c f g r); auto.
    apply engine_update_code.
Qed.

Lemma run_pushes (f : string) (loc : ArtifactLocation) (schedule : list Action) :
  forall c, pushes f loc c -> pushes f loc (run schedule c).
Proof.
  unfold run. induction schedule as [| a schedule IH]; intros c Inv; cbn.
  - exact Inv.
  - apply IH. apply act_pushes. exact Inv.
Qed.

Lemma act_job_name (c : Controller) (a : Action) (i : nat) (j : CodeUpdateJob) :
  jobs (act c a) !! i = Some j ->
  exists j0, jobs c !! i = Some j0 /\ job_functionName j0 = job_functionName j.
Proof.
  destruct a as [k | g | g h e cfg]; cbn [act].
  - destruct (jobs c !! k) as [jk |] eqn:Ek.
    2:{ rewrite job_step_absent by exact Ek. eauto. }
    destruct (job_step_transition k c jk Ek) as [-> | (s & n & cl & lk & _ & ->)];
      [eauto |].
    cbn [jobs]. intros H.
    destruct (lookup_job_updated _ _ _ _ _ _ Ek H) as [[-> ->] | [_ H']]; eauto.
  - destruct (cloud c !! g); eauto.
  - destruct (cloud c !! g); eauto.
Qed.

Lemma run_job_name (schedule : list Action) :
  forall (c : Controller) (i : nat) (j : CodeUpdateJob),
    jobs (run schedule c) !! i = Some j ->
    exists j0, jobs c !! i = Some j0 /\ job_functionName j0 = job_functionName j.
Proof.
  unfold run. induction schedule as [| a schedule IH]; intros c i j H; cbn in H.
  - eauto.
  - destruct (IH _ _ _ H) as (j1 & H1 & E1).
    destruct (act_job_name _ _ _ _ H1) as (j0 & H0 & E0).
    exists j0. split; [exact H0 | congruence].
Qed.

Lemma act_keeps_code (c : Controller) (a : Action) (f : string) :
  code_of c f <> None -> code_of (act c a) f <> None.
Proof.
  intros Hc. destruct a as [k | g | g h e cfg]; cbn [act].
  - destruct (jobs c !! k) as [jk |] eqn:Ek.
    2:{ rewrite job_step_absent by exact Ek. exact Hc. }
    destruct (job_step_transition k c jk Ek) as [-> | (s & n & cl & lk & Ht & ->)];
      [exact Hc |].
    inversion Ht; subst; try exact Hc.
    unfold code_of. cbn [cloud].
    destruct (decide (job_functionName jk = f)) as [E | Hne].
    + rewrite E, lookup_insert_eq.
      erewrite update_function_code_code by eassumption. discriminate.
    + rewrite lookup_insert_ne by exact Hne. exact Hc.
  - destruct (cloud c !! g) as [r |] eqn:Eg; [| exact Hc].
    unfold with_cloud. rewrite (code_of_insert c f g r); auto.
  - destruct (cloud c !! g) as [r |] eqn:Eg; [| exact Hc].
    unfold with_cloud. rewrite (code_of_insert c f g r); auto.
    apply engine_update_code.
Qed.

Lemma run_keeps_code (schedule : list Action) (f : string) :
  forall c, code_of c f <> None -> code_of (run schedule c) f <> None.
Proof.
  unfold run. induction schedule as [| a schedule IH]; intros c H; cbn.
  - exact H.
  - apply IH. apply act_keeps_code. exact H.
Qed.

Lemma after_deploy_pushes (app : App) (d : Deployed) (attempts : nat) :
  updater_functionName (d_updater d) = physical_name app (fn_name (d_fn d)) ->
  updater_s3Bucket (d_updater d) = object_bucket (d_file d) ->
  updater_s3Key (d_updater d) = object_key (d_file d) ->
  pushes (physical_name app (fn_name (d_fn d))) (artifact_location (d_file d))
    (after_deploy app d attempts).
Proof.
  intros Hn Hb Hk i j Hj _. cbn [after_deploy jobs] in Hj.
  destruct i as [| i]; [| destruct i; discriminate].
  cbn in Hj. injection Hj as <-. cbn [job_of job_location job_status job_lastApplied].
  split; [| split].
  - unfold artifact_location. rewrite Hb, Hk. reflexivity.
  - reflexivity.
  - intros [H | H]; discriminate.
Qed.

(** ** C6: the code reference after a successful job *)

(** C6: the function is created with the placeholder; the job that
    [updateFunctionCode] asks for carries the bucket and key of the
    bucket object, which is the location the publisher returns; whatever
    the interleaving of its calls with the provider's progress and the
    engine's own updates, once the job is done the function's code
    reference is that location, and not the placeholder. *)
Theorem C6_code_reference_is_the_published_location
    (app : App) (name : string) (args : FunctionArgs) (h nh zip : string)
    (attempts : nat) (schedule : list Action) (store : ObjectStore)
    (j : CodeUpdateJob) :
  jobs (run schedule (after_deploy app (deployed_of app name args h nh zip) attempts))
    !! 0%nat = Some j ->
  job_status j = Done ->
  fn_code (d_fn (deployed_of app name args h nh zip)) = Some (placeholder)
  /\ code_of
       (run schedule (after_deploy app (deployed_of app name args h nh zip) attempts))
       (physical_name app (fn_name (d_fn (deployed_of app name args h nh zip))))
     = Some (S3Object
               (loc_bucket (fst (publish (d_file (deployed_of app name args h nh zip)) store)))
               (loc_key (fst (publish (d_file (deployed_of app name args h nh zip)) store))))
  /\ loc_key (fst (publish (d_file (deployed_of app name args h nh zip)) store))
     = name +:+ "-code-" +:+ h +:+ ".zip"
  /\ code_of
       (run schedule (after_deploy app (deployed_of app name args h nh zip) attempts))
       (physical_name app (fn_name (d_fn (deployed_of app name args h nh zip))))
     <> Some placeholder.
Proof.
  intros Hj Hdone.
  set (d := deployed_of app name args h nh zip) in *.
  assert (Hloc : fst (publish (d_file d) store) = artifact_location (d_file d)).
  { unfold publish. destruct (objects store !! _); reflexivity. }
  assert (Inv : pushes (physical_name app (fn_name (d_fn d)))
                  (artifact_location (d_file d))
                  (run schedule (after_deploy app d attempts))).
  { apply run_pushes. apply after_deploy_pushes; reflexivity. }
  destruct (run_job_name _ _ _ _ Hj) as (j0 & Hj0 & Hname).
  cbn in Hj0. injection Hj0 as <-. cbn [job_of job_functionName] in Hname.
  destruct (Inv 0%nat j Hj) as (_ & _ & Hcode).
  { symmetry. exact Hname. }
  rewrite Hloc. split; [reflexivity |].
  split; [apply Hcode; right; exact Hdone |].
  split; [reflexivity |].
  rewrite Hcode by (right; exact Hdone). discriminate.
Qed.

Lemma C6_code_reference_witness :
  fn_code (d_fn sample_deployed) = Some placeholder
  /\ code_of (run sample_schedule (after_deploy sample_app sample_deployed 3))
       (physical_name sample_app (fn_name (d_fn sample_deployed)))
     = Some (S3Object
               (loc_bucket (fst (publish (d_file sample_deployed) empty_store)))
               (loc_key (fst (publish (d_file sample_deployed) empty_store))))
  /\ loc_key (fst (publish (d_file sample_deployed) empty_store))
     = "MyFunction" +:+ "-code-"
       +:+ "c7e6c54013e9f658b18e0cdbce189dcbc02a70ecfd31474de1628c503fa144d8" +:+ ".zip"
  /\ code_of (run sample_schedule (after_deploy sample_app sample_deployed 3))
       (physical_name sample_app (fn_name (d_fn sample_deployed)))
     <> Some placeholder.
Proof.
  apply (C6_code_reference_is_the_published_location sample_app "MyFunction" sample_args
           "c7e6c54013e9f658b18e0cdbce189dcbc02a70ecfd31474de1628c503fa144d8"
           "server-index.handler" "/work/.sst/temp/MyFunction/code.zip"
           3 sample_schedule empty_store (set_status sample_job Done 0)).
  - vm_compute. reflexivity.
  - reflexivity.
Defined.

(** A job that runs out of attempts fails, releases the lock and leaves
    the placeholder in place: the claim is about jobs that succeed. *)
Example job_out_of_attempts :
  let c := run [StepJob 0; StepJob 0; StepJob 0; StepJob 0]
             (after_deploy sample_app sample_deployed 3) in
  List.map job_status (jobs c) = [Failed fatal]
  /\ code_of c sample_function = Some placeholder
  /\ locks c !! sample_function = None.
Proof. vm_compute. repeat split. Qed.

(** ** C7: the placeholder and the code reference *)

(** C7: [createFunction] always declares the same inline placeholder, a
    module whose handler does nothing; the settings passed through cannot
    replace it, [FunctionArgs] having no code field.  The code reference
    is present at creation, after any sequence of declarative updates and
    code updates, and in every state the Code Update Controller goes
    through. *)
Theorem C7_code_reference_is_never_null
    (app : App) (name : string) (args : FunctionArgs) (h nh zip : string)
    (role : Role) (steps : list LifecycleStep)
    (attempts : nat) (schedule : list Action) :
  fn_code (createFunction app name args role nh)
  = Some (AssetArchive [("index", StringAsset "exports.handler = () => {}")])
  /\ fn_code (d_fn (deployed_of app name args h nh zip))
     = Some (AssetArchive [("index", StringAsset "exports.handler = () => {}")])
  /\ fn_code (lifecycle (createFunction app name args role nh) steps) <> None
  /\ code_of (run schedule (after_deploy app (deployed_of app name args h nh zip) attempts))
       (physical_name app (fn_name (d_fn (deployed_of app name args h nh zip))))
     <> None.
Proof.
  split; [reflexivity |]. split; [reflexivity |]. split.
  - apply lifecycle_code. discriminate.
  - apply run_keeps_code. unfold code_of, after_deploy. cbn [cloud].
    rewrite lookup_singleton_eq. discriminate.
Qed.

Lemma C8_one_job_in_flight_witness :
  0%nat = 0%nat
  /\ locks (run racing_schedule two_deploys)
       !! job_functionName (set_status sample_job Applying 0) = Some 0%nat
  /\ (job_status (set_status sample_job Applying 0) = Applying ->
      job_status (set_status sample_job Applying 0) = Applying ->
      set_status sample_job Applying 0 = set_status sample_job Applying 0).
Proof.
  apply (C8_one_job_in_flight_per_function_name two_deploys racing_schedule
           0%nat 0%nat
           (set_status sample_job Applying 0) (set_status sample_job Applying 0)).
  - reflexivity.
  - intros i j H. destruct i as [| [| i]]; cbn in H.
    + injection H as <-. reflexivity.
    + injection H as <-. reflexivity.
    + discriminate.
  - vm_compute. reflexivity.
  - vm_compute. reflexivity.
  - reflexivity.
  - reflexivity.
  - reflexivity.
Defined.

(** The second deploy waits: while the first job applies, the second is
    still pending; once the first is done the second takes the lock and
    the function ends up with the second location. *)
Example second_job_waits :
  List.map job_status (jobs (run racing_schedule two_deploys)) = [Applying; Pending]
  /\ List.map job_status
       (jobs (run (racing_schedule
                   ++ [StepJob 0; StepJob 1; ProviderTick sample_function; StepJob 0;
                       StepJob 1; StepJob 1; StepJob 1; ProviderTick sample_function;
                       StepJob 1])
                two_deploys))
     = [Done; Done]
  /\ code_of
       (run (racing_schedule
             ++ [StepJob 0; StepJob 1; ProviderTick sample_function; StepJob 0;
                 StepJob 1; StepJob 1; StepJob 1; ProviderTick sample_function;
                 StepJob 1])
          two_deploys) sample_function
     = Some (S3Object "sst-asset-us-east-1" "MyFunction-code-0123abcd.zip").
Proof. vm_compute. repeat split. Qed.

(* ================================================================== *)
(** * Further properties of the component *)
(* ================================================================== *)

(** ** What the hash leaves out *)









Lemma visible_hash_iff (s : string) :
  visible hash_glob_options s = negb (String.eqb s "node_modules").
Proof.
  unfold visible. cbn [ignore dot hash_glob_options existsb orb].
  rewrite orb_false_r, andb_true_r. reflexivity.
Qed.




Lemma glob_walk_skips_node_modules (n : node) :
  forall prefix p,
    In p (glob_walk hash_glob_options prefix n) ->
    ~ In "node_modules" prefix -> ~ In "node_modules" p.
Proof.
  induction n as [c | es IH | | t IH] using node_induction; intros prefix p Hin Hpre.
  - destruct Hin.
  - apply glob_walk_In in Hin. destruct Hin as (e & He & [Hin | [Hv Hin]]).
    + unfold matched in Hin.
      destruct (visible hash_glob_options (fst e)) eqn:Ev; [| destruct Hin].
      destruct (negb _); cbn [andb] in Hin; [| destruct Hin].
      destruct Hin as [<- | []].
      rewrite visible_hash_iff in Ev. apply negb_true_iff in Ev.
      intros H. apply List.in_app_or in H as [H | [H | []]]; [auto |].
      rewrite <- H, String.eqb_refl in Ev. discriminate.
    + rewrite List.Forall_forall in IH.
      apply (IH e He (prefix ++ [fst e]) p Hin).
      rewrite visible_hash_iff in Hv. apply negb_true_iff in Hv.
      intros H. apply List.in_app_or in H as [H | [H | []]]; [auto |].
      rewrite <- H, String.eqb_refl in Hv. discriminate.
  - destruct Hin.
  - cbn [glob_walk follow hash_glob_options] in Hin. apply (IH prefix p Hin Hpre).
Qed.




(** ** When [calculateHash] rejects *)

Lemma contents_first_failure (b : node) (l : list relpath) :
  contents b l = None ->
  exists l1 p l2 c s,
    l = l1 ++ p :: l2 /\ contents b l1 = Some s /\ readFile b p = inl c.
Proof.
  induction l as [| q l IH]; [discriminate |].
  cbn [contents]. destruct (readFile b q) as [c | d] eqn:Er.
  - intros _. exists [], q, l, c, "". repeat split. exact Er.
  - destruct (contents b l) as [s |] eqn:Ec; [discriminate |]. intros _.
    destruct (IH eq_refl) as (l1 & p & l2 & c & s & -> & Hs & Hp).
    exists (q :: l1), p, l2, c, (d +:+ s). repeat split; [| exact Hp].
    cbn [contents]. rewrite Er, Hs. reflexivity.
Qed.

(** X1: [calculateHash] reads the matched files one after the other
    and stops at the first that cannot be read: it rejects with the
    error of that read, whose path is [path.resolve(bundle, filePath)],
    and reads no file after it.  When every matched file can be read it
    returns the digest of their contents put end to end; it rejects in
    no other case. *)
Theorem calculateHash_rejects_at_the_first_unreadable_file
    (app : App) (args : FunctionArgs) (b : node) :
  (forall l1 p l2 c s,
      globSync hash_glob_options b = l1 ++ p :: l2 ->
      contents b l1 = Some s ->
      readFile b p = inl c ->
      calculateHash app args (fresh_world b)
      = (inl {| err_code := c;
                err_path := PosixResolve.resolve (cwd app) [bundle args; show_path p] |},
         add_events (fresh_world b) (EvGlobSync :: List.map EvReadFile (l1 ++ [p]))))
  /\ (forall s,
        hashed_bytes b = Some s ->
        calculateHash app args (fresh_world b)
        = (inr (sha256_hex s),
           add_events (fresh_world b)
             (EvGlobSync :: List.map EvReadFile (globSync hash_glob_options b))))
  /\ (hashed_bytes b = None ->
      exists l1 p l2 c s,
        globSync hash_glob_options b = l1 ++ p :: l2
        /\ contents b l1 = Some s /\ readFile b p = inl c).
Proof.
  split; [| split].
  - intros l1 p l2 c s HL Hs Hp. rewrite calculateHash_run.
    cbn [bundleDir fresh_world]. rewrite HL.
    rewrite (hash_files_fails app args l1 l2 p c s createHash
               (add_events (fresh_world b) [EvGlobSync]) Hs Hp).
    cbn [fst snd]. rewrite add_events_app. reflexivity.
  - intros s Hs. rewrite calculateHash_run. cbn [bundleDir fresh_world].
    rewrite (hash_files_ok app args _ s createHash
               (add_events (fresh_world b) [EvGlobSync]) Hs).
    cbn [fst snd]. rewrite add_events_app.
    unfold digest, createHash. cbn [absorbed]. rewrite append_nil_l. reflexivity.
  - exact (contents_first_failure b _).
Qed.

Lemma calculateHash_rejects_witness :
  calculateHash sample_app sample_args (fresh_world bundle_dangling)
  = (inl {| err_code := ENOENT; err_path := "/work/dist/gone" |},
     add_events (fresh_world bundle_dangling) [EvGlobSync; EvReadFile ["gone"]])
  /\ calculateHash sample_app sample_args (fresh_world bundle_ab)
     = (inr (sha256_hex "21"),
        add_events (fresh_world bundle_ab)
          [EvGlobSync; EvReadFile ["b.js"]; EvReadFile ["a.js"]]).
Proof.
  pose proof (calculateHash_rejects_at_the_first_unreadable_file sample_app sample_args
                bundle_dangling) as (Hfail & _).
  pose proof (calculateHash_rejects_at_the_first_unreadable_file sample_app sample_args
                bundle_ab) as (_ & Hok & _).
  split.
  - exact (Hfail [] ["gone"] [["b.js"]; ["a.js"]] ENOENT "" eq_refl eq_refl eq_refl).
  - exact (Hok "21" eq_refl).
Defined.

(** ** What is read *)



Lemma skipn_In {A : Type} (n : nat) (l : list A) (x : A) :
  In x (List.skipn n l) -> In x l.
Proof.
  intros H. rewrite <- (List.firstn_skipn n l). apply List.in_or_app. right. exact H.
Qed.



(** ** What is archived *)

(** X4: [zipBundleFolder] archives every regular file that is reached
    through real directories, with its content, whatever the names on the
    way: dotfiles and the files below [node_modules] are in the archive,
    although the latter are never among the files that are hashed. *)
Theorem zipBundleFolder_archives_what_the_hash_skips
    (b : node) (p : relpath) (c : bytes) :
  plain_file b p = Some c ->
  In (p, ZipFile c) (archive_of b)
  /\ (In "node_modules" p -> ~ In p (globSync hash_glob_options b)).
Proof.
  intros H. split; [exact (plain_file_in_archive b p c H) |].
  intros Hnm Hin.
  apply (glob_walk_skips_node_modules b [] p Hin); [intros [] | exact Hnm].
Qed.

Lemma zipBundleFolder_archives_witness :
  In (["node_modules"; "pg"; "index.js"], ZipFile "v1") (archive_of (bundle_deps "v1"))
  /\ (In "node_modules" ["node_modules"; "pg"; "index.js"] ->
      ~ In ["node_modules"; "pg"; "index.js"]
          (globSync hash_glob_options (bundle_deps "v1"))).
Proof.
  apply (zipBundleFolder_archives_what_the_hash_skips (bundle_deps "v1")
           ["node_modules"; "pg"; "index.js"] "v1").
  reflexivity.
Defined.

(** ** When the wrapper cannot be written *)

Lemma write_missing (data : bytes) (f : string) (n : node) :
  forall ds, resolve n ds = None ->
    write_node n (ds ++ [f]) data = None
    /\ write_error n (ds ++ [f]) = resolve_error n ds.
Proof.
  induction n as [c | es IH | | t IH] using node_induction; intros ds H.
  - destruct ds; [discriminate |]. split; reflexivity.
  - destruct ds as [| s rest]; [discriminate |].
    cbn [app]. rewrite resolve_cons in H.
    rewrite write_node_cons, write_error_cons, resolve_error_cons.
    destruct (lookup_entry s es) as [ch |] eqn:El.
    + rewrite List.Forall_forall in IH.
      destruct (IH (s, ch) (lookup_entry_In _ _ _ El) rest H) as [Hw He].
      cbn [snd] in Hw, He. rewrite Hw. split; [reflexivity | exact He].
    + split; [| reflexivity]. destruct rest; reflexivity.
  - split; reflexivity.
  - cbn [resolve] in H. destruct (IH ds H) as [Hw He].
    cbn [write_node write_error resolve_error]. rewrite Hw. split; [reflexivity | exact He].
Qed.

(** X5: with injections, when the directory the wrapper is to be
    written in does not resolve in the bundle, [wrapHandler] rejects
    with the error of [writeFile] on the wrapper's path and leaves the
    bundle as it was: the directory is not created.  The function and
    the code updater are then not declared; the archive is written all
    the same, and the bucket object declared under the key of the hash,
    each output failing on its own. *)
Theorem a_failed_wrap_stops_the_function_not_the_upload
    (app : App) (name : string) (args : FunctionArgs) (landed : nat) (w : World)
    (ds : relpath) (f : string) :
  args_injections args <> [] ->
  wrapper_path app args = Some (ds ++ [f]) ->
  resolve (bundleDir w) ds = None ->
  let c := fst (Function_constructor app name args landed w) in
  let w' := snd (Function_constructor app name args landed w) in
  let e := {| err_code := resolve_error (bundleDir w) ds;
              err_path := wrapper_file args |} in
  wrapHandler app args w = (inl e, add_events w [EvWriteFile (wrapper_file args)])
  /\ c_newHandler c = inl e /\ c_fn c = inl e /\ c_updater c = inl e
  /\ bundleDir w' = bundleDir w
  /\ c_zipFile c = inr (zip_path app name)
  /\ find_temp (zip_path app name) w' = Some (archive_of (bundleDir w))
  /\ (forall h, c_bundleHash c = inr h ->
        c_file c = inr (createBucketObject app name args h (zip_path app name)))
  /\ (bundleHash args = None -> c_bundleHash c = hash_of app args (bundleDir w)).
Proof.
  intros Hi Hp Hmiss c w' e.
  destruct (write_missing (wrapper_module args) f (bundleDir w) ds Hmiss) as [Hw He].
  assert (Hwrap : forall w0, bundleDir w0 = bundleDir w ->
            wrapHandler app args w0
            = (inl e, add_events w0 [EvWriteFile (wrapper_file args)])).
  { intros w0 Hb. rewrite (wrapHandler_run app args w0 Hi), Hp, Hb, Hw, He. reflexivity. }
  assert (Hsame : wrapped app args (bundleDir w) = bundleDir w).
  { unfold wrapped. rewrite (Hwrap (fresh_world (bundleDir w)) eq_refl). reflexivity. }
  pose proof (constructor_run app name args landed w) as (Hd & Hnh & Hz & Hb & _).
  cbv zeta in Hd, Hnh, Hz, Hb. fold c in Hd, Hnh, Hz. fold w' in Hb.
  rewrite (Hwrap (fresh_world (bundleDir w)) eq_refl) in Hnh. cbn [fst] in Hnh.
  pose proof (constructor_archive app name args landed w) as Ha. fold w' in Ha.
  rewrite Hsame in Hb, Ha.
  assert (Hhash : bundleHash args = None -> c_bundleHash c = hash_of app args (bundleDir w)).
  { intros Hn. unfold c. rewrite (constructor_hash app name args landed w Hn), Hsame.
    apply hash_mixed_same. reflexivity. }
  clearbody c w'.
  split; [exact (Hwrap w eq_refl) |]. split; [exact Hnh |].
  split; [rewrite Hd; cbn [declare c_fn]; rewrite Hnh; reflexivity |].
  split; [rewrite Hd; cbn [declare c_updater]; rewrite Hnh; reflexivity |].
  split; [exact Hb |]. split; [exact Hz |]. split; [exact Ha |].
  split; [| exact Hhash].
  intros h Hh. rewrite Hd. cbn [declare c_file]. rewrite Hh, Hz. reflexivity.
Qed.

Lemma a_failed_wrap_witness :
  wrapHandler sample_app (args_of "/work/dist" (sample_spec false ["  a();"]))
    (fresh_world bundle_index)
  = (inl {| err_code := ENOENT; err_path := "/work/dist/src/server-index.mjs" |},
     add_events (fresh_world bundle_index)
       [EvWriteFile "/work/dist/src/server-index.mjs"])
  /\ c_fn (fst (Function_constructor sample_app "MyFunction"
                  (args_of "/work/dist" (sample_spec false ["  a();"])) 0
                  (fresh_world bundle_index)))
     = inl {| err_code := ENOENT; err_path := "/work/dist/src/server-index.mjs" |}
  /\ bundleDir (snd (Function_constructor sample_app "MyFunction"
                       (args_of "/work/dist" (sample_spec false ["  a();"])) 0
                       (fresh_world bundle_index)))
     = bundle_index
  /\ c_file (fst (Function_constructor sample_app "MyFunction"
                    (args_of "/work/dist" (sample_spec false ["  a();"])) 0
                    (fresh_world bundle_index)))
     = inr (createBucketObject sample_app "MyFunction"
              (args_of "/work/dist" (sample_spec false ["  a();"]))
              "c7e6c54013e9f658b18e0cdbce189dcbc02a70ecfd31474de1628c503fa144d8"
              "/work/.sst/temp/MyFunction/code.zip").
Proof.
  pose proof (a_failed_wrap_stops_the_function_not_the_upload sample_app "MyFunction"
                (args_of "/work/dist" (sample_spec false ["  a();"])) 0
                (fresh_world bundle_index) ["src"] "server-index.mjs"
                ltac:(discriminate) eq_refl eq_refl)
    as (Hw & _ & Hfn & _ & Hb & _ & _ & Hfile & Hh).
  split; [exact Hw |]. split; [exact Hfn |]. split; [exact Hb |].
  apply Hfile. rewrite (Hh eq_refl). vm_compute. reflexivity.
Defined.

(** ** What the wrapper overwrites *)

(** A write to a place for a file leaves every other regular file as
    it was. *)
Lemma write_plain_frame (n : node) (data : bytes) :
  forall p n' q c,
    plain_slot n p = true -> write_node n p data = Some n' ->
    q <> p -> plain_file n q = Some c -> plain_file n' q = Some c.
Proof.
  induction n as [c0 | es IH | | t IH] using node_induction;
    intros p n' q c Hs Hw Hne Hq; try (destruct p; discriminate).
  destruct p as [| s rest]; [discriminate |].
  destruct q as [| s' rest']; [discriminate |].
  apply plain_slot_cons in Hs. rewrite write_node_cons in Hw.
  rewrite plain_file_step in Hq.
  rewrite List.Forall_forall in IH.
  destruct (String.eqb s' s) eqn:Es.
  - apply String.eqb_eq in Es. subst s'.
    destruct (lookup_entry s es) as [ch |] eqn:El; [| discriminate].
    destruct (write_node ch rest data) as [ch' |] eqn:Ew; [| discriminate].
    injection Hw as <-. rewrite plain_file_step, (lookup_update_same s ch ch' es El).
    destruct rest as [| r rs].
    + destruct Hs as [d ->]. destruct rest'; [congruence | discriminate Hq].
    + destruct rest' as [| r' rs'].
      * destruct ch; discriminate.
      * apply (IH (s, ch) (lookup_entry_In _ _ _ El) (r :: rs) ch' (r' :: rs') c Hs Ew);
          [congruence | exact Hq].
  - apply String.eqb_neq in Es.
    destruct (lookup_entry s es) as [ch |] eqn:El.
    + destruct (write_node ch rest data) as [ch' |]; [| discriminate].
      injection Hw as <-.
      rewrite plain_file_step, (lookup_update_other s s' ch' es Es). exact Hq.
    + subst rest. injection Hw as <-. rewrite plain_file_step, lookup_append.
      destruct (lookup_entry s' es); [exact Hq | discriminate].
Qed.

(** X6: written into real directories, the wrapper lands as a regular
    file beside the handler and every other regular file of the bundle
    keeps its content; the only file it can replace is one already called
    [server-index.mjs] there, which is the original handler module itself
    exactly when that module is named [server-index]. *)
Theorem wrapHandler_replaces_only_server_index
    (app : App) (bundlePath : string) (s : HandlerSpec) (w : World) (p : relpath) :
  well_formed s = true ->
  spec_injections s <> [] ->
  below_bundle (cwd app) bundlePath (entry_directory s) "server-index.mjs" = Some p ->
  plain_slot (bundleDir w) p = true ->
  fst (wrapHandler app (args_of bundlePath s) w)
  = inr (Posix.join [entry_directory s; "server-index.handler"])
  /\ plain_file (bundleDir (snd (wrapHandler app (args_of bundlePath s) w))) p
     = Some (wrapper_module (args_of bundlePath s))
  /\ (forall q c,
        q <> p ->
        plain_file (bundleDir w) q = Some c ->
        plain_file (bundleDir (snd (wrapHandler app (args_of bundlePath s) w))) q
        = Some c)
  /\ (below_bundle (cwd app) bundlePath (entry_directory s) (original_module s) = Some p
      <-> module_name s = "server-index").
Proof.
  intros Hwf Hinj Hp Hslot.
  destruct (wrapper_of_spec app bundlePath s Hwf) as (He & _ & Hpath & _).
  destruct (write_plain_slot (bundleDir w) (wrapper_module (args_of bundlePath s))
              p Hslot) as (b' & Hw & Hfile).
  rewrite (wrapHandler_run app (args_of bundlePath s) w Hinj), Hpath, Hp, Hw, He.
  cbn [fst snd set_bundle bundleDir].
  split; [reflexivity |]. split; [exact Hfile |].
  split; [intros q c Hne Hq;
          exact (write_plain_frame _ _ p b' q c Hslot Hw Hne Hq) |].
  assert (Hne : p <> []) by (intros ->; discriminate Hslot).
  destruct (below_bundle_shape _ _ _ "server-index.mjs" p eq_refl Hp Hne)
    as (ds & -> & Hall).
  split.
  - intros Ho. rewrite (Hall _ (well_formed_module s Hwf)) in Ho.
    injection Ho as Ho. apply List.app_inv_head in Ho. injection Ho as Ho.
    unfold original_module in Ho.
    change "server-index.mjs" with ("server-index" +:+ ".mjs") in Ho.
    apply append_inv_tail in Ho. exact Ho.
  - intros Hm. unfold original_module. rewrite Hm. exact Hp.
Qed.

Lemma wrapHandler_replaces_only_server_index_witness :
  fst (wrapHandler sample_app (args_of "/work/dist" self_spec) (fresh_world bundle_self))
  = inr (Posix.join [entry_directory self_spec; "server-index.handler"])
  /\ plain_file
       (bundleDir (snd (wrapHandler sample_app (args_of "/work/dist" self_spec)
                          (fresh_world bundle_self))))
       ["src"; "server-index.mjs"]
     = Some (wrapper_module (args_of "/work/dist" self_spec))
  /\ (forall q c,
        q <> ["src"; "server-index.mjs"] ->
        plain_file (bundleDir (fresh_world bundle_self)) q = Some c ->
        plain_file
          (bundleDir (snd (wrapHandler sample_app (args_of "/work/dist" self_spec)
                             (fresh_world bundle_self)))) q = Some c)
  /\ (below_bundle (cwd sample_app) "/work/dist" (entry_directory self_spec)
        (original_module self_spec)
      = Some ["src"; "server-index.mjs"]
      <-> module_name self_spec = "server-index").
Proof.
  apply (wrapHandler_replaces_only_server_index sample_app "/work/dist" self_spec
           (fresh_world bundle_self) ["src"; "server-index.mjs"]).
  - reflexivity.
  - discriminate.
  - reflexivity.
  - reflexivity.
Defined.

(** The handler named [server-index] is replaced by a module that imports
    itself. *)
Example wrapper_overwrites_its_own_target :
  plain_file bundle_self ["src"; "server-index.mjs"]
  = Some "export const handler = 1;"
  /\ plain_file
       (bundleDir (snd (wrapHandler sample_app (args_of "/work/dist" self_spec)
                          (fresh_world bundle_self))))
       ["src"; "server-index.mjs"]
     = Some (String.concat newline
               ["export const handler = async (event, context) => {";
                "  a();";
                "  const { handler: rawHandler} = await import(" +:+ dquote
                  +:+ "./server-index.mjs" +:+ dquote +:+ ");";
                "  return rawHandler(event, context);";
                "};"]).
Proof. split; vm_compute; reflexivity. Qed.

(** ** Deploying the same bundle directory again *)







(** In the sample the key changes between the first deploy and the
    second, and is stable from then on. *)
Example redeploy_changes_the_key_once :
  c_bundleHash (fst sample_deploy)
  <> c_bundleHash (fst (Function_constructor sample_app "MyFunction" sample_args 0
                          (snd sample_deploy)))
  /\ c_bundleHash (fst (Function_constructor sample_app "MyFunction" sample_args 0
                          (snd sample_deploy)))
     = c_bundleHash
         (fst (Function_constructor sample_app "MyFunction" sample_args 0
                 (snd (Function_constructor sample_app "MyFunction" sample_args 0
                         (snd sample_deploy))))).
Proof. vm_compute. split; [intros H; discriminate H | reflexivity]. Qed.

(** ** A deploy without injections *)

Lemma deployed_inv (c : Declared) (d : Deployed) :
  deployed c = inr d ->
  c_bundleHash c = inr (d_bundleHash d)
  /\ c_newHandler c = inr (d_newHandler d)
  /\ c_zipFile c = inr (d_zipFile d)
  /\ c_file c = inr (d_file d)
  /\ c_fn c = inr (d_fn d)
  /\ c_updater c = inr (d_updater d)
  /\ d_provider d = c_provider c
  /\ d_role d = c_role c.
Proof.
  unfold deployed.
  destruct (c_bundleHash c), (c_newHandler c), (c_zipFile c), (c_file c), (c_fn c),
    (c_updater c); try discriminate.
  intros H. injection H as <-. cbn. repeat split.
Qed.

(** X8: without injections the constructor leaves the bundle directory
    as it found it, whatever the outcome; on success the function gets
    the caller's handler, the archive is built from that same directory,
    and the computed hash is the hash of what is archived. *)
Theorem without_injections_hash_and_archive_see_one_directory
    (app : App) (name : string) (args : FunctionArgs) (landed : nat)
    (w w' : World) (c : Declared) :
  args_injections args = [] ->
  Function_constructor app name args landed w = (c, w') ->
  bundleDir w' = bundleDir w
  /\ (forall p, In (EvWriteFile p) (events w') -> In (EvWriteFile p) (events w))
  /\ c_newHandler c = inr (handler args)
  /\ find_temp (zip_path app name) w' = Some (archive_of (bundleDir w))
  /\ (bundleHash args = None -> c_bundleHash c = hash_of app args (bundleDir w))
  /\ forall d, deployed c = inr d ->
       d_newHandler d = handler args
       /\ find_temp (d_zipFile d) w' = Some (archive_of (bundleDir w))
       /\ (bundleHash args = None ->
           hash_of app args (bundleDir w) = inr (d_bundleHash d)).
Proof.
  intros Hinj Hrun.
  pose proof (constructor_run app name args landed w) as (_ & Hnh & Hz & Hb & _).
  pose proof (constructor_archive app name args landed w) as Ha.
  pose proof (constructor_hash app name args landed w) as Hh.
  destruct (constructor_events app name args landed w)
    as (before & write & after & He & _ & Hwr & Hba).
  cbv zeta in Hnh, Hz, Hb. rewrite Hrun in Hnh, Hz, Hb, Ha, Hh, He.
  cbn [fst snd] in Hnh, Hz, Hb, Ha, Hh, He.
  rewrite (wrapped_empty app args _ Hinj) in Hb, Ha, Hh, He.
  rewrite (wrapHandler_empty app args _ Hinj) in Hnh. cbn [fst] in Hnh.
  rewrite (Hwr Hinj) in He. cbn [Datatypes.app] in He.
  assert (Hhash : bundleHash args = None -> c_bundleHash c = hash_of app args (bundleDir w)).
  { intros Hn. rewrite (Hh Hn). apply hash_mixed_same. reflexivity. }
  split; [exact Hb |]. split; [| split; [exact Hnh | split; [exact Ha | split]]].
  - intros p Hp. rewrite He in Hp.
    apply List.in_app_or in Hp as [Hp | Hp]; [exact Hp | exfalso].
    assert (Hno : ~ In (EvWriteFile p) (before ++ after)).
    { intros Hin. destruct (bundleHash args).
      - destruct Hba as [-> ->]. destruct Hin.
      - destruct Hba as (n1 & n2 & -> & ->).
        apply List.in_app_or in Hin as [[Hin | Hin] | Hin]; [discriminate Hin | |];
          apply List.in_map_iff in Hin as (x & Hx & _); discriminate Hx. }
    apply List.in_app_or in Hp as [Hp | Hp];
      [apply Hno; apply List.in_or_app; left; exact Hp |].
    apply List.in_app_or in Hp as [Hp | Hp];
      [apply Hno; apply List.in_or_app; right; exact Hp |].
    destruct Hp as [Hp | Hp]; [discriminate Hp |].
    apply List.in_app_or in Hp as [Hp | [Hp | []]]; [| discriminate Hp].
    unfold archive_reads in Hp. apply List.in_flat_map in Hp as ((q & z) & _ & Hp).
    cbn [fst snd] in Hp.
    destruct z; [destruct Hp as [Hp | []]; discriminate Hp | destruct Hp | destruct Hp].
  - exact Hhash.
  - intros d Hd. apply deployed_inv in Hd as (Hdh & Hdn & Hdz & _).
    rewrite Hnh in Hdn. injection Hdn as Hdn.
    rewrite Hz in Hdz. injection Hdz as Hdz.
    split; [symmetry; exact Hdn |]. split; [rewrite <- Hdz; exact Ha |].
    intros Hn. rewrite <- Hdh. symmetry. exact (Hhash Hn).
Qed.

Lemma without_injections_witness :
  bundleDir (snd plain_deploy) = bundleDir (fresh_world (bundle_deps "v1"))
  /\ (forall p, In (EvWriteFile p) (events (snd plain_deploy))
                -> In (EvWriteFile p) (events (fresh_world (bundle_deps "v1"))))
  /\ c_newHandler (fst plain_deploy) = inr (handler plain_args)
  /\ find_temp (zip_path sample_app "MyFunction") (snd plain_deploy)
     = Some (archive_of (bundleDir (fresh_world (bundle_deps "v1"))))
  /\ (bundleHash plain_args = None ->
      c_bundleHash (fst plain_deploy)
      = hash_of sample_app plain_args (bundleDir (fresh_world (bundle_deps "v1"))))
  /\ forall d, deployed (fst plain_deploy) = inr d ->
       d_newHandler d = handler plain_args
       /\ find_temp (d_zipFile d) (snd plain_deploy)
          = Some (archive_of (bundleDir (fresh_world (bundle_deps "v1"))))
       /\ (bundleHash plain_args = None ->
           hash_of sample_app plain_args (bundleDir (fresh_world (bundle_deps "v1")))
           = inr (d_bundleHash d)).
Proof.
  apply (without_injections_hash_and_archive_see_one_directory
           sample_app "MyFunction" plain_args 0 (fresh_world (bundle_deps "v1"))
           (snd plain_deploy) (fst plain_deploy)).
  - reflexivity.
  - vm_compute. reflexivity.
Defined.

(** The sample deploy without injections resolves every output. *)
Example plain_deploy_resolves :
  exists d, deployed (fst plain_deploy) = inr d
    /\ d_newHandler d = "index.handler"
    /\ object_key (d_file d)
       = "MyFunction-code-" +:+ d_bundleHash d +:+ ".zip".
Proof. vm_compute. eexists. repeat split. Qed.

(** ** The logical names of the declared resources *)

Lemma constructor_deployed (app : App) (name : string) (args : FunctionArgs)
    (landed : nat) (w w' : World) (c : Declared) (d : Deployed) :
  Function_constructor app name args landed w = (c, w') ->
  deployed c = inr d ->
  d = deployed_of app name args (d_bundleHash d) (d_newHandler d) (d_zipFile d)
  /\ d_zipFile d = zip_path app name
  /\ c_bundleHash c = inr (d_bundleHash d)
  /\ c_newHandler c = inr (d_newHandler d).
Proof.
  intros Hrun Hd.
  pose proof (constructor_run app name args landed w) as (Hc & _ & Hz & _).
  cbv zeta in Hc, Hz. rewrite Hrun in Hc, Hz. cbn [fst] in Hc, Hz.
  destruct (deployed_inv c d Hd) as (Hh & Hn & Hz' & Hf & Hfn & Hu & Hp & Hr).
  rewrite Hz in Hz'. injection Hz' as Hz'.
  split; [| split; [symmetry; exact Hz' | split; [exact Hh | exact Hn]]].
  rewrite Hc in Hf, Hfn, Hu, Hp, Hr. rewrite Hh, Hn, Hz in Hf, Hfn, Hu, Hp, Hr.
  cbn [declare c_file c_fn c_updater c_provider c_role] in Hf, Hfn, Hu, Hp, Hr.
  injection Hf as Hf. injection Hfn as Hfn. injection Hu as Hu.
  destruct d. cbn in *. subst. reflexivity.
Qed.

Lemma constructor_names (app : App) (name : string) (args : FunctionArgs)
    (landed : nat) (w w' : World) (c : Declared) (d : Deployed) :
  Function_constructor app name args landed w = (c, w') ->
  deployed c = inr d ->
  logical_names d
  = [name +:+ "-provider"; name +:+ "-role"; name +:+ "-code";
     name +:+ "-function"; name +:+ "-code-updater"].
Proof.
  intros Hrun Hd.
  destruct (constructor_deployed _ _ _ _ _ _ _ _ Hrun Hd) as (-> & _).
  reflexivity.
Qed.

Lemma suffixes_reversed (a b s t : string) :
  a +:+ s = b +:+ t ->
  List.rev (list_ascii_of_string s) ++ List.rev (list_ascii_of_string a)
  = List.rev (list_ascii_of_string t) ++ List.rev (list_ascii_of_string b).
Proof.
  intros H. apply (f_equal list_ascii_of_string) in H.
  rewrite !chars_app in H. apply (f_equal (@List.rev ascii)) in H.
  rewrite !List.rev_app_distr in H. exact H.
Qed.

Ltac clash H :=
  first
    [ apply append_inv_tail in H; split; [exact H | reflexivity]
    | apply suffixes_reversed in H; cbn in H; discriminate H ].

(** X9: the five resources of a component have five different logical
    names, and components with different names share no logical name:
    a name declared by two successful constructor calls is the name of
    the same resource of the same component. *)
Theorem logical_names_never_collide
    (app1 app2 : App) (name1 name2 : string) (args1 args2 : FunctionArgs)
    (landed1 landed2 : nat) (w1 w1' w2 w2' : World) (c1 c2 : Declared)
    (d1 d2 : Deployed) (i j : nat) (n : string) :
  Function_constructor app1 name1 args1 landed1 w1 = (c1, w1') ->
  Function_constructor app2 name2 args2 landed2 w2 = (c2, w2') ->
  deployed c1 = inr d1 ->
  deployed c2 = inr d2 ->
  logical_names d1 !! i = Some n ->
  logical_names d2 !! j = Some n ->
  name1 = name2 /\ i = j.
Proof.
  intros H1 H2 Hd1 Hd2 Hi Hj.
  rewrite (constructor_names _ _ _ _ _ _ _ _ H1 Hd1) in Hi.
  rewrite (constructor_names _ _ _ _ _ _ _ _ H2 Hd2) in Hj.
  clear H1 H2 Hd1 Hd2.
  destruct i as [| [| [| [| [| i]]]]]; cbn in Hi; try discriminate Hi;
    destruct j as [| [| [| [| [| j]]]]]; cbn in Hj; try discriminate Hj;
    injection Hi as <-; injection Hj as Hj; symmetry in Hj; clash Hj.
Qed.

Lemma logical_names_witness : "MyFunction" = "MyFunction" /\ 2 = 2.
Proof.
  apply (logical_names_never_collide sample_app sample_app "MyFunction" "MyFunction"
           sample_args (with_bundleHash sample_args (Some "0123abcd")) 0 0
           (fresh_world bundle_index) (snd sample_deploy)
           (fresh_world bundle_index) (snd sample_supplied)
           (fst sample_deploy) (fst sample_supplied)
           sample_deployed
           (deployed_of sample_app "MyFunction"
              (with_bundleHash sample_args (Some "0123abcd")) "0123abcd"
              "server-index.handler" "/work/.sst/temp/MyFunction/code.zip")
           2 2 "MyFunction-code").
  - vm_compute. reflexivity.
  - vm_compute. reflexivity.
  - vm_compute. reflexivity.
  - vm_compute. reflexivity.
  - reflexivity.
  - reflexivity.
Defined.

(** ** The shape of a computed hash *)

Lemma be_bytes_length (k : nat) (x : Z) : List.length (Sha256.be_bytes k x) = k.
Proof. induction k as [| k IH]; cbn; [reflexivity | rewrite IH; reflexivity]. Qed.

Lemma compress_length (h block : list Z) :
  List.length h = 8%nat -> List.length (Sha256.compress h block) = 8%nat.
Proof.
  intros H. unfold Sha256.compress.
  rewrite List.length_map, List.length_combine, H. reflexivity.
Qed.

Lemma fold_compress_length (blocks : list (list Z)) :
  forall h, List.length h = 8%nat ->
    List.length (List.fold_left Sha256.compress blocks h) = 8%nat.
Proof.
  induction blocks as [| b blocks IH]; intros h H; [exact H |].
  cbn [List.fold_left]. apply IH, compress_length, H.
Qed.

Lemma concat_be_bytes_length (h : list Z) :
  List.length (List.concat (List.map (Sha256.be_bytes 4) h)) = (4 * List.length h)%nat.
Proof.
  induction h as [| x h IH]; [reflexivity |].
  cbn [List.map List.concat]. rewrite List.length_app, be_bytes_length, IH.
  cbn [List.length]. lia.
Qed.

Lemma digest_length (msg : list Z) : List.length (Sha256.digest msg) = 32%nat.
Proof.
  unfold Sha256.digest. rewrite concat_be_bytes_length.
  rewrite fold_compress_length; reflexivity.
Qed.

Lemma hex_digit_ok (n : Z) : is_hex_char (hex_digit n) = true.
Proof.
  unfold hex_digit. generalize (Z.to_nat n) as k. intros k.
  do 16 (destruct k as [| k]; [reflexivity |]). destruct k; reflexivity.
Qed.

Lemma hex_shape (bs : list Z) :
  String.length (hex bs) = (2 * List.length bs)%nat
  /\ all_chars is_hex_char (hex bs) = true.
Proof.
  induction bs as [| b bs [IHl IHc]]; [split; reflexivity |].
  cbn [hex String.length List.length]. split; [rewrite IHl; lia |].
  unfold all_chars in *. cbn [list_ascii_of_string List.forallb].
  rewrite !hex_digit_ok, IHc. reflexivity.
Qed.

Lemma sha256_hex_shape (s : bytes) :
  String.length (sha256_hex s) = 64%nat
  /\ all_chars is_hex_char (sha256_hex s) = true.
Proof.
  unfold sha256_hex. destruct (hex_shape (Sha256.digest (byte_values s))) as [Hl Hc].
  rewrite digest_length in Hl. split; [exact Hl | exact Hc].
Qed.

Lemma hash_mixed_is_a_digest (app : App) (args : FunctionArgs) (k : nat)
    (b b' : node) (h : string) :
  hash_mixed app args k b b' = inr h -> exists s, h = sha256_hex s.
Proof.
  unfold hash_mixed.
  destruct (fst (hash_files app args createHash _ (fresh_world b))) as [e | h1];
    [discriminate |].
  destruct (fst (hash_files app args h1 _ (fresh_world b'))) as [e | h2];
    [discriminate |].
  intros H. injection H as <-. exists (absorbed h2). reflexivity.
Qed.

(** X10: whatever the size and the content of the bundle, a hash the
    component computes itself is 64 lower-case hexadecimal characters,
    and the key of the uploaded object is that much longer than the
    component's name: 74 characters more. *)
Theorem a_computed_hash_is_64_hex_characters
    (app : App) (name : string) (args : FunctionArgs) (landed : nat)
    (w w' : World) (c : Declared) (d : Deployed) :
  bundleHash args = None ->
  Function_constructor app name args landed w = (c, w') ->
  deployed c = inr d ->
  String.length (d_bundleHash d) = 64%nat
  /\ all_chars is_hex_char (d_bundleHash d) = true
  /\ String.length (object_key (d_file d)) = (String.length name + 74)%nat.
Proof.
  intros Hnone Hrun Hd.
  destruct (constructor_deployed _ _ _ _ _ _ _ _ Hrun Hd) as (Hshape & _ & Hh & _).
  pose proof (constructor_hash app name args landed w Hnone) as Hm.
  rewrite Hrun in Hm. cbn [fst] in Hm. rewrite Hh in Hm. symmetry in Hm.
  destruct (hash_mixed_is_a_digest _ _ _ _ _ _ Hm) as [s Hs].
  destruct (sha256_hex_shape s) as [Hl Hc]. rewrite <- Hs in Hl, Hc.
  split; [exact Hl |]. split; [exact Hc |].
  rewrite Hshape. unfold deployed_of, createBucketObject. cbn [d_file object_key].
  rewrite !append_length, Hl. cbn [String.length]. lia.
Qed.

Lemma a_computed_hash_witness :
  String.length (d_bundleHash sample_deployed) = 64%nat
  /\ all_chars is_hex_char (d_bundleHash sample_deployed) = true
  /\ String.length (object_key (d_file sample_deployed))
     = (String.length "MyFunction" + 74)%nat.
Proof.
  apply (a_computed_hash_is_64_hex_characters sample_app "MyFunction" sample_args 0
           (fresh_world bundle_index) (snd sample_deploy) (fst sample_deploy)
           sample_deployed).
  - reflexivity.
  - vm_compute. reflexivity.
  - vm_compute. reflexivity.
Defined.

(** ** A handler that names no export *)

Lemma indexed_chars (cs : list ascii) :
  forall i ic, In ic (Posix.indexed i cs) -> In (snd ic) cs.
Proof.
  induction cs as [| c cs IH]; intros i ic H; [contradiction |].
  destruct H as [<- | H]; [left; reflexivity | right; exact (IH _ _ H)].
Qed.

Lemma chars_desc_chars (path : string) (start : Z) (ic : Z * ascii) :
  In ic (Posix.chars_desc path start) -> In (snd ic) (list_ascii_of_string path).
Proof.
  unfold Posix.chars_desc. intros H. apply List.in_rev in H.
  apply skipn_In in H. exact (indexed_chars _ _ _ H).
Qed.

Lemma parse_loop_no_dot (cs : list (Z * ascii)) :
  forall st,
    (forall ic, In ic cs -> Posix.is_dot (snd ic) = false) ->
    Posix.startDot st = (-1)%Z ->
    Posix.startDot (Posix.parse_loop cs st) = (-1)%Z.
Proof.
  induction cs as [| [i c] cs IH]; intros st Hall Hst; [exact Hst |].
  cbn [Posix.parse_loop].
  assert (Hc : Posix.is_dot c = false) by (apply (Hall (i, c)); left; reflexivity).
  assert (Hrest : forall ic, In ic cs -> Posix.is_dot (snd ic) = false)
    by (intros ic Hic; apply Hall; right; exact Hic).
  destruct (Posix.is_slash c).
  - destruct (negb (Posix.matchedSlash st)); [exact Hst | exact (IH _ Hrest Hst)].
  - rewrite Hc. apply (IH _ Hrest).
    destruct (Posix.end_ st =? -1)%Z; cbn [Posix.startDot]; rewrite Hst;
      cbn [Z.eqb Pos.eqb negb]; [reflexivity | exact Hst].
Qed.

Lemma parse_no_dot (path : string) :
  free_of "." path = true -> Posix.ext (Posix.parse path) = "".
Proof.
  intros Hfree. unfold Posix.parse.
  destruct (Posix.strlen path =? 0)%Z; [reflexivity |].
  match goal with
  | |- context [Posix.parse_loop ?cs ?st] =>
      pose proof (parse_loop_no_dot cs st) as Hdot; set (s := Posix.parse_loop cs st) in *
  end.
  rewrite Hdot; [| | reflexivity].
  - cbn [Z.eqb orb Pos.eqb]. destruct (Posix.end_ s =? -1)%Z; reflexivity.
  - intros ic Hic. apply chars_desc_chars in Hic.
    unfold free_of in Hfree. rewrite List.forallb_forall in Hfree.
    specialize (Hfree _ Hic). unfold Posix.is_dot.
    apply negb_true_iff in Hfree. exact Hfree.
Qed.

(** X11: [wrapHandler] takes a handler without a dot as it comes: the
    wrapper is written and declared as the function's handler all the
    same, and the module it imports the handler from is asked for an
    export with the empty name. *)
Theorem a_handler_without_a_dot_is_wrapped_all_the_same
    (app : App) (args : FunctionArgs) (w : World) (p : relpath) (b' : node) :
  free_of "." (handler args) = true ->
  args_injections args <> [] ->
  wrapper_path app args = Some p ->
  write_node (bundleDir w) p (wrapper_module args) = Some b' ->
  fst (wrapHandler app args w) = inr (wrapper_entry args)
  /\ readFile (bundleDir (snd (wrapHandler app args w))) p
     = inr (String.concat newline
              ([wrapper_header (args_streaming args)]
               ++ args_injections args
               ++ [wrapper_import "" (Posix.name (Posix.parse (handler args)));
                   wrapper_return;
                   wrapper_footer (args_streaming args)])).
Proof.
  intros Hfree Hinj Hp Hw.
  rewrite (wrapHandler_run app args w Hinj), Hp, Hw. cbn [fst snd set_bundle bundleDir].
  split; [reflexivity |].
  rewrite (write_then_read _ _ _ _ Hw).
  unfold wrapper_module. rewrite (parse_no_dot _ Hfree).
  destruct (args_streaming args); reflexivity.
Qed.

Lemma a_handler_without_a_dot_witness :
  fst (wrapHandler sample_app dotless_args (fresh_world bundle_index))
  = inr (wrapper_entry dotless_args)
  /\ readFile
       (bundleDir (snd (wrapHandler sample_app dotless_args (fresh_world bundle_index))))
       ["server-index.mjs"]
     = inr (String.concat newline
              ([wrapper_header (args_streaming dotless_args)]
               ++ args_injections dotless_args
               ++ [wrapper_import ""
                     (Posix.name (Posix.parse (handler dotless_args)));
                   wrapper_return;
                   wrapper_footer (args_streaming dotless_args)])).
Proof.
  apply (a_handler_without_a_dot_is_wrapped_all_the_same sample_app dotless_args
           (fresh_world bundle_index) ["server-index.mjs"]
           (Dir [("index.mjs", File "export const handler = 1;");
                 ("server-index.mjs", File (wrapper_module dotless_args))])).
  - reflexivity.
  - discriminate.
  - reflexivity.
  - vm_compute. reflexivity.
Defined.

(** The module written for the handler [index]. *)
Example the_wrapper_of_a_handler_without_a_dot :
  wrapper_module dotless_args
  = String.concat newline
      ["export const handler = async (event, context) => {";
       "  console.log(1);";
       "  const { : rawHandler} = await import(" +:+ dquote +:+ "./index.mjs"
         +:+ dquote +:+ ");";
       "  return rawHandler(event, context);";
       "};"].
Proof. vm_compute. reflexivity. Qed.

(** ** The component object *)

(** ** The component object *)

Lemma wrapHandler_result (app : App) (args : FunctionArgs) (w : World) (nh : string) :
  fst (wrapHandler app args w) = inr nh ->
  nh = match args_injections args with
       | [] => handler args
       | _ :: _ => wrapper_entry args
       end.
Proof.
  intros H. destruct (args_injections args) as [| i inj] eqn:E.
  - rewrite (wrapHandler_empty app args w E) in H. injection H as <-. reflexivity.
  - assert (Hinj : args_injections args <> []) by (rewrite E; discriminate).
    rewrite (wrapHandler_run app args w Hinj) in H.
    destruct (wrapper_path app args) as [p |].
    + destruct (write_node _ _ _); [| discriminate]. injection H as <-. reflexivity.
    + injection H as <-. reflexivity.
Qed.

(** X12: the metadata of a constructed component never reports a
    missing source map, lists no secrets, and gives as handler the one
    the Lambda function was declared with: the caller's without
    injections, the generated wrapper's entry with them.  The [aws]
    getter hands out that same function. *)
Theorem getConstructMetadata_reports_the_declared_handler
    (app : App) (o : EngineOutputs) (name : string) (args : FunctionArgs)
    (landed : nat) (w w' : World) (this : FunctionComponent) :
  new_Function app o name args landed w = (inr this, w') ->
  meta_missingSourcemap (getConstructMetadata o this) = None
  /\ meta_secrets (getConstructMetadata o this) = []
  /\ meta_handler (getConstructMetadata o this)
     = match args_injections args with
       | [] => handler args
       | _ :: _ => wrapper_entry args
       end
  /\ meta_handler (getConstructMetadata o this) = fn_handler (fst (aws this))
  /\ meta_arn (getConstructMetadata o this) = function_arn o (name +:+ "-function")
  /\ meta_localId (getConstructMetadata o this) = component_urn o name.
Proof.
  unfold new_Function. intros H.
  pose proof (constructor_run app name args landed w) as (Hc & Hnh & _).
  cbv zeta in Hc, Hnh.
  destruct (Function_constructor app name args landed w) as [c w1].
  cbn [fst] in Hc, Hnh.
  destruct (c_fn c) as [e | fn] eqn:Efn; [discriminate |].
  injection H as <- _.
  rewrite Hc in Efn. cbn [declare c_fn] in Efn.
  destruct (c_newHandler c) as [e | nh]; [discriminate |].
  injection Efn as <-. symmetry in Hnh. apply wrapHandler_result in Hnh.
  unfold getConstructMetadata, aws.
  cbn [meta_missingSourcemap meta_secrets meta_handler meta_arn meta_localId
       this_function this_missingSourcemap this_urn fst].
  cbn [createFunction fn_handler fn_name]. rewrite <- Hnh.
  repeat split; reflexivity.
Qed.

Lemma getConstructMetadata_witness :
  meta_missingSourcemap (getConstructMetadata sample_outputs sample_component) = None
  /\ meta_secrets (getConstructMetadata sample_outputs sample_component) = []
  /\ meta_handler (getConstructMetadata sample_outputs sample_component)
     = match args_injections sample_args with
       | [] => handler sample_args
       | _ :: _ => wrapper_entry sample_args
       end
  /\ meta_handler (getConstructMetadata sample_outputs sample_component)
     = fn_handler (fst (aws sample_component))
  /\ meta_arn (getConstructMetadata sample_outputs sample_component)
     = function_arn sample_outputs ("MyFunction" +:+ "-function")
  /\ meta_localId (getConstructMetadata sample_outputs sample_component)
     = component_urn sample_outputs "MyFunction".
Proof.
  apply (getConstructMetadata_reports_the_declared_handler
           sample_app sample_outputs "MyFunction" sample_args 0
           (fresh_world bundle_index)
           (snd (new_Function sample_app sample_outputs "MyFunction" sample_args 0
                   (fresh_world bundle_index)))
           sample_component).
  vm_compute. reflexivity.
Defined.

(** ** Where the archive is written *)

Lemma concat_two_more (segs : list string) :
  exists P, forall n,
    String.concat "/" (segs ++ [n; "code.zip"]) = P +:+ n +:+ "/code.zip".
Proof.
  induction segs as [| x segs [P IH]].
  - exists "". intros n. rewrite append_nil_l. reflexivity.
  - exists (x +:+ "/" +:+ P). intros n.
    change ((x :: segs) ++ [n; "code.zip"]) with (x :: (segs ++ [n; "code.zip"])).
    specialize (IH n).
    destruct (segs ++ [n; "code.zip"]) as [| y ys] eqn:E;
      [destruct segs; discriminate |].
    change (String.concat "/" (x :: y :: ys))
      with (x +:+ "/" +:+ String.concat "/" (y :: ys)).
    rewrite IH, !append_assoc. reflexivity.
Qed.

Lemma resolve_tail_shape (X : string) (abs : bool) :
  exists Q, forall n, plain_name n = true ->
    (let p := String.concat "/"
                (Posix.normalize_segments (negb abs)
                   (Posix.split (X +:+ String "/" (n +:+ String "/" "code.zip/"))) []) in
     if abs then "/" +:+ p
     else if (0 <? Posix.strlen p)%Z then p else ".")
    = Q +:+ n +:+ "/code.zip".
Proof.
  destruct (concat_two_more (Posix.normalize_segments (negb abs) (Posix.split X) []))
    as [P HP].
  exists (if abs then "/" +:+ P else P). intros n Hn.
  destruct (plain_name_inv n Hn) as (_ & _ & Hfree & H1 & H2 & H3).
  assert (Hsegs : Posix.normalize_segments (negb abs)
                    (Posix.split (X +:+ String "/" (n +:+ String "/" "code.zip/"))) []
                  = Posix.normalize_segments (negb abs) (Posix.split X) []
                    ++ [n; "code.zip"]).
  { unfold Posix.split. rewrite split_acc_app.
    unfold Posix.split. rewrite split_acc_app.
    rewrite (split_acc_plain n Hfree), append_nil_l.
    change (Posix.split "code.zip/") with ["code.zip"; ""].
    change ([n] ++ ["code.zip"; ""]) with [n; "code.zip"; ""].
    replace (Posix.split_acc "" X ++ [n; "code.zip"; ""])
      with (((Posix.split_acc "" X ++ [n]) ++ ["code.zip"]) ++ [""])
      by (rewrite <- !List.app_assoc; reflexivity).
    rewrite normalize_segments_skip.
    rewrite normalize_segments_snoc by reflexivity.
    rewrite (normalize_segments_snoc _ n _ H1 H2 H3).
    rewrite <- List.app_assoc. reflexivity. }
  rewrite Hsegs. cbv zeta.
  rewrite HP. destruct abs; [rewrite !append_assoc; reflexivity |].
  replace (0 <? Posix.strlen (P +:+ n +:+ "/code.zip"))%Z with true; [reflexivity |].
  symmetry. apply Z.ltb_lt. unfold Posix.strlen.
  rewrite !append_length. cbn [String.length]. lia.
Qed.

Lemma resolve_zip_shape (cwd temp : string) :
  exists Q, forall n, plain_name n = true ->
    PosixResolve.resolve cwd [temp; n; "code.zip"] = Q +:+ n +:+ "/code.zip".
Proof.
  destruct (resolve_tail_shape cwd (PosixResolve.is_absolute cwd)) as [Q1 H1].
  destruct (resolve_tail_shape temp true) as [Q2 H2].
  destruct (resolve_tail_shape (cwd +:+ String "/" temp) (PosixResolve.is_absolute cwd))
    as [Q3 H3].
  exists (if (Posix.strlen temp =? 0)%Z then Q1
          else if PosixResolve.is_absolute temp then Q2 else Q3).
  intros n Hn. destruct (plain_name_inv n Hn) as (Hlen & Habs & _).
  unfold PosixResolve.resolve. cbn [List.rev app].
  change (PosixResolve.resolve_acc ["code.zip"; n; temp] "")
    with (PosixResolve.resolve_acc [n; temp] "code.zip/").
  cbn [PosixResolve.resolve_acc]. rewrite Hlen, Habs.
  destruct (Posix.strlen temp =? 0)%Z.
  - rewrite <- (H1 n Hn). reflexivity.
  - destruct (PosixResolve.is_absolute temp).
    + rewrite <- (H2 n Hn). reflexivity.
    + rewrite <- (H3 n Hn). cbv zeta.
      replace ((cwd +:+ String "/" temp) +:+ String "/" (n +:+ String "/" "code.zip/"))
        with (cwd +:+ String "/" (temp +:+ String "/" (n +:+ String "/" "code.zip/")))
        by (rewrite append_assoc, append_cons; reflexivity).
      reflexivity.
Qed.

(** X13: two components of one app whose names are single path
    components and differ write their archives to different paths; each
    path ends in the component's name followed by [/code.zip]. *)
Theorem components_write_their_archives_apart
    (app : App) (name1 name2 : string) (w1 w2 : World) :
  plain_name name1 = true ->
  plain_name name2 = true ->
  name1 <> name2 ->
  fst (zipBundleFolder app name1 w1) <> fst (zipBundleFolder app name2 w2)
  /\ exists base, fst (zipBundleFolder app name1 w1)
                  = inr (base +:+ name1 +:+ "/code.zip").
Proof.
  intros Hn1 Hn2 Hne. rewrite !zipBundleFolder_run. cbn [fst]. unfold zip_path.
  destruct (resolve_zip_shape (cwd app) (paths_temp app)) as [Q HQ].
  rewrite (HQ name1 Hn1), (HQ name2 Hn2). split.
  - intros H. injection H as H. apply Hne.
    apply append_inv_head in H. apply append_inv_tail in H. exact H.
  - exists Q. reflexivity.
Qed.

Lemma components_write_their_archives_apart_witness :
  fst (zipBundleFolder sample_app "Api" (fresh_world bundle_index))
  <> fst (zipBundleFolder sample_app "Web" (fresh_world bundle_index))
  /\ exists base, fst (zipBundleFolder sample_app "Api" (fresh_world bundle_index))
                  = inr (base +:+ "Api" +:+ "/code.zip").
Proof.
  apply (components_write_their_archives_apart sample_app "Api" "Web"
           (fresh_world bundle_index) (fresh_world bundle_index)).
  - reflexivity.
  - reflexivity.
  - discriminate.
Defined.

(** Names that are not single path components can share an archive. *)
Example archives_of_odd_names_collide :
  fst (zipBundleFolder sample_app "Api" (fresh_world bundle_index))
  = fst (zipBundleFolder sample_app "Web/../Api" (fresh_world bundle_index))
  /\ fst (zipBundleFolder sample_app "" (fresh_world bundle_index))
     = inr "/work/.sst/temp/code.zip".
Proof. split; vm_compute; reflexivity. Qed.
